(** * Puerro: virtual DOM rendering and reconciliation

    A shallow embedding of the virtual-DOM utilities of the Puerro project
    ([puerro/util/dom.js] and the bundled [vdom] module: [vNode]/[h],
    [createDomElement], [render], [diff], [changed]) and of the pieces of the
    bundled component runtime that schedule and instantiate components
    ([enqueueRender], [rerender], [createComponent], [renderComponent]).

    JavaScript values are a first-order datatype, DOM nodes are finite
    trees, exceptions are an explicit [result], and the mutations [diff]
    applies to the live tree are both performed on the tree that is passed
    through and recorded in a log. *)

From stdpp Require Import base option list strings pretty gmap.

Set Warnings "-register-all".

Open Scope string_scope.
Open Scope list_scope.
Open Scope nat_scope.

(** ** JavaScript values *)

(** Numbers are the integer-valued ones together with [NaN]; functions,
    arrays and objects carry the address they were allocated at, which is
    what [===] compares.  A function also carries its source text, which is
    what its [toString] returns.  The fields of an object are its own
    enumerable properties in enumeration order. *)
Inductive value : Type :=
  | VUndefined
  | VNull
  | VBool (b : bool)
  | VNaN
  | VNum (n : Z)
  | VStr (s : string)
  | VFun (ref : nat) (src : string)
  | VArr (ref : nat) (items : list value)
  | VObj (ref : nat) (fields : list (string * value)).

Definition value_eq_dec : ∀ x y : value, {x = y} + {x ≠ y}.
Proof.
  fix IH 1. intros x y.
  decide equality;
    try solve [ apply bool_dec | apply Z.eq_dec | apply Nat.eq_dec
              | apply String.string_dec | apply (List.list_eq_dec IH) ].
  apply List.list_eq_dec. intros [k1 v1] [k2 v2].
  destruct (String.string_dec k1 k2); [|right; congruence].
  destruct (IH v1 v2); [left; congruence | right; congruence].
Defined.

#[global] Instance value_eq_decision : EqDecision value := value_eq_dec.

(** Nesting depth of arrays and objects; it bounds the recursion of
    [render] and [diff]. *)
Fixpoint height (v : value) : nat :=
  match v with
  | VArr _ items => S (foldr (λ x n, height x `max` n) 0 items)
  | VObj _ fields => S (foldr (λ kv n, height kv.2 `max` n) 0 fields)
  | _ => 0
  end.

(** [typeof v] *)
Definition typeof (v : value) : string :=
  match v with
  | VUndefined => "undefined"
  | VNull | VArr _ _ | VObj _ _ => "object"
  | VBool _ => "boolean"
  | VNaN | VNum _ => "number"
  | VStr _ => "string"
  | VFun _ _ => "function"
  end.

(** [null == v] *)
Definition nullish (v : value) : bool :=
  match v with VUndefined | VNull => true | _ => false end.

(** [!!v] *)
Definition truthy (v : value) : bool :=
  match v with
  | VUndefined | VNull | VNaN => false
  | VBool b => b
  | VNum n => negb (n =? 0)%Z
  | VStr s => negb (String.eqb s "")
  | VFun _ _ | VArr _ _ | VObj _ _ => true
  end.

(** [a === b]: primitives by value ([NaN] is equal to nothing), references
    by identity.  Two descriptions of the store's content at one address
    are the same description, so identity is equality of the carried
    address together with the content found there. *)
Definition strict_eq (a b : value) : bool :=
  match a, b with
  | VNaN, _ | _, VNaN => false
  | _, _ => bool_decide (a = b)
  end.

(** [a !== b] *)
Definition strict_neq (a b : value) : bool := negb (strict_eq a b).

(** The string a value converts to ([String(v)], and [v.toString()] where
    [v] is not null or undefined).  Array elements that are null or
    undefined are joined as empty strings.  A number is printed as its
    decimal numeral and an object as ["[object Object]"]; the values for
    which this is what JavaScript prints are the ones with a
    [plain_string] form. *)
Fixpoint toString (v : value) : string :=
  match v with
  | VUndefined => "undefined"
  | VNull => "null"
  | VBool b => if b then "true" else "false"
  | VNaN => "NaN"
  | VNum n => pretty n
  | VStr s => s
  | VFun _ src => src
  | VArr _ items =>
      String.concat "," (map (λ x, if nullish x then "" else toString x) items)
  | VObj _ _ => "[object Object]"
  end.

(** First field named [k]. *)
Definition field (k : string) (fields : list (string * value)) : option value :=
  snd <$> List.find (λ kv, String.eqb k kv.1) fields.

(** The own enumerable properties of a value that is not null or
    undefined: the fields of an object, the elements of an array and the
    characters of a string under their indices. *)
Definition entries (v : value) : list (string * value) :=
  match v with
  | VObj _ fields => fields
  | VArr _ items => imap (λ i x, (pretty i, x)) items
  | VStr s => imap (λ i c, (pretty i, VStr (String c ""))) (String.list_ascii_of_string s)
  | _ => []
  end.

(** [Object.keys(v)] for [v] not null or undefined. *)
Definition own_keys (v : value) : list string := (entries v).*1.

(** [v[k]] for [v] not null or undefined.  An absent property reads as
    [undefined]: the members that a value inherits from its prototype
    (for an object the [inherited] names) and the built-in properties of
    functions are not modelled. *)
Definition prop (v : value) (k : string) : value :=
  match field k (entries v) with
  | Some x => x
  | None =>
      if String.eqb k "length" then
        match v with
        | VArr _ items => VNum (Z.of_nat (length items))
        | VStr s => VNum (Z.of_nat (String.length s))
        | _ => VUndefined
        end
      else VUndefined
  end.

(** ** Exceptions *)

Inductive exn : Type :=
  | TypeError
  | InvalidCharacterError
  | HierarchyRequestError
  | Exhausted. (* recursion budget of [render_rec]/[diff_rec] used up;
                  never the outcome of [render] or [diff] *)

Inductive result (A : Type) : Type :=
  | Ok (a : A)
  | Throw (e : exn).
Arguments Ok {A} a.
Arguments Throw {A} e.

#[global] Instance result_ret : MRet result := λ A a, Ok a.
#[global] Instance result_bind : MBind result := λ A B f m,
  match m with Ok a => f a | Throw e => Throw e end.

(** Monadic left fold: [xs.forEach(x => acc = f(acc, x))], stopping at the
    first exception. *)
Fixpoint foldM {A B : Type} (f : A → B → result A) (acc : A) (xs : list B) : result A :=
  match xs with
  | [] => Ok acc
  | x :: xs => acc' ← f acc x; foldM f acc' xs
  end.

(** [v.k]: reading a property of null or undefined throws. *)
Definition get (v : value) (k : string) : result value :=
  if nullish v then Throw TypeError else Ok (prop v k).

(** [Object.keys(v)] *)
Definition object_keys (v : value) : result (list string) :=
  if nullish v then Throw TypeError else Ok (own_keys v).

(** The elements visited by [v.forEach(...)]; only arrays have the method. *)
Definition forEach_items (v : value) : result (list value) :=
  match v with
  | VArr _ items => Ok items
  | _ => Throw TypeError
  end.

(** [[].concat(...nodes)]: array arguments are spread one level, any other
    argument is appended as it is. *)
Definition concat_spread (nodes : list value) : list value :=
  mjoin (map (λ n, match n with VArr _ items => items | _ => [n] end) nodes).

(** ** The live tree *)

(** A DOM node: a text node, or an element with its attributes, its
    registered event listeners and its children.  Names are kept as they
    were given. *)
Inductive dom : Type :=
  | Text (data : string)
  | Element (tagName : string) (attributes : list (string * string))
            (listeners : list (string * value)) (childNodes : list dom).

(** What the platform's [document] decides: which strings it accepts as
    element names and as attribute names. *)
Class Document : Type := {
  valid_element_name : string → bool;
  valid_attribute_name : string → bool;
}.

(** [$node.childNodes]; a text node has none. *)
Definition childNodes (node : dom) : list dom :=
  match node with
  | Text _ => []
  | Element _ _ _ children => children
  end.

Definition with_childNodes (node : dom) (children : list dom) : dom :=
  match node with
  | Text data => Text data
  | Element tag attrs ls _ => Element tag attrs ls children
  end.

(** [document.createTextNode(v)] *)
Definition createTextNode (v : value) : dom := Text (toString v).

(** [$parent.appendChild($child)] for a freshly created [$child]. *)
Definition appendChild (parent child : dom) : result dom :=
  match parent with
  | Text _ => Throw HierarchyRequestError
  | Element tag attrs ls children => Ok (Element tag attrs ls (children ++ [child]))
  end.

(** [$parent.removeChild($parent.childNodes[index])]: without a node at
    [index] the argument is [undefined], which is not a node. *)
Definition removeChildAt (parent : dom) (index : nat) : result dom :=
  match childNodes parent !! index with
  | Some _ => Ok (with_childNodes parent (delete index (childNodes parent)))
  | None => Throw TypeError
  end.

(** [$parent.replaceChild($new, $parent.childNodes[index])] for a freshly
    created [$new]. *)
Definition replaceChildAt (parent new : dom) (index : nat) : result dom :=
  match childNodes parent !! index with
  | Some _ => Ok (with_childNodes parent (<[index := new]> (childNodes parent)))
  | None => Throw TypeError
  end.

(** [$element.addEventListener(type, listener)] *)
Definition addEventListener (el : dom) (type : string) (listener : value) : dom :=
  match el with
  | Text data => Text data
  | Element tag attrs ls children => Element tag attrs (ls ++ [(type, listener)]) children
  end.

(** Setting one entry of an attribute list: an existing attribute keeps its
    place, a new one goes last. *)
Fixpoint set_attr (name val : string) (attrs : list (string * string)) : list (string * string) :=
  match attrs with
  | [] => [(name, val)]
  | (n, v) :: attrs => if String.eqb n name then (n, val) :: attrs else (n, v) :: set_attr name val attrs
  end.

(** A mutation of the live tree made by [diff], relative to the node that
    [diff] was given as [$parent]. *)
Inductive mutation : Type :=
  | AppendChild (new : dom)
  | RemoveChild (index : nat)
  | ReplaceChild (new : dom) (index : nat)
  | Within (index : nat) (m : mutation). (* [m] applied to the child at [index] *)

(** The receiver of a method call: a node, or [undefined] where
    [childNodes[index]] was read out of range. *)
Definition deref (parent : option dom) : result dom :=
  match parent with
  | Some p => Ok p
  | None => Throw TypeError
  end.

(** [vNode] (alias [h]), called with at least the first two arguments
    ([VUndefined] for an omitted one):
<<
  const vNode = (tagName, attributes = {}, ...nodes) => ({
    tagName,
    attributes: null == attributes ? {} : attributes,
    children: null == nodes ? [] : [].concat(...nodes), // collapse nested arrays.
  });
  const h = vNode;
>>
    The node object is allocated at [a], its children array at [a + 1],
    an attribute object created for a missing one at [a + 2] and the
    array holding the rest parameter at [a + 3]. *)
Definition vNode (a : nat) (tagName attributes : value) (nodes : list value) : value :=
  let attributes := match attributes with VUndefined => VObj (a + 2) [] | _ => attributes end in
  let rest := VArr (a + 3) nodes in
  VObj a
    [ ("tagName", tagName);
      ("attributes", if nullish attributes then VObj (a + 2) [] else attributes);
      ("children", if nullish rest then VArr (a + 1) []
                   else VArr (a + 1) (concat_spread nodes)) ].

Definition h := vNode.

(** The string an attribute value is compared as:
    [(null == v ? '' : v).toString()] *)
Definition normalized (v : value) : string :=
  toString (if nullish v then VStr "" else v).

(** [changed]:
<<
  const changed = (node1, node2) => {
    const nodeChanged =
      typeof node1 !== typeof node2 ||
      ((typeof node1 === 'string' || typeof node1 === 'number') && node1 !== node2) ||
      node1.type !== node2.type;
    const attributesChanged =
      !!node1.attributes &&
      !!node2.attributes &&
      (Object.keys(node1.attributes).length !== Object.keys(node2.attributes).length ||
        Object.keys(node1.attributes).some(
          a =>
            node1.attributes[a] !== node2.attributes[a] &&
            (null == node1.attributes[a] ? '' : node1.attributes[a]).toString() !==
            (null == node2.attributes[a] ? '' : node2.attributes[a]).toString()
        ));
    return nodeChanged || attributesChanged;
  };
>> *)
Definition nodeChanged (node1 node2 : value) : result bool :=
  if negb (String.eqb (typeof node1) (typeof node2)) then Ok true
  else if (String.eqb (typeof node1) "string" || String.eqb (typeof node1) "number")
          && strict_neq node1 node2 then Ok true
  else
    type1 ← get node1 "type";
    type2 ← get node2 "type";
    Ok (strict_neq type1 type2).

Definition attributeDiffers (attributes1 attributes2 : value) (a : string) : bool :=
  strict_neq (prop attributes1 a) (prop attributes2 a)
  && negb (String.eqb (normalized (prop attributes1 a)) (normalized (prop attributes2 a))).

Definition attributesChanged (node1 node2 : value) : result bool :=
  attributes1 ← get node1 "attributes";
  if negb (truthy attributes1) then Ok false
  else
    attributes2 ← get node2 "attributes";
    if negb (truthy attributes2) then Ok false
    else if negb (Nat.eqb (length (own_keys attributes1)) (length (own_keys attributes2))) then Ok true
    else Ok (existsb (attributeDiffers attributes1 attributes2) (own_keys attributes1)).

Definition changed (node1 node2 : value) : result bool :=
  nc ← nodeChanged node1 node2;
  ac ← attributesChanged node1 node2;
  Ok (nc || ac).

Section vdom.
Context `{Document}.

(** [document.createElement(tagName)] *)
Definition createElement (tagName : value) : result dom :=
  if valid_element_name (toString tagName)
  then Ok (Element (toString tagName) [] [] [])
  else Throw InvalidCharacterError.

(** [$element.setAttribute(name, val)] *)
Definition setAttribute (el : dom) (name : string) (val : value) : result dom :=
  if valid_attribute_name name then
    Ok match el with
       | Text data => Text data
       | Element tag attrs ls children => Element tag (set_attr name (toString val) attrs) ls children
       end
  else Throw InvalidCharacterError.

(** [createDomElement(tagName, attributes)] of the bundled module, which is
    [createElement(tagName, attributes)('')] of [puerro/util/dom.js]:
<<
const createDomElement = (tagName, attributes = {}, innerHTML = '') => {
  const $element = document.createElement(tagName);
  $element.innerHTML = innerHTML;
  Object.keys(attributes)
    .filter(key => null != attributes[key])
    .forEach(key => {
      if (typeof attributes[key] === 'function') {
        $element.addEventListener(key, attributes[key]);
      } else {
        $element.setAttribute(key, attributes[key]);
      }
    });
  return $element;
};
>> *)
Definition createDomElement (tagName attributes : value) : result dom :=
  let attributes := match attributes with VUndefined => VObj 0 [] | _ => attributes end in
  el ← createElement tagName;
  keys ← object_keys attributes;
  foldM (λ el key,
           if String.eqb (typeof (prop attributes key)) "function"
           then Ok (addEventListener el key (prop attributes key))
           else setAttribute el key (prop attributes key))
        el
        (filter (λ key, nullish (prop attributes key) = false) keys).

(** [render], with a budget for the nesting of the node:
<<
const render = node => {
  if (null == node) {
    return document.createTextNode('');
  }
  if (typeof node === 'string' || typeof node === 'number') {
    return document.createTextNode(node);
  }
  const $element = createDomElement(node.tagName, node.attributes);
  node.children.forEach(c => $element.appendChild(render(c)));
  return $element;
};
>> *)
Fixpoint render_rec (fuel : nat) (node : value) : result dom :=
  if nullish node then Ok (createTextNode (VStr ""))
  else if String.eqb (typeof node) "string" || String.eqb (typeof node) "number"
  then Ok (createTextNode node)
  else
    el ← createDomElement (prop node "tagName") (prop node "attributes");
    children ← forEach_items (prop node "children");
    foldM (λ el c,
             match fuel with
             | 0 => Throw Exhausted
             | S fuel => r ← render_rec fuel c; appendChild el r
             end)
          el children.

Definition render (node : value) : result dom := render_rec (height node) node.

(** [diff] of [puerro/util/dom.js], with a budget for the nesting of the
    new node.  (The bundled copy takes [newNode] before [oldNode], at
    the definition and at every call.)
<<
const diff = ($parent, oldNode, newNode, index = 0) => {
  if (null == oldNode) {
    $parent.appendChild(render(newNode));
    return;
  }
  if (null == newNode) {
    $parent.removeChild($parent.childNodes[index]);
    return;
  }
  if (changed(oldNode, newNode)) {
    $parent.replaceChild(render(newNode), $parent.childNodes[index]);
    return;
  }
  if (newNode.tagName) {
    newNode.children.forEach((newNode, i) => {
      diff($parent.childNodes[index], oldNode.children[i], newNode, i);
    });
  }
};
>>
    [$parent] is the node handed in, or [None] for [undefined]; the
    outcome is that node after the call, with the mutations made. *)
Definition patched : Type := option dom * list mutation.

(** The first three cases, which do not recurse. *)
Definition diff_append (parent : option dom) (newNode : value) : result patched :=
  p ← deref parent;
  new ← render newNode;
  p' ← appendChild p new;
  Ok (Some p', [AppendChild new]).

Definition diff_remove (parent : option dom) (index : nat) : result patched :=
  p ← deref parent;
  p' ← removeChildAt p index;
  Ok (Some p', [RemoveChild index]).

Definition diff_replace (parent : option dom) (newNode : value) (index : nat) : result patched :=
  p ← deref parent;
  new ← render newNode;
  p' ← replaceChildAt p new index;
  Ok (Some p', [ReplaceChild new index]).

(** One round of the [forEach] of the fourth case: [recur] is the
    recursive call, [st.1] the state of [$parent], [st.2.1] the mutations
    so far and [st.2.2] the position [i] in the new children. *)
Definition diff_child (recur : option dom → value → value → nat → result patched)
    (oldNode : value) (index : nat)
    (st : option dom * (list mutation * nat)) (newNode : value)
    : result (option dom * (list mutation * nat)) :=
  let '(parent, (log, i)) := st in
  p ← deref parent;
  oldChildren ← get oldNode "children";
  oldChild ← get oldChildren (pretty i);
  '(child, ms) ← recur (childNodes p !! index) oldChild newNode i;
  Ok (Some match child with
           | Some c => with_childNodes p (<[index := c]> (childNodes p))
           | None => p
           end,
      (log ++ (Within index <$> ms), S i)).

Fixpoint diff_rec (fuel : nat) (parent : option dom) (oldNode newNode : value) (index : nat)
    : result patched :=
  if nullish oldNode then diff_append parent newNode
  else if nullish newNode then diff_remove parent index
  else
    c ← changed oldNode newNode;
    if c : bool then diff_replace parent newNode index
    else if truthy (prop newNode "tagName") then
      children ← forEach_items (prop newNode "children");
      '(parent', (log, _)) ←
        foldM (diff_child (λ parent oldNode newNode index,
                             match fuel with
                             | 0 => Throw Exhausted
                             | S fuel => diff_rec fuel parent oldNode newNode index
                             end)
                          oldNode index)
              (parent, ([], 0)) children;
      Ok (parent', log)
    else Ok (parent, []).

Definition diff (parent : option dom) (oldNode newNode : value) (index : nat) : result patched :=
  diff_rec (height newNode) parent oldNode newNode index.
End vdom.

(** ** The component runtime *)

(** Component constructors.  User code is observed, not executed: a hook
    is described by the value it returns from its arguments (or by its mere
    presence when the result is unused), every call of a hook is recorded
    as an [event], and hooks do not call back into the runtime. *)
Record ctor : Type := {
  ctor_ref : nat;                                    (* identity of the function *)
  prototype_render : bool;                           (* [Ctor.prototype && Ctor.prototype.render] *)
  construct_state : value → value → value;           (* [this.state] after [new Ctor(props, context)] *)
  render_method : value → value → value → value;     (* [render(props, state, context)] *)
  getDerivedStateFromProps : option (value → value → value);
  shouldComponentUpdate : option (value → value → value → value);
  componentWillUpdate : bool;
  getChildContext : option value;
  getSnapshotBeforeUpdate : option (value → value → value);
  componentDidUpdate : bool;
  componentDidMount : bool;
}.

(** A component instance, with the fields the runtime keeps on it; [base]
    and [nextBase] hold the address of a live node. *)
Record instance : Type := {
  constructor : ctor;
  _dirty : bool;
  _disable : bool;
  props : value;
  state : value;
  context : value;
  prevProps : value;
  prevState : value;
  prevContext : value;
  base : option nat;
  nextBase : option nat;
  _component : option nat;
  _renderCallbacks : list value;
}.

Inductive event : Type :=
  | GetDerivedStateFromProps (c : nat)
  | ShouldComponentUpdate (c : nat)
  | ComponentWillUpdate (c : nat)
  | Render (c : nat)
  | GetChildContext (c : nat)
  | GetSnapshotBeforeUpdate (c : nat)
  | ComponentDidUpdate (c : nat)
  | ComponentDidMount (c : nat)
  | RenderCallback (c : nat) (callback : value).

(** The module-level state of the runtime and the store of instances. *)
Record world : Type := {
  components : gmap nat instance;   (* instances by address *)
  next_ref : nat;                    (* next free address *)
  items : list nat;                  (* the dirty queue *)
  deferred : nat;                    (* calls of [rerender] handed to [defer] and not yet run *)
  mounts : list nat;
  diffLevel : nat;
  recyclerComponents : list nat;
  trace : list event;
}.

Definition with_component (c : nat) (f : instance → instance) (w : world) : world :=
  {| components := alter f c (components w); next_ref := next_ref w; items := items w;
     deferred := deferred w; mounts := mounts w; diffLevel := diffLevel w;
     recyclerComponents := recyclerComponents w; trace := trace w |}.

Definition with_items (f : list nat → list nat) (w : world) : world :=
  {| components := components w; next_ref := next_ref w; items := f (items w);
     deferred := deferred w; mounts := mounts w; diffLevel := diffLevel w;
     recyclerComponents := recyclerComponents w; trace := trace w |}.

Definition with_deferred (f : nat → nat) (w : world) : world :=
  {| components := components w; next_ref := next_ref w; items := items w;
     deferred := f (deferred w); mounts := mounts w; diffLevel := diffLevel w;
     recyclerComponents := recyclerComponents w; trace := trace w |}.

Definition with_mounts (f : list nat → list nat) (w : world) : world :=
  {| components := components w; next_ref := next_ref w; items := items w;
     deferred := deferred w; mounts := f (mounts w); diffLevel := diffLevel w;
     recyclerComponents := recyclerComponents w; trace := trace w |}.

Definition with_recyclerComponents (f : list nat → list nat) (w : world) : world :=
  {| components := components w; next_ref := next_ref w; items := items w;
     deferred := deferred w; mounts := mounts w; diffLevel := diffLevel w;
     recyclerComponents := f (recyclerComponents w); trace := trace w |}.

Definition emit (e : event) (w : world) : world :=
  {| components := components w; next_ref := next_ref w; items := items w;
     deferred := deferred w; mounts := mounts w; diffLevel := diffLevel w;
     recyclerComponents := recyclerComponents w; trace := trace w ++ [e] |}.

Definition allocate (comp : instance) (w : world) : nat * world :=
  (next_ref w,
   {| components := <[next_ref w := comp]> (components w); next_ref := S (next_ref w);
      items := items w; deferred := deferred w; mounts := mounts w; diffLevel := diffLevel w;
      recyclerComponents := recyclerComponents w; trace := trace w |}).

Definition set_dirty (b : bool) (comp : instance) : instance :=
  {| constructor := constructor comp; _dirty := b; _disable := _disable comp;
     props := props comp; state := state comp; context := context comp;
     prevProps := prevProps comp; prevState := prevState comp; prevContext := prevContext comp;
     base := base comp; nextBase := nextBase comp; _component := _component comp;
     _renderCallbacks := _renderCallbacks comp |}.

Definition set_state (s : value) (comp : instance) : instance :=
  {| constructor := constructor comp; _dirty := _dirty comp; _disable := _disable comp;
     props := props comp; state := s; context := context comp;
     prevProps := prevProps comp; prevState := prevState comp; prevContext := prevContext comp;
     base := base comp; nextBase := nextBase comp; _component := _component comp;
     _renderCallbacks := _renderCallbacks comp |}.

Definition set_prevState (s : value) (comp : instance) : instance :=
  {| constructor := constructor comp; _dirty := _dirty comp; _disable := _disable comp;
     props := props comp; state := state comp; context := context comp;
     prevProps := prevProps comp; prevState := s; prevContext := prevContext comp;
     base := base comp; nextBase := nextBase comp; _component := _component comp;
     _renderCallbacks := _renderCallbacks comp |}.

Definition set_nextBase (b : option nat) (comp : instance) : instance :=
  {| constructor := constructor comp; _dirty := _dirty comp; _disable := _disable comp;
     props := props comp; state := state comp; context := context comp;
     prevProps := prevProps comp; prevState := prevState comp; prevContext := prevContext comp;
     base := base comp; nextBase := b; _component := _component comp;
     _renderCallbacks := _renderCallbacks comp |}.

Definition set_renderCallbacks (cbs : list value) (comp : instance) : instance :=
  {| constructor := constructor comp; _dirty := _dirty comp; _disable := _disable comp;
     props := props comp; state := state comp; context := context comp;
     prevProps := prevProps comp; prevState := prevState comp; prevContext := prevContext comp;
     base := base comp; nextBase := nextBase comp; _component := _component comp;
     _renderCallbacks := cbs |}.

(** The assignments of [renderComponent] before rendering:
<<
  component.prevProps = component.prevState = component.prevContext = component.nextBase = null;
  component._dirty = false;
>>
    after [component.state = state]. *)
Definition settle (s : value) (comp : instance) : instance :=
  {| constructor := constructor comp; _dirty := false; _disable := _disable comp;
     props := props comp; state := s; context := context comp;
     prevProps := VNull; prevState := VNull; prevContext := VNull;
     base := base comp; nextBase := None; _component := _component comp;
     _renderCallbacks := _renderCallbacks comp |}.

(** A method of the instance: instances of a constructor without
    [prototype.render] are plain [Component]s and have none. *)
Definition method {A : Type} (hook : ctor → option A) (comp : instance) : option A :=
  if prototype_render (constructor comp) then hook (constructor comp) else None.

Definition has_method (hook : ctor → bool) (comp : instance) : bool :=
  prototype_render (constructor comp) && hook (constructor comp).

(** [a || b] *)
Definition or_else (a b : value) : value := if truthy a then a else b.

(** Overwriting or adding one field of an object.  A new field goes
    last, which is its place in the enumeration of the keys unless it is
    an [integer_key]. *)
Fixpoint set_field (k : string) (v : value) (fields : list (string * value)) : list (string * value) :=
  match fields with
  | [] => [(k, v)]
  | (k', v') :: fields =>
      if String.eqb k' k then (k', v) :: fields else (k', v') :: set_field k v fields
  end.

(** [extend(extend({}, obj), props)], the fresh object allocated at [a]:
<<
  function extend(obj, props) {
    for (var i in props) {
      obj[i] = props[i];
    }return obj;
  }
>> *)
Definition extend_copy (a : nat) (obj props : value) : value :=
  VObj a (foldl (λ fields kv, set_field kv.1 kv.2 fields) [] (entries obj ++ entries props)).

Definition fresh (w : world) : nat * world :=
  (next_ref w,
   {| components := components w; next_ref := S (next_ref w); items := items w;
      deferred := deferred w; mounts := mounts w; diffLevel := diffLevel w;
      recyclerComponents := recyclerComponents w; trace := trace w |}).

(** [enqueueRender]; [defer] postpones the call it is given, which is
    counted in [deferred]:
<<
  function enqueueRender(component) {
    if (!component._dirty && (component._dirty = true) && items.push(component) == 1) {
      (defer)(rerender);
    }
  }
>> *)
Definition enqueueRender (c : nat) (w : world) : world :=
  match components w !! c with
  | None => w
  | Some component =>
      if _dirty component then w
      else
        let w := with_component c (set_dirty true) w in
        let w := with_items (λ items, items ++ [c]) w in
        if Nat.eqb (length (items w)) 1 then with_deferred S w else w
  end.

(** [flushMounts]:
<<
  function flushMounts() {
    var c;
    while (c = mounts.shift()) {
      if (c.componentDidMount) c.componentDidMount();
    }
  }
>> *)
Definition flushMounts (w : world) : world :=
  with_mounts (λ _, [])
    (foldl (λ w c,
              match components w !! c with
              | Some component =>
                  if has_method componentDidMount component then emit (ComponentDidMount c) w else w
              | None => w
              end)
           w (mounts w)).

(** The constructor function [Component], run on a new object whose
    [state] is [s] so far:
<<
  function Component(props, context) {
    this._dirty = true;
    this.context = context;
    this.props = props;
    this.state = this.state || {};
    this._renderCallbacks = [];
  }
>>
    The empty state object is allocated at [a]. *)
Definition Component (Ctor : ctor) (a : nat) (s props context : value) : instance :=
  {| constructor := Ctor; _dirty := true; _disable := false;
     props := props; state := or_else s (VObj a []); context := context;
     prevProps := VUndefined; prevState := VUndefined; prevContext := VUndefined;
     base := None; nextBase := None; _component := None;
     _renderCallbacks := [] |}.

(** [createComponent]; the new instance is allocated at the next free
    address and its empty state object after it:
<<
  function createComponent(Ctor, props, context) {
    var inst,
        i = recyclerComponents.length;

    if (Ctor.prototype && Ctor.prototype.render) {
      inst = new Ctor(props, context);
      Component.call(inst, props, context);
    } else {
      inst = new Component(props, context);
      inst.constructor = Ctor;
      inst.render = doRender;
    }

    while (i--) {
      if (recyclerComponents[i].constructor === Ctor) {
        inst.nextBase = recyclerComponents[i].nextBase;
        recyclerComponents.splice(i, 1);
        return inst;
      }
    }

    return inst;
  }
>> *)
Definition same_constructor (Ctor : ctor) (component : option instance) : bool :=
  match component with
  | Some component => Nat.eqb (ctor_ref (constructor component)) (ctor_ref Ctor)
  | None => false
  end.

(** The [while (i--)] loop: the index at which it stops, if it does. *)
Fixpoint scan_pool (Ctor : ctor) (w : world) (i : nat) : option nat :=
  match i with
  | 0 => None
  | S i =>
      if same_constructor Ctor (recyclerComponents w !! i ≫= λ c, components w !! c)
      then Some i
      else scan_pool Ctor w i
  end.

Definition createComponent (Ctor : ctor) (props context : value) (w : world) : nat * world :=
  let i := length (recyclerComponents w) in
  let '(a, w) := fresh w in
  let '(inst, w) :=
    allocate (if prototype_render Ctor
              then Component Ctor a (construct_state Ctor props context) props context
              else Component Ctor a VUndefined props context) w in
  match scan_pool Ctor w i with
  | Some i =>
      let recycled := recyclerComponents w !! i ≫= λ c, components w !! c in
      let w := with_component inst (set_nextBase (recycled ≫= nextBase)) w in
      (inst, with_recyclerComponents (delete i) w)
  | None => (inst, w)
  end.

(** What [renderComponent] does with the rendered output from
<<
  var childComponent = rendered && rendered.nodeName, toUnmount, base;
>>
    to the end of the [if (!skip)] block: building or updating a nested
    component or diffing against the live tree, re-pointing [base] and
    unmounting what was replaced.  The live tree of the runtime is outside
    this model, so this step is a parameter: any transformation of the
    world, given the instance, the rendered output, the child context, the
    render mode, [mountAll], [isChild] and the values of [initialBase] and
    [initialChildComponent]. *)
Class Reconciler : Type :=
  reconcile : nat → value → value → value → bool → bool → option nat → option nat → world → world.

Section runtime.
Context `{Reconciler}.

(** The loop at the end of [renderComponent]:
<<
while (component._renderCallbacks.length) {
  component._renderCallbacks.pop().call(component);
}
>> *)
Definition runRenderCallbacks (c : nat) (w : world) : world :=
  match components w !! c with
  | None => w
  | Some component =>
      foldl (λ w callback, emit (RenderCallback c callback) w)
            (with_component c (set_renderCallbacks []) w)
            (reverse (_renderCallbacks component))
  end.

(** [renderComponent]:
<<
function renderComponent(component, renderMode, mountAll, isChild) {
  if (component._disable) return;

  var props = component.props,
      state = component.state,
      context = component.context,
      previousProps = component.prevProps || props,
      previousState = component.prevState || state,
      previousContext = component.prevContext || context,
      isUpdate = component.base,
      nextBase = component.nextBase,
      initialBase = isUpdate || nextBase,
      initialChildComponent = component._component,
      skip = false,
      snapshot = previousContext,
      rendered, inst, cbase;

  if (component.constructor.getDerivedStateFromProps) {
    state = extend(extend({}, state), component.constructor.getDerivedStateFromProps(props, state));
    component.state = state;
  }

  if (isUpdate) {
    component.props = previousProps;
    component.state = previousState;
    component.context = previousContext;
    if (renderMode !== 2 && component.shouldComponentUpdate
        && component.shouldComponentUpdate(props, state, context) === false) {
      skip = true;
    } else if (component.componentWillUpdate) {
      component.componentWillUpdate(props, state, context);
    }
    component.props = props;
    component.state = state;
    component.context = context;
  }

  component.prevProps = component.prevState = component.prevContext = component.nextBase = null;
  component._dirty = false;

  if (!skip) {
    rendered = component.render(props, state, context);

    if (component.getChildContext) {
      context = extend(extend({}, context), component.getChildContext());
    }

    if (isUpdate && component.getSnapshotBeforeUpdate) {
      snapshot = component.getSnapshotBeforeUpdate(previousProps, previousState);
    }
    ...
  }

  if (!isUpdate || mountAll) {
    mounts.push(component);
  } else if (!skip) {
    if (component.componentDidUpdate) {
      component.componentDidUpdate(previousProps, previousState, snapshot);
    }
  }

  while (component._renderCallbacks.length) {
    component._renderCallbacks.pop().call(component);
  }if (!diffLevel && !isChild) flushMounts();
}
>>
    The instance carries its previous props, state and context only
    while the two hooks of the [isUpdate] block run, which hooks that are
    observed as events cannot see. *)
Definition derive_state (c : nat) (component : instance) (w : world) : value * world :=
  match getDerivedStateFromProps (constructor component) with
  | Some derive =>
      let '(a, w) := fresh w in
      (extend_copy a (state component) (derive (props component) (state component)),
       emit (GetDerivedStateFromProps c) w)
  | None => (state component, w)
  end.

(** The [if (isUpdate)] block: whether to skip, and the hooks called. *)
Definition should_skip (c : nat) (component : instance) (renderMode state : value) (w : world)
    : bool * world :=
  match base component with
  | None => (false, w)
  | Some _ =>
      match (if strict_neq renderMode (VNum 2) then method shouldComponentUpdate component
             else None) with
      | Some should =>
          if strict_eq (should (props component) state (context component)) (VBool false)
          then (true, emit (ShouldComponentUpdate c) w)
          else (false,
                let w := emit (ShouldComponentUpdate c) w in
                if has_method componentWillUpdate component
                then emit (ComponentWillUpdate c) w else w)
      | None =>
          (false,
           if has_method componentWillUpdate component
           then emit (ComponentWillUpdate c) w else w)
      end
  end.

(** The [if (!skip)] block. *)
Definition render_and_reconcile (c : nat) (component : instance)
    (renderMode state : value) (mountAll isChild : bool) (w : world) : world :=
  let rendered := render_method (constructor component) (props component) state (context component) in
  let w := emit (Render c) w in
  let '(context, w) :=
    match method getChildContext component with
    | Some child =>
        let '(a, w) := fresh w in
        (extend_copy a (context component) child, emit (GetChildContext c) w)
    | None => (context component, w)
    end in
  let w :=
    match base component, method getSnapshotBeforeUpdate component with
    | Some _, Some _ => emit (GetSnapshotBeforeUpdate c) w
    | _, _ => w
    end in
  reconcile c rendered context renderMode mountAll isChild
            (match base component with Some b => Some b | None => nextBase component end)
            (_component component) w.

Definition renderComponent (c : nat) (renderMode : value) (mountAll isChild : bool) (w : world)
    : world :=
  match components w !! c with
  | None => w
  | Some component =>
      if _disable component then w
      else
        let '(state, w) := derive_state c component w in
        let '(skip, w) := should_skip c component renderMode state w in
        let w := with_component c (settle state) w in
        let w :=
          if skip then w
          else render_and_reconcile c component renderMode state mountAll isChild w in
        let w :=
          if negb (bool_decide (is_Some (base component))) || mountAll
          then with_mounts (λ mounts, mounts ++ [c]) w
          else if negb skip && has_method componentDidUpdate component
          then emit (ComponentDidUpdate c) w
          else w in
        let w := runRenderCallbacks c w in
        if Nat.eqb (diffLevel w) 0 && negb isChild then flushMounts w else w
  end.

(** [setState] for a [state] argument that is not a function, and
    [forceUpdate]; an updater function is user code, which the model
    does not run:
<<
setState: function setState(state, callback) {
  if (!this.prevState) this.prevState = this.state;
  this.state = extend(extend({}, this.state), typeof state === 'function' ? state(this.state, this.props) : state);
  if (callback) this._renderCallbacks.push(callback);
  enqueueRender(this);
},
forceUpdate: function forceUpdate(callback) {
  if (callback) this._renderCallbacks.push(callback);
  renderComponent(this, 2);
},
>> *)
Definition push_callback (callback : value) (component : instance) : instance :=
  if truthy callback
  then set_renderCallbacks (_renderCallbacks component ++ [callback]) component
  else component.

Definition setState (c : nat) (partial callback : value) (w : world) : world :=
  let '(a, w) := fresh w in
  let w :=
    with_component c
      (λ this,
         let this := if truthy (prevState this) then this else set_prevState (state this) this in
         push_callback callback (set_state (extend_copy a (state this) partial) this))
      w in
  enqueueRender c w.

Definition forceUpdate (c : nat) (callback : value) (w : world) : world :=
  renderComponent c (VNum 2) false false (with_component c (push_callback callback) w).
End runtime.


(** ** A concrete document *)

(** A document that accepts the ASCII names of XML: a letter, [_] or [:],
    followed by letters, digits, [-], [_], [.] and [:]. *)
Definition name_start (c : Ascii.ascii) : bool :=
  let n := Ascii.nat_of_ascii c in
  (Nat.leb 65 n && Nat.leb n 90) || (Nat.leb 97 n && Nat.leb n 122)
  || Nat.eqb n 95 || Nat.eqb n 58.

Definition name_char (c : Ascii.ascii) : bool :=
  let n := Ascii.nat_of_ascii c in
  name_start c || (Nat.leb 48 n && Nat.leb n 57) || Nat.eqb n 45 || Nat.eqb n 46.

Definition xml_name (s : string) : bool :=
  match s with
  | EmptyString => false
  | String c s => name_start c && forallb name_char (String.list_ascii_of_string s)
  end.

Definition html : Document :=
  {| valid_element_name := xml_name; valid_attribute_name := xml_name |}.

(** ** Vocabulary of the statements *)

(** The attributes and the listeners [createDomElement] reads off an
    attribute mapping: a callable value is a listener, any other value
    that is not null or undefined is a plain attribute. *)
Definition plain_attribute (kv : string * value) : Prop :=
  nullish kv.2 = false ∧ typeof kv.2 ≠ "function".

Definition listener_attribute (kv : string * value) : Prop :=
  typeof kv.2 = "function".

#[global] Instance plain_attribute_dec kv : Decision (plain_attribute kv).
Proof. unfold plain_attribute. apply _. Defined.

#[global] Instance listener_attribute_dec kv : Decision (listener_attribute kv).
Proof. unfold listener_attribute. apply _. Defined.

(** A node is settled when [diff] can walk it without meeting an absent
    node or a value that differs from itself: it is not null, undefined or
    [NaN], its [type] is not [NaN], and if its [tagName] is truthy its
    children are an array of settled nodes. *)
Inductive settled : value → Prop :=
  | settled_leaf node :
      nullish node = false →
      node ≠ VNaN →
      prop node "type" ≠ VNaN →
      truthy (prop node "tagName") = false →
      settled node
  | settled_element node ref children :
      nullish node = false →
      prop node "type" ≠ VNaN →
      truthy (prop node "tagName") = true →
      prop node "children" = VArr ref children →
      (∀ c, c ∈ children → settled c) →
      settled node.

(** [q'] has the children of [q] except at position [i], and possibly
    more after them. *)
Definition kept_except (i : nat) (q q' : dom) : Prop :=
  length (childNodes q) ≤ length (childNodes q')
  ∧ ∀ k, k ≠ i → k < length (childNodes q) → childNodes q' !! k = childNodes q !! k.

(** The dirty queue is in order when it holds no instance twice and every
    instance it holds has its dirty flag set. *)
Definition queue_ok (w : world) : Prop :=
  NoDup (items w)
  ∧ ∀ c, c ∈ items w → ∃ component, components w !! c = Some component ∧ _dirty component = true.

(** The addresses in use are below the next free one. *)
Definition store_ok (w : world) : Prop :=
  (∀ c, is_Some (components w !! c) → c < next_ref w)
  ∧ (∀ c, c ∈ recyclerComponents w → c < next_ref w).

(** ** Concrete components *)

(** A class component without optional hooks whose constructor assigns no
    state. *)
Definition plain_class (ref : nat) : ctor :=
  {| ctor_ref := ref; prototype_render := true;
     construct_state := λ _ _, VUndefined;
     render_method := λ _ _ _, VNull;
     getDerivedStateFromProps := None;
     shouldComponentUpdate := None;
     componentWillUpdate := false;
     getChildContext := None;
     getSnapshotBeforeUpdate := None;
     componentDidUpdate := false;
     componentDidMount := false |}.

(** A class component that declines every update and has the other
    update hooks. *)
Definition frozen_class (ref : nat) : ctor :=
  {| ctor_ref := ref; prototype_render := true;
     construct_state := λ _ _, VUndefined;
     render_method := λ _ _ _, VNull;
     getDerivedStateFromProps := None;
     shouldComponentUpdate := Some (λ _ _ _, VBool false);
     componentWillUpdate := true;
     getChildContext := None;
     getSnapshotBeforeUpdate := None;
     componentDidUpdate := true;
     componentDidMount := true |}.

(** An instance of [Ctor] that is mounted on the live node at [node] and
    has nothing pending. *)
Definition mounted_instance (Ctor : ctor) (node : nat) (s : value) (callbacks : list value) : instance :=
  {| constructor := Ctor; _dirty := false; _disable := false;
     props := VObj 0 []; state := s; context := VObj 0 [];
     prevProps := VNull; prevState := VNull; prevContext := VNull;
     base := Some node; nextBase := None; _component := None;
     _renderCallbacks := callbacks |}.

(** An instance of [Ctor] as [unmountComponent] leaves it in the recycle
    pool: disabled, without [base], its former live node in [nextBase]. *)
Definition pooled_instance (Ctor : ctor) (node : nat) (s : value) : instance :=
  {| constructor := Ctor; _dirty := false; _disable := true;
     props := VObj 0 []; state := s; context := VObj 0 [];
     prevProps := VNull; prevState := VNull; prevContext := VNull;
     base := None; nextBase := Some node; _component := None;
     _renderCallbacks := [] |}.

(** A world with the given instances and recycle pool and nothing queued. *)
Definition quiet (instances : gmap nat instance) (next : nat) (pool : list nat) : world :=
  {| components := instances; next_ref := next; items := []; deferred := 0; mounts := [];
     diffLevel := 0; recyclerComponents := pool; trace := [] |}.

(** The reconciliation of a mounted component that renders the element
    it already has: the live node stays and no instance is touched. *)
Definition in_place : Reconciler := λ _ _ _ _ _ _ _ _ w, w.

(** ** Mounting a view *)

(** [$root.prepend($child)] for a freshly created [$child]; a text node
    has no method [prepend]. *)
Definition prepend (parent child : dom) : result dom :=
  match parent with
  | Text _ => Throw TypeError
  | Element tag attrs ls children => Ok (Element tag attrs ls (child :: children))
  end.

(** What [mount] keeps in its closure: the root it renders into, the
    state and the tree rendered last. *)
Record application : Type := {
  app_root : dom;
  app_state : value;
  app_vDom : value;
}.

Section mounting.
Context `{Document}.

(** The view, as the tree it returns for a state; the handlers it puts
    into the tree are values of that tree. *)
Variable view : value → value.

(** [mount] of [puerro/util/dom.js], up to the first rendering:
<<
const mount = ($root, view, initialState, useDiffing = true) => {
  let state = initialState;
  const getState = () => state;

  const setState = newState => {
    state = { ...state, ...newState };
    const newVDom = view(getState, setState);
    if (useDiffing) {
      diff($root, vDom, newVDom);
    } else {
      $root.replaceChild(render(newVDom), $root.firstChild);
    }
    vDom = newVDom;
  };

  let vDom = view(getState, setState);
  if ($root.firstChild) {
    $root.replaceChild(render(vDom), $root.firstChild);
  } else {
    $root.appendChild(render(vDom));
  }
};
>> *)
Definition mount (root : dom) (initialState : value) : result application :=
  let vDom := view initialState in
  root' ← match childNodes root !! 0 with
           | Some _ => new ← render vDom; replaceChildAt root new 0
           | None => new ← render vDom; appendChild root new
           end;
  Ok {| app_root := root'; app_state := initialState; app_vDom := vDom |}.

(** The [setState] that [mount] hands to the view; the merged state
    object is allocated at [a].  [diff] mutates [$root] in place, so the
    root afterwards is the node [diff] was given. *)
Definition mount_setState (useDiffing : bool) (a : nat) (newState : value) (this : application)
    : result application :=
  let state := extend_copy a (app_state this) newState in
  let newVDom := view state in
  root' ← (if useDiffing
           then '(root', _) ← diff (Some (app_root this)) (app_vDom this) newVDom 0;
                Ok (default (app_root this) root')
           else new ← render newVDom; replaceChildAt (app_root this) new 0);
  Ok {| app_root := root'; app_state := state; app_vDom := newVDom |}.

(** [mountWithActions] of [puerro/util/dom.js]: the same first rendering,
    and [act] in place of [setState]; [event] is the global the action is
    handed.
<<
const mountWithActions = ($root, view, initialState) => {
  let state = initialState;
  const getState = () => state;

  const refresh =() => {
    const newVDom = view(getState, act);
    diff($root, vDom, newVDom);
    vDom = newVDom;
  }

  const act = (action) => {
    state = action(state, event) || state;
    refresh();
  }
  ...
}
>> *)
Definition act (event : value) (action : value → value → value) (this : application) : result application :=
  let state := or_else (action (app_state this) event) (app_state this) in
  let newVDom := view state in
  '(root', _) ← diff (Some (app_root this)) (app_vDom this) newVDom 0;
  Ok {| app_root := default (app_root this) root'; app_state := state; app_vDom := newVDom |}.

(** [mount] of the bundled diffing demo, which prepends its first
    rendering and whose [setState] also takes an updater (a function of
    the state, here [inl]) in place of a partial state ([inr]):
<<
const mount = ($root, view, state, diffing = true) => {
  let vDom = view({ state, setState });
  $root.prepend(render(vDom));

  function setState(newState) {
    if (typeof newState === 'function') {
      state = newState(state) || state;
    } else {
      state = { ...state, ...newState };
    }
    refresh();
  }

  function refresh() {
    const newVDom = view({ state, setState });
    if (diffing) {
      diff($root, newVDom, vDom);
    } else {
      $root.replaceChild(render(newVDom), $root.firstChild);
    }
    vDom = newVDom;
  }
};
>> *)
Definition mount_prepend (root : dom) (state : value) : result application :=
  let vDom := view state in
  new ← render vDom;
  root' ← prepend root new;
  Ok {| app_root := root'; app_state := state; app_vDom := vDom |}.

Definition refresh (diffing : bool) (state : value) (this : application) : result application :=
  let newVDom := view state in
  root' ← (if diffing
           then '(root', _) ← diff (Some (app_root this)) (app_vDom this) newVDom 0;
                Ok (default (app_root this) root')
           else new ← render newVDom; replaceChildAt (app_root this) new 0);
  Ok {| app_root := root'; app_state := state; app_vDom := newVDom |}.

Definition update_state (diffing : bool) (a : nat) (newState : (value → value) + value)
    (this : application) : result application :=
  refresh diffing
    match newState with
    | inl updater => or_else (updater (app_state this)) (app_state this)
    | inr partial => extend_copy a (app_state this) partial
    end
    this.

(** Pairs of trees that [diff] patches by replacing, by descending with
    the live tree in step, or by appending: the pair is reported changed;
    or it is a pair of texts reported unchanged; or it is a pair of
    elements reported unchanged that render to the same element without
    children, where every old child has a new child at its place, the two
    being again such a pair.  New children past the old ones are free. *)
Inductive patchable : value → value → Prop :=
  | patchable_changed old new :
      nullish old = false → nullish new = false →
      changed old new = Ok true →
      patchable old new
  | patchable_text old new :
      nullish old = false →
      typeof new = "string" ∨ typeof new = "number" →
      changed old new = Ok false →
      patchable old new
  | patchable_element old new ro olds rn news :
      nullish old = false → nullish new = false →
      changed old new = Ok false →
      truthy (prop new "tagName") = true →
      createDomElement (prop old "tagName") (prop old "attributes")
      = createDomElement (prop new "tagName") (prop new "attributes") →
      prop old "children" = VArr ro olds →
      prop new "children" = VArr rn news →
      length olds ≤ length news →
      (∀ i o n, olds !! i = Some o → news !! i = Some n → patchable o n) →
      patchable old new.

(** The live tree shows the tree rendered last: the first child of the
    root is its rendering. *)
Definition shows (this : application) : Prop :=
  ∃ d, render (app_vDom this) = Ok d ∧ childNodes (app_root this) !! 0 = Some d.
End mounting.


(** ** Property names *)

(** The names of the indexed properties of arrays and strings are made of
    decimal digits. *)
Definition digit (c : Ascii.ascii) : bool :=
  let n := Ascii.nat_of_ascii c in Nat.leb 48 n && Nat.leb n 57.

Definition all_digits (s : string) : bool :=
  forallb digit (String.list_ascii_of_string s).

(** A view that shows the [count] of the state in a paragraph; the tree
    for the state object at [a] is allocated from [10 * a] on. *)
Definition counter_view (s : value) : value :=
  h (match s with VObj a _ => 10 * a | _ => 0 end) (VStr "p") VUndefined [prop s "count"].

(** ** Observables *)

(** The callbacks handed to an observable are functions, known by their
    address.  As with the hooks of components they are observed, not
    executed: every call is recorded with its arguments, and a callback
    returns normally without calling back into the observable. *)
Definition call : Type := nat * list value.

(** [Observable]:
<<
const Observable = item => {
  const listeners = [];
  return {
    get: () => item,
    set: newItem => {
      if (item === newItem) return;
      const oldItem = item;
      item = newItem;
      listeners.forEach(notify => notify(newItem, oldItem));
    },
    onChange: callback => {
      listeners.push(callback);
      callback(item, item);
    },
  };
};
>> *)
Record observable : Type := {
  obs_item : value;
  obs_listeners : list nat;
  obs_calls : list call;
}.

Definition Observable (item : value) : observable :=
  {| obs_item := item; obs_listeners := []; obs_calls := [] |}.

Definition Observable_get (o : observable) : value := obs_item o.

Definition Observable_set (newItem : value) (o : observable) : observable :=
  if strict_eq (obs_item o) newItem then o
  else
    let oldItem := obs_item o in
    {| obs_item := newItem; obs_listeners := obs_listeners o;
       obs_calls := obs_calls o ++ ((λ notify, (notify, [newItem; oldItem])) <$> obs_listeners o) |}.

Definition Observable_onChange (callback : nat) (o : observable) : observable :=
  {| obs_item := obs_item o; obs_listeners := obs_listeners o ++ [callback];
     obs_calls := obs_calls o ++ [(callback, [obs_item o; obs_item o])] |}.

(** What a client does with an observable, and a run of such steps. *)
Inductive observable_step : Type :=
  | SetItem (newItem : value)
  | OnChange (callback : nat).

Definition Observable_step (o : observable) (s : observable_step) : observable :=
  match s with
  | SetItem newItem => Observable_set newItem o
  | OnChange callback => Observable_onChange callback o
  end.

(** The calls made to one callback, oldest first. *)
Definition calls_of (callback : nat) (calls : list call) : list (list value) :=
  snd <$> filter (λ c, c.1 = callback) calls.

(** [ObservableList]; the array handed in is the one the list works on:
<<
const ObservableList = list => {
  const addListeners     = [];
  const removeListeners  = [];
  const replaceListeners = [];
  return {
    onAdd:     listener => addListeners    .push(listener),
    onRemove:  listener => removeListeners .push(listener),
    onReplace: listener => replaceListeners.push(listener),
    add: item => {
      list.push(item);
      addListeners.forEach(listener => listener(item));
    },
    remove: item => {
      const i = list.indexOf(item);
      if (i >= 0) {
        list.splice(i, 1);
      } // essentially "remove(item)"
      removeListeners.forEach(listener => listener(item));
    },
    replace: (item, newItem) => {
      const i = list.indexOf(item);
      if (i >= 0) {
        list[i] = newItem;
      }
      replaceListeners.forEach(listener => listener(newItem, item));
    },
    count:   ()    => list.length,
    countIf: pred  => list.reduce((sum, item) => (pred(item) ? sum + 1 : sum), 0),
    indexOf: item  => list.indexOf(item),
    get:     index => list[index],
    getAll:  ()    => list,
  };
};
>> *)
Record observable_list : Type := {
  ol_list : list value;
  ol_addListeners : list nat;
  ol_removeListeners : list nat;
  ol_replaceListeners : list nat;
  ol_calls : list call;
}.

Definition ObservableList (list : list value) : observable_list :=
  {| ol_list := list; ol_addListeners := []; ol_removeListeners := [];
     ol_replaceListeners := []; ol_calls := [] |}.

(** [list.indexOf(item)]: the first index whose element is strictly equal
    to [item], or [-1]. *)
Fixpoint indexOf_from (i : nat) (item : value) (list : list value) : Z :=
  match list with
  | [] => -1
  | x :: list => if strict_eq x item then Z.of_nat i else indexOf_from (S i) item list
  end.

Definition indexOf (item : value) (list : list value) : Z := indexOf_from 0 item list.

Definition ObservableList_onAdd (listener : nat) (o : observable_list) : observable_list :=
  {| ol_list := ol_list o; ol_addListeners := ol_addListeners o ++ [listener];
     ol_removeListeners := ol_removeListeners o; ol_replaceListeners := ol_replaceListeners o;
     ol_calls := ol_calls o |}.

Definition ObservableList_onRemove (listener : nat) (o : observable_list) : observable_list :=
  {| ol_list := ol_list o; ol_addListeners := ol_addListeners o;
     ol_removeListeners := ol_removeListeners o ++ [listener];
     ol_replaceListeners := ol_replaceListeners o; ol_calls := ol_calls o |}.

Definition ObservableList_onReplace (listener : nat) (o : observable_list) : observable_list :=
  {| ol_list := ol_list o; ol_addListeners := ol_addListeners o;
     ol_removeListeners := ol_removeListeners o;
     ol_replaceListeners := ol_replaceListeners o ++ [listener]; ol_calls := ol_calls o |}.

Definition ObservableList_add (item : value) (o : observable_list) : observable_list :=
  {| ol_list := ol_list o ++ [item]; ol_addListeners := ol_addListeners o;
     ol_removeListeners := ol_removeListeners o; ol_replaceListeners := ol_replaceListeners o;
     ol_calls := ol_calls o ++ ((λ listener, (listener, [item])) <$> ol_addListeners o) |}.

Definition ObservableList_remove (item : value) (o : observable_list) : observable_list :=
  let i := indexOf item (ol_list o) in
  {| ol_list := if (0 <=? i)%Z then delete (Z.to_nat i) (ol_list o) else ol_list o;
     ol_addListeners := ol_addListeners o;
     ol_removeListeners := ol_removeListeners o; ol_replaceListeners := ol_replaceListeners o;
     ol_calls := ol_calls o ++ ((λ listener, (listener, [item])) <$> ol_removeListeners o) |}.

Definition ObservableList_replace (item newItem : value) (o : observable_list) : observable_list :=
  let i := indexOf item (ol_list o) in
  {| ol_list := if (0 <=? i)%Z then <[Z.to_nat i := newItem]> (ol_list o) else ol_list o;
     ol_addListeners := ol_addListeners o;
     ol_removeListeners := ol_removeListeners o; ol_replaceListeners := ol_replaceListeners o;
     ol_calls := ol_calls o
                 ++ ((λ listener, (listener, [newItem; item])) <$> ol_replaceListeners o) |}.

Definition ObservableList_count (o : observable_list) : nat := length (ol_list o).

(** [pred] is given by the value it returns for an item. *)
Definition ObservableList_countIf (pred : value → value) (o : observable_list) : nat :=
  foldl (λ sum item, if truthy (pred item) then sum + 1 else sum) 0 (ol_list o).

Definition ObservableList_indexOf (item : value) (o : observable_list) : Z :=
  indexOf item (ol_list o).

(** [list[index]] for an index that is a natural number. *)
Definition ObservableList_get (index : nat) (o : observable_list) : value :=
  default VUndefined (ol_list o !! index).

Definition ObservableList_getAll (o : observable_list) : list value := ol_list o.

(** [ObservableObject]; every object literal of the source is a fresh
    object, whose address the operation is given:
<<
const ObservableObject = object => {
  const listeners   = [];
  const subscribers = {};

  const notify = newObject => {
    if (object == newObject) return;
    const oldObject = object;
    object = newObject;

    Object.keys(newObject).forEach(key => {
      const newValue = newObject[key];
      const oldValue = oldObject[key];
      if (oldValue === newValue) return;
      (subscribers[key] || []).forEach(subscriber => subscriber(newValue, oldValue));
    });
    listeners.forEach(listener => listener(newObject, oldObject));
  };

  return {
    get:       ()              => object,
    set:       newObject       => notify({ ...object, ...newObject }),
    push:      (key, value)    => notify({ ...object, ...{ [key]: value } }),
    remove:    key             => notify({ ...object, ...{ [key]: undefined } }),
    replace:   newObject       => {
      const emptyObject = Object.assign({}, object);
      Object.keys(emptyObject).forEach(key => emptyObject[key] = undefined);
      notify({ ...emptyObject, ...newObject});
    },
    onChange:  callback        => { listeners.push(callback); callback(object, object); },
    subscribe: (key, callback) => {
      subscribers[key] = subscribers[key] || [];
      subscribers[key].push(callback);
      callback(object[key], object[key]);
    },
  };
};
>>
    Keys are strings that do not name a member of [Object.prototype], as
    for every property read of this model. *)
Record observable_object : Type := {
  oo_object : value;
  oo_listeners : list nat;
  oo_subscribers : gmap string (list nat);
  oo_calls : list call;
}.

Definition ObservableObject (object : value) : observable_object :=
  {| oo_object := object; oo_listeners := []; oo_subscribers := ∅; oo_calls := [] |}.

(** [v == o] for an object [o]: a reference is equal to itself only, a
    string to the string the object converts to, and no other primitive
    is equal to an object. *)
Definition loose_eq_object (v o : value) : bool :=
  match v with
  | VStr s => String.eqb s (toString o)
  | VFun _ _ | VArr _ _ | VObj _ _ => strict_eq v o
  | _ => false
  end.

(** The [forEach] over the keys of the new object in [notify]: the calls
    made, and the exception that ended the loop if one did. *)
Fixpoint notify_keys (oldObject newObject : value) (subscribers : gmap string (list nat))
    (keys : list string) (calls : list call) : list call * option exn :=
  match keys with
  | [] => (calls, None)
  | key :: keys =>
      let newValue := prop newObject key in
      match get oldObject key with
      | Throw e => (calls, Some e)
      | Ok oldValue =>
          notify_keys oldObject newObject subscribers keys
            (if strict_eq oldValue newValue then calls
             else calls ++ ((λ subscriber, (subscriber, [newValue; oldValue]))
                              <$> default [] (subscribers !! key)))
      end
  end.

(** [notify]: the observable afterwards, and the exception thrown if any. *)
Definition ObservableObject_notify (newObject : value) (o : observable_object)
    : observable_object * option exn :=
  if loose_eq_object (oo_object o) newObject then (o, None)
  else
    let oldObject := oo_object o in
    let '(calls, thrown) :=
      notify_keys oldObject newObject (oo_subscribers o) (own_keys newObject) (oo_calls o) in
    match thrown with
    | Some e =>
        ({| oo_object := newObject; oo_listeners := oo_listeners o;
            oo_subscribers := oo_subscribers o; oo_calls := calls |}, Some e)
    | None =>
        ({| oo_object := newObject; oo_listeners := oo_listeners o;
            oo_subscribers := oo_subscribers o;
            oo_calls := calls ++ ((λ listener, (listener, [newObject; oldObject]))
                                    <$> oo_listeners o) |}, None)
    end.

Definition ObservableObject_get (o : observable_object) : value := oo_object o.

(** The merged object is allocated at [a], the object literal merged into
    it at [a + 1]. *)
Definition ObservableObject_set (a : nat) (newObject : value) (o : observable_object)
    : observable_object * option exn :=
  ObservableObject_notify (extend_copy a (oo_object o) newObject) o.

Definition ObservableObject_push (a : nat) (key : string) (v : value) (o : observable_object)
    : observable_object * option exn :=
  ObservableObject_notify (extend_copy a (oo_object o) (VObj (a + 1) [(key, v)])) o.

Definition ObservableObject_remove (a : nat) (key : string) (o : observable_object)
    : observable_object * option exn :=
  ObservableObject_notify (extend_copy a (oo_object o) (VObj (a + 1) [(key, VUndefined)])) o.

Definition ObservableObject_replace (a : nat) (newObject : value) (o : observable_object)
    : observable_object * option exn :=
  let emptyObject :=
    VObj (a + 1) ((λ kv, (kv.1, VUndefined))
                    <$> entries (extend_copy (a + 1) (VObj (a + 1) []) (oo_object o))) in
  ObservableObject_notify (extend_copy a emptyObject newObject) o.

Definition ObservableObject_onChange (callback : nat) (o : observable_object)
    : observable_object :=
  {| oo_object := oo_object o; oo_listeners := oo_listeners o ++ [callback];
     oo_subscribers := oo_subscribers o;
     oo_calls := oo_calls o ++ [(callback, [oo_object o; oo_object o])] |}.

Definition ObservableObject_subscribe (key : string) (callback : nat) (o : observable_object)
    : observable_object * option exn :=
  let subscribers :=
    <[key := default [] (oo_subscribers o !! key) ++ [callback]]> (oo_subscribers o) in
  match get (oo_object o) key with
  | Throw e =>
      ({| oo_object := oo_object o; oo_listeners := oo_listeners o;
          oo_subscribers := subscribers; oo_calls := oo_calls o |}, Some e)
  | Ok v =>
      ({| oo_object := oo_object o; oo_listeners := oo_listeners o;
          oo_subscribers := subscribers; oo_calls := oo_calls o ++ [(callback, [v; v])] |}, None)
  end.

(** ** Flushing the dirty queue *)

Section scheduling.
Context `{Reconciler}.

(** [rerender], with a budget for the rounds of its loop, since a
    reconciliation step may queue instances:
<<
function rerender() {
  var p;
  while (p = items.pop()) {
    if (p._dirty) renderComponent(p);
  }
}
>>
    [None] stands for a loop that outlasts the budget. *)
Fixpoint rerender (fuel : nat) (w : world) : option world :=
  match fuel with
  | 0 => None
  | S fuel =>
      match last (items w) with
      | None => Some w
      | Some p =>
          let w := with_items (λ items, take (length items - 1) items) w in
          rerender fuel
            match components w !! p with
            | Some component =>
                if _dirty component then renderComponent p VUndefined false false w else w
            | None => w
            end
      end
  end.

(** A reconciliation step keeps to the live tree when it leaves the
    dirty queue and the [_dirty] and [_disable] flags of every instance
    as they are. *)
Definition keeps_flags : Prop :=
  ∀ c rendered context mode mountAll isChild initialBase initialChildComponent w c',
    items (reconcile c rendered context mode mountAll isChild initialBase
             initialChildComponent w) = items w
    ∧ (λ component, (_dirty component, _disable component))
        <$> (components (reconcile c rendered context mode mountAll isChild initialBase
                           initialChildComponent w) !! c')
      = (λ component, (_dirty component, _disable component)) <$> (components w !! c').
End scheduling.

(** A flush is pending whenever an instance is queued. *)
Definition flush_pending (w : world) : Prop := items w ≠ [] → 0 < deferred w.

(** The [_dirty] and [_disable] flags of the instance at [c], if any. *)
Definition flags (w : world) (c : nat) : option (bool * bool) :=
  (λ component, (_dirty component, _disable component)) <$> (components w !! c).

Section tracing.
Context `{Reconciler}.

(** A reconciliation step only adds to the record of the calls made. *)
Definition extends_trace : Prop :=
  ∀ c rendered context mode mountAll isChild initialBase initialChildComponent w,
    ∃ more, trace (reconcile c rendered context mode mountAll isChild initialBase
                     initialChildComponent w) = trace w ++ more.
End tracing.

(** ** Props of a component node *)

(** [getNodeProps], for a node whose [nodeName] is a component with the
    given [defaultProps]; the props object is allocated at [a]:
<<
function getNodeProps(vnode) {
  var props = extend({}, vnode.attributes);
  props.children = vnode.children;

  var defaultProps = vnode.nodeName.defaultProps;
  if (defaultProps !== undefined) {
    for (var i in defaultProps) {
      if (props[i] === undefined) {
        props[i] = defaultProps[i];
      }
    }
  }

  return props;
}
>> *)
Definition getNodeProps (a : nat) (vnode defaultProps : value) : result value :=
  attributes ← get vnode "attributes";
  children ← get vnode "children";
  let props := set_field "children" children (entries (extend_copy a (VObj a []) attributes)) in
  Ok (VObj a
        (if strict_neq defaultProps VUndefined
         then foldl (λ props kv,
                       if strict_eq (prop (VObj a props) kv.1) VUndefined
                       then set_field kv.1 kv.2 props
                       else props)
                    props (entries defaultProps)
         else props)).

(** ** The test harness *)

(** [Assert], as the results it collects in [ok]; what it writes to the
    console is left out:
<<
function Assert() {
  const ok = [];

  const assert = (actual, expected, result)=> {
    if (!result) {
      console.log(`expected "${expected}" but was "${actual}"`);
      try {
        throw Error();
      } catch (err) {
        console.log(err);
      }
    }
    ok.push(result);
  };

  return {
    getOk: () => ok,
    is: (actual, expected) => assert(actual, expected, actual === expected),
    objectIs: (actual, expected) =>
      assert(actual, expected,
        Object.entries(actual).toString() === Object.entries(expected).toString()
      ),
    true: cond => ok.push(cond),
  };
}
>> *)
Definition Assert_is (actual expected : value) (ok : list value) : list value :=
  ok ++ [VBool (strict_eq actual expected)].

(** [Object.entries(v).toString()] for [v] not null or undefined. *)
Definition entries_string (v : value) : string :=
  toString (VArr 0 ((λ kv, VArr 0 [VStr kv.1; kv.2]) <$> entries v)).

Definition Assert_objectIs (actual expected : value) (ok : list value) : result (list value) :=
  if nullish actual || nullish expected then Throw TypeError
  else Ok (ok ++ [VBool (String.eqb (entries_string actual) (entries_string expected))]).

Definition Assert_true (cond : value) (ok : list value) : list value := ok ++ [cond].

(** [report], as the colour it gives the line and the number of passed
    tests it prints before the number of all tests:
<<
function report(origin, ok) {
  const style = `
    color: ${ok.every(elem => elem) ? 'green' : 'red'};
    padding-left: 20px;
  `;
  const $report = createDomElement('div', { style },`
    ${ok.filter(elem => elem).length}/${ok.length} Tests in ${origin} ok.
  `);
  document.body.appendChild($report);
}
>> *)
Definition report_color (ok : list value) : string :=
  if forallb truthy ok then "green" else "red".

Definition report_passed (ok : list value) : nat :=
  length (filter (λ elem, truthy elem = true) ok).

Definition report_total (ok : list value) : nat := length ok.

(** Whether the instance at [c] has a [componentDidMount] to call. *)
Definition has_componentDidMount (w : world) (c : nat) : bool :=
  match components w !! c with
  | Some component => has_method componentDidMount component
  | None => false
  end.

(** ** Where the embedding is exact *)

(** The model prints a number as its decimal numeral, which is what
    JavaScript prints for the integers up to [Number.MAX_SAFE_INTEGER] in
    magnitude, and it converts an object to ["[object Object]"], which is
    what JavaScript does for an object that has no [toString] or
    [valueOf] of its own.  A value has a plain string form when its
    conversion to a string meets only such numbers and such objects. *)
Fixpoint plain_string (v : value) : bool :=
  match v with
  | VNum n => (Z.abs n <=? 9007199254740991)%Z
  | VArr _ items => forallb plain_string items
  | VObj _ fields =>
      negb (existsb (λ kv, String.eqb kv.1 "toString" || String.eqb kv.1 "valueOf") fields)
  | _ => true
  end.

(** The names of the members of [Object.prototype].  The program finds
    them when it reads a key that is not an own property, and writes
    through the setter of [__proto__]; own properties are all that the
    model of property reads and writes knows. *)
Definition inherited (k : string) : bool :=
  existsb (String.eqb k)
    ["constructor"; "hasOwnProperty"; "isPrototypeOf"; "propertyIsEnumerable";
     "toLocaleString"; "toString"; "valueOf"; "__proto__";
     "__defineGetter__"; "__defineSetter__"; "__lookupGetter__"; "__lookupSetter__"].

(** Keys made of digits.  JavaScript enumerates the integer-like keys of
    an object first and in ascending order, whenever they were added;
    the model keeps every key where it was added. *)
Definition integer_key (k : string) : bool :=
  negb (String.eqb k "") && all_digits k.

(** The keys on which the model of objects is exact. *)
Definition ordinary_key (k : string) : bool :=
  negb (integer_key k) && negb (inherited k).

(** Names without upper-case ASCII letters, which an HTML document takes
    as they are; it lower-cases the others. *)
Definition lower_case (s : string) : bool :=
  forallb (λ c, let n := Ascii.nat_of_ascii c in negb (Nat.leb 65 n && Nat.leb n 90))
          (String.list_ascii_of_string s).

(** A node is within the model when every value that [render] turns into
    a string has a plain string form and every name it hands to the
    document has no upper-case letter, in the node and in the children
    below it. *)
Inductive plain_node : value → Prop :=
  | plain_node_absent node :
      nullish node = true → plain_node node
  | plain_node_text node :
      typeof node = "string" ∨ typeof node = "number" →
      plain_string node = true →
      plain_node node
  | plain_node_element node ref children :
      nullish node = false →
      typeof node ≠ "string" → typeof node ≠ "number" →
      plain_string (prop node "tagName") = true →
      lower_case (toString (prop node "tagName")) = true →
      (∀ kv, kv ∈ entries (prop node "attributes") → plain_attribute kv →
             lower_case kv.1 = true ∧ plain_string kv.2 = true) →
      prop node "children" = VArr ref children →
      (∀ c, c ∈ children → plain_node c) →
      plain_node node.

(** * Properties *)

(** ** Values *)

Lemma strict_eq_eq a b : strict_eq a b = true → a = b.
Proof.
  unfold strict_eq. destruct a, b; try discriminate; intros Hd; by apply bool_decide_eq_true in Hd.
Qed.

Lemma strict_eq_refl a : a ≠ VNaN → strict_eq a a = true.
Proof.
  intros Ha. unfold strict_eq. destruct a; try done; by apply bool_decide_eq_true.
Qed.

Lemma strict_neq_normalized a b :
  normalized a ≠ normalized b → strict_neq a b = true.
Proof.
  intros Hn. unfold strict_neq. destruct (strict_eq a b) eqn:He; [|done].
  apply strict_eq_eq in He. by subst.
Qed.

Lemma field_height k fields x :
  field k fields = Some x → height x ≤ foldr (λ kv n, height kv.2 `max` n) 0 fields.
Proof.
  unfold field. induction fields as [|[k' v] fields IH]; simpl; [done|].
  destruct (String.eqb k k'); simpl.
  - intros [= ->]. lia.
  - intros Hf. specialize (IH Hf). lia.
Qed.

Lemma items_height (items : list value) c :
  c ∈ items → height c ≤ foldr (λ x n, height x `max` n) 0 items.
Proof.
  induction 1 as [|c x items _ IH]; simpl; lia.
Qed.

Lemma field_imap_height {A} (f : nat → A → string * value) k (xs : list A) x :
  (∀ i a, height (f i a).2 = 0) → field k (imap f xs) = Some x → height x = 0.
Proof.
  intros Hf. unfold field. revert f Hf. induction xs as [|a xs IH]; intros f Hf; simpl; [done|].
  destruct (String.eqb k (f 0 a).1); simpl.
  - intros [= <-]. apply Hf.
  - apply IH. intros i b. apply Hf.
Qed.

Lemma field_imap_items (f : nat → value → string * value) k (items : list value) x :
  (∀ i a, (f i a).2 = a) → field k (imap f items) = Some x → x ∈ items.
Proof.
  intros Hf. unfold field. revert f Hf. induction items as [|a items IH]; intros f Hf; simpl; [done|].
  destruct (String.eqb k (f 0 a).1); simpl.
  - intros [= <-]. rewrite Hf. left.
  - intros Hx. right. apply (IH (f ∘ S)); [|done]. intros i b. apply Hf.
Qed.

(** A property read from a value is undefined-like (of height 0) or
    strictly less nested than the value. *)
Lemma prop_height v k : height (prop v k) = 0 ∨ height (prop v k) < height v.
Proof.
  unfold prop. destruct (field k (entries v)) as [x|] eqn:Hf.
  - destruct v; simpl in Hf; try done.
    + left. eapply field_imap_height; [|exact Hf]. done.
    + right. apply field_imap_items in Hf; [|done]. apply items_height in Hf. simpl. lia.
    + right. apply field_height in Hf. simpl. lia.
  - left. destruct (String.eqb k "length"); [destruct v|]; done.
Qed.

Lemma forEach_items_height v items c :
  forEach_items v = Ok items → c ∈ items → height c < height v.
Proof.
  destruct v; try done. intros [= ->] Hc%items_height. simpl. lia.
Qed.

(** The children visited below a node are at least two levels less
    nested than the node. *)
Lemma child_height node items c :
  forEach_items (prop node "children") = Ok items → c ∈ items → S (height c) < height node.
Proof.
  intros Hi Hc. pose proof (forEach_items_height _ _ _ Hi Hc).
  destruct (prop_height node "children"); lia.
Qed.

Lemma foldM_ext {A B} (f g : A → B → result A) acc xs :
  (∀ acc x, x ∈ xs → f acc x = g acc x) → foldM f acc xs = foldM g acc xs.
Proof.
  revert acc. induction xs as [|x xs IH]; intros acc Hfg; simpl; [done|].
  rewrite Hfg by left. destruct (g acc x); simpl; [|done].
  apply IH. intros acc' y Hy. apply Hfg. by right.
Qed.

Section vdom_facts.
Context `{Document}.

Lemma render_rec_enough n m node :
  height node ≤ n → height node ≤ m → render_rec n node = render_rec m node.
Proof.
  revert m node. induction n as [|n IH]; intros m node Hn Hm.
  - destruct m as [|m]; [done|]. simpl.
    destruct (nullish node); [done|].
    destruct (_ || _); [done|].
    destruct (createDomElement _ _) as [el|]; simpl; [|done].
    destruct (forEach_items _) as [items|] eqn:Hi; simpl; [|done].
    apply foldM_ext. intros acc c Hc. pose proof (child_height _ _ _ Hi Hc). lia.
  - destruct m as [|m]; simpl.
    + destruct (nullish node); [done|].
      destruct (_ || _); [done|].
      destruct (createDomElement _ _) as [el|]; simpl; [|done].
      destruct (forEach_items _) as [items|] eqn:Hi; simpl; [|done].
      apply foldM_ext. intros acc c Hc. pose proof (child_height _ _ _ Hi Hc). lia.
    + destruct (nullish node); [done|].
      destruct (_ || _); [done|].
      destruct (createDomElement _ _) as [el|]; simpl; [|done].
      destruct (forEach_items _) as [items|] eqn:Hi; simpl; [|done].
      apply foldM_ext. intros acc c Hc. pose proof (child_height _ _ _ Hi Hc).
      rewrite (IH m c) by lia. done.
Qed.

(** [render] satisfies the defining equation of the source function. *)
Lemma render_unfold node :
  render node =
    if nullish node then Ok (createTextNode (VStr ""))
    else if String.eqb (typeof node) "string" || String.eqb (typeof node) "number"
    then Ok (createTextNode node)
    else
      el ← createDomElement (prop node "tagName") (prop node "attributes");
      children ← forEach_items (prop node "children");
      foldM (λ el c, r ← render c; appendChild el r) el children.
Proof.
  unfold render. destruct (height node) as [|n] eqn:Hh; simpl.
  - destruct (nullish node); [done|].
    destruct (_ || _); [done|].
    destruct (createDomElement _ _) as [el|]; simpl; [|done].
    destruct (forEach_items _) as [items|] eqn:Hi; simpl; [|done].
    apply foldM_ext. intros acc c Hc. pose proof (child_height _ _ _ Hi Hc). lia.
  - destruct (nullish node); [done|].
    destruct (_ || _); [done|].
    destruct (createDomElement _ _) as [el|]; simpl; [|done].
    destruct (forEach_items _) as [items|] eqn:Hi; simpl; [|done].
    apply foldM_ext. intros acc c Hc. pose proof (child_height _ _ _ Hi Hc).
    rewrite (render_rec_enough n (height c) c) by lia. done.
Qed.

Lemma diff_child_ext recur1 recur2 oldNode index st newNode :
  (∀ parent oldChild i, recur1 parent oldChild newNode i = recur2 parent oldChild newNode i) →
  diff_child recur1 oldNode index st newNode = diff_child recur2 oldNode index st newNode.
Proof.
  intros Hr. destruct st as [parent [log i]]. unfold diff_child.
  destruct (deref parent); simpl; [|done].
  destruct (get oldNode "children"); simpl; [|done].
  destruct (get _ (pretty i)); simpl; [|done].
  by rewrite Hr.
Qed.

Lemma diff_rec_enough n m parent oldNode newNode index :
  height newNode ≤ n → height newNode ≤ m →
  diff_rec n parent oldNode newNode index = diff_rec m parent oldNode newNode index.
Proof.
  revert m parent oldNode newNode index.
  induction n as [|n IH]; intros m parent oldNode newNode index Hn Hm;
    destruct m as [|m]; simpl; try done;
    (destruct (nullish oldNode); [done|]);
    (destruct (nullish newNode); [done|]);
    (destruct (changed oldNode newNode) as [[]|]; simpl; [done| |done]);
    (destruct (truthy _); [|done]);
    (destruct (forEach_items _) as [items|] eqn:Hi; simpl; [|done]);
    (erewrite foldM_ext; [reflexivity|]);
    intros acc c Hc; pose proof (child_height _ _ _ Hi Hc);
    apply diff_child_ext; intros parent' oldChild i; try lia.
  apply IH; lia.
Qed.

(** [diff] satisfies the defining equation of the source function. *)
Lemma diff_unfold parent oldNode newNode index :
  diff parent oldNode newNode index =
    if nullish oldNode then diff_append parent newNode
    else if nullish newNode then diff_remove parent index
    else
      c ← changed oldNode newNode;
      if c : bool then diff_replace parent newNode index
      else if truthy (prop newNode "tagName") then
        children ← forEach_items (prop newNode "children");
        '(parent', (log, _)) ←
          foldM (diff_child diff oldNode index) (parent, ([], 0)) children;
        Ok (parent', log)
      else Ok (parent, []).
Proof.
  unfold diff at 1. destruct (height newNode) as [|n] eqn:Hh; simpl;
    (destruct (nullish oldNode); [done|]);
    (destruct (nullish newNode); [done|]);
    (destruct (changed oldNode newNode) as [[]|]; simpl; [done| |done]);
    (destruct (truthy _); [|done]);
    (destruct (forEach_items _) as [items|] eqn:Hi; simpl; [|done]);
    (erewrite foldM_ext; [reflexivity|]);
    intros acc c Hc; pose proof (child_height _ _ _ Hi Hc);
    apply diff_child_ext; intros parent' oldChild i; try lia.
  unfold diff. apply diff_rec_enough; lia.
Qed.

End vdom_facts.

(** ** The node constructor *)

(** C6 (amended): the node built by [vNode] keeps its tag, has a fresh
    empty attribute object when the given mapping is null or undefined and
    the given mapping otherwise, and has as children the given children
    flattened exactly one level: without child arguments the children are
    empty; an array argument contributes its elements, as they are and in
    their order; every other argument (a string, a number, a node, and
    also null or undefined) is itself a child, at its place. *)
Theorem vNode_shape a tagName attributes nodes :
  prop (vNode a tagName attributes nodes) "tagName" = tagName
  ∧ prop (vNode a tagName attributes nodes) "attributes"
    = (if nullish attributes then VObj (a + 2) [] else attributes)
  ∧ prop (vNode a tagName attributes nodes) "children" = VArr (a + 1) (concat_spread nodes)
  ∧ prop (vNode a tagName attributes []) "children" = VArr (a + 1) []
  ∧ concat_spread [] = []
  ∧ (∀ ref items, concat_spread (VArr ref items :: nodes) = items ++ concat_spread nodes)
  ∧ (∀ c, (∀ ref items, c ≠ VArr ref items) → concat_spread (c :: nodes) = c :: concat_spread nodes)
  ∧ concat_spread (VNull :: nodes) = VNull :: concat_spread nodes
  ∧ concat_spread (VUndefined :: nodes) = VUndefined :: concat_spread nodes
  ∧ (∀ more, concat_spread (nodes ++ more) = concat_spread nodes ++ concat_spread more).
Proof.
  split; [done|]. split; [unfold vNode, prop; simpl; by destruct attributes|].
  split; [done|]. split; [done|]. split; [done|]. split; [done|].
  split; [|split; [done|split; [done|]]].
  - intros c Hc. destruct c as [| | | | | | |ref items|]; try done. by destruct (Hc ref items).
  - intros more. unfold concat_spread. by rewrite map_app, join_app.
Qed.

Lemma vNode_shape_witness :
  prop (h 0 (VStr "ul") VNull
          [VStr "a"; VArr 7 [VNum 1; VArr 8 [VStr "deep"]]; VNull; h 10 (VStr "li") VUndefined []])
       "children"
  = VArr 1 [VStr "a"; VNum 1; VArr 8 [VStr "deep"]; VNull; h 10 (VStr "li") VUndefined []]
  ∧ concat_spread [VStr "a"; VArr 7 [VNum 1]] = VStr "a" :: concat_spread [VArr 7 [VNum 1]].
Proof.
  split.
  - etrans;
      [exact (proj1 (proj2 (proj2 (vNode_shape 0 (VStr "ul") VNull
                [VStr "a"; VArr 7 [VNum 1; VArr 8 [VStr "deep"]]; VNull;
                 h 10 (VStr "li") VUndefined []]))))|].
    reflexivity.
  - refine (proj1 (proj2 (proj2 (proj2 (proj2 (proj2 (proj2
              (vNode_shape 0 (VStr "ul") VNull [VArr 7 [VNum 1]]))))))) (VStr "a") _).
    intros ref items. discriminate.
Defined.

(** C6, as stated, fails: a null child handed to [h] is a child of the
    node; the children are not the empty sequence. *)
Lemma vNode_null_child_kept :
  prop (h 0 (VStr "div") (VObj 9 []) [VNull]) "children" = VArr 1 [VNull]
  ∧ prop (h 0 (VStr "div") (VObj 9 []) [VNull]) "children" ≠ VArr 1 [].
Proof. split; [reflexivity | discriminate]. Qed.

(** ** Comparing nodes *)

(** C1 (the code at the failing input): [changed] reads the property
    [type], which [h] never sets, and not [tagName]; two nodes built by
    [h] with empty attributes are reported unchanged whatever their tags,
    and patching [h('p', {}, '1')] to [h('span', {}, '1')] keeps the live
    paragraph and makes no mutation. *)
Theorem changed_blind_to_tagName :
  (∀ a b tag1 tag2 r1 r2 nodes1 nodes2,
     changed (h a tag1 (VObj r1 []) nodes1) (h b tag2 (VObj r2 []) nodes2) = Ok false)
  ∧ diff (H := html) (Some (Element "div" [] [] [Element "p" [] [] [Text "1"]]))
      (h 0 (VStr "p") (VObj 9 []) [VStr "1"]) (h 10 (VStr "span") (VObj 19 []) [VStr "1"]) 0
    = Ok (Some (Element "div" [] [] [Element "p" [] [] [Text "1"]]), []).
Proof. split; [intros; reflexivity | vm_compute; reflexivity]. Qed.

Lemma existsb_attributeDiffers attributes1 attributes2 keys :
  existsb (attributeDiffers attributes1 attributes2) keys = true
  ↔ ∃ k, k ∈ keys ∧ normalized (prop attributes1 k) ≠ normalized (prop attributes2 k).
Proof.
  rewrite existsb_exists. split.
  - intros (k & Hk%list_elem_of_In & Hd). exists k. split; [done|].
    unfold attributeDiffers in Hd. apply andb_true_iff in Hd as [_ Hd].
    apply negb_true_iff, String.eqb_neq in Hd. done.
  - intros (k & Hk & Hd). exists k. split; [by apply list_elem_of_In|].
    unfold attributeDiffers. rewrite strict_neq_normalized by done. simpl.
    by apply negb_true_iff, String.eqb_neq.
Qed.

(** C7 (amended): for two objects of the same [type] that both carry an
    attribute mapping, [changed] returns, and returns true exactly when the
    numbers of attribute keys differ or some key of the first mapping has
    values on the two sides (an absent one reading as undefined) that
    differ as strings, where null and undefined count as the empty string
    and every other value as the string it converts to.  So a null
    attribute is equal to an empty string, and a number to the string of
    its digits.  The keys of the first mapping are not names of members of
    [Object.prototype], and the values have a plain string form. *)
Theorem changed_attributes r1 fields1 r2 fields2 ra1 attrs1 ra2 attrs2 :
  strict_eq (prop (VObj r1 fields1) "type") (prop (VObj r2 fields2) "type") = true →
  prop (VObj r1 fields1) "attributes" = VObj ra1 attrs1 →
  prop (VObj r2 fields2) "attributes" = VObj ra2 attrs2 →
  (∀ k, k ∈ attrs1.*1 → inherited k = false) →
  (∀ kv, kv ∈ attrs1 ++ attrs2 → plain_string kv.2 = true) →
  ∃ b, changed (VObj r1 fields1) (VObj r2 fields2) = Ok b
       ∧ (b = true ↔
            length attrs1 ≠ length attrs2
            ∨ ∃ k, k ∈ attrs1.*1
                   ∧ (if nullish (prop (VObj ra1 attrs1) k) then ""
                      else toString (prop (VObj ra1 attrs1) k))
                     ≠ (if nullish (prop (VObj ra2 attrs2) k) then ""
                        else toString (prop (VObj ra2 attrs2) k))).
Proof.
  intros Htype Ha1 Ha2 _ _. unfold changed, nodeChanged, attributesChanged, get. simpl.
  unfold strict_neq. rewrite Htype, Ha1, Ha2. simpl.
  unfold own_keys. simpl. rewrite !length_fmap.
  assert (Hform : ∀ v, normalized v = if nullish v then "" else toString v)
    by (intros v; unfold normalized; by destruct (nullish v)).
  destruct (Nat.eqb_spec (length attrs1) (length attrs2)) as [Hl|Hl]; simpl.
  - eexists. split; [done|]. rewrite existsb_attributeDiffers. split.
    + intros (k & Hk & Hne). right. exists k. by rewrite <- !Hform.
    + intros [Hne|(k & Hk & Hne)]; [done|]. exists k. by rewrite !Hform.
  - exists true. split; [done|]. split; [by left|done].
Qed.

Lemma changed_attributes_witness :
  changed (VObj 0 [("attributes", VObj 1 [("test", VNull); ("size", VNum 1)])])
          (VObj 2 [("attributes", VObj 3 [("test", VStr ""); ("size", VStr "1")])]) = Ok false
  ∧ changed (VObj 0 [("attributes", VObj 1 [("test", VNull)])])
            (VObj 2 [("attributes", VObj 3 [("test", VStr "null")])]) = Ok true.
Proof.
  split.
  - destruct (changed_attributes 0 [("attributes", VObj 1 [("test", VNull); ("size", VNum 1)])]
                2 [("attributes", VObj 3 [("test", VStr ""); ("size", VStr "1")])]
                1 [("test", VNull); ("size", VNum 1)] 3 [("test", VStr ""); ("size", VStr "1")]
                eq_refl eq_refl eq_refl) as (b & Hb & Hiff).
    + intros k Hk. repeat (apply elem_of_cons in Hk as [->|Hk]; [reflexivity|]).
      by apply elem_of_nil in Hk.
    + intros kv Hkv. repeat (apply elem_of_cons in Hkv as [->|Hkv]; [reflexivity|]).
      by apply elem_of_nil in Hkv.
    + rewrite Hb. f_equal. destruct b; [|reflexivity]. exfalso.
      destruct (proj1 Hiff eq_refl) as [Hlen|(k & Hk & Hne)]; [by apply Hlen|].
      repeat (apply elem_of_cons in Hk as [->|Hk]; [by apply Hne|]).
      by apply elem_of_nil in Hk.
  - destruct (changed_attributes 0 [("attributes", VObj 1 [("test", VNull)])]
                2 [("attributes", VObj 3 [("test", VStr "null")])]
                1 [("test", VNull)] 3 [("test", VStr "null")]
                eq_refl eq_refl eq_refl) as (b & Hb & Hiff).
    + intros k Hk. repeat (apply elem_of_cons in Hk as [->|Hk]; [reflexivity|]).
      by apply elem_of_nil in Hk.
    + intros kv Hkv. repeat (apply elem_of_cons in Hkv as [->|Hkv]; [reflexivity|]).
      by apply elem_of_nil in Hkv.
    + rewrite Hb. f_equal. apply Hiff. right. exists "test". split; [left|discriminate].
Defined.

(** C7, as stated, fails: with one key each and no key in common the
    numbers of keys agree and no shared key differs, yet the nodes are
    reported changed. *)
Lemma changed_unshared_key :
  changed (h 0 (VStr "p") (VObj 9 [("a", VNum 1)]) []) (h 10 (VStr "p") (VObj 19 [("b", VNum 1)]) [])
  = Ok true
  ∧ length [("a", VNum 1)] = length [("b", VNum 1)]
  ∧ ¬ ∃ k, k ∈ [("a", VNum 1)].*1 ∧ k ∈ [("b", VNum 1)].*1
           ∧ normalized (prop (VObj 9 [("a", VNum 1)]) k) ≠ normalized (prop (VObj 19 [("b", VNum 1)]) k).
Proof.
  split; [reflexivity|]. split; [reflexivity|].
  intros (k & Hk1 & Hk2 & _). simpl in *.
  apply list_elem_of_singleton in Hk1, Hk2. by subst.
Qed.

(** ** The recursion budget is never used up *)

Lemma foldM_not_exhausted {A B} (f : A → B → result A) acc xs :
  (∀ acc x, x ∈ xs → f acc x ≠ Throw Exhausted) → foldM f acc xs ≠ Throw Exhausted.
Proof.
  revert acc. induction xs as [|x xs IH]; intros acc Hf; simpl; [done|].
  destruct (f acc x) as [acc'|e] eqn:Hx; simpl.
  - apply IH. intros acc'' y Hy. apply Hf. by right.
  - rewrite <- Hx. apply Hf. left.
Qed.

Section budget.
Context `{Document}.

Lemma createDomElement_not_exhausted tagName attributes :
  createDomElement tagName attributes ≠ Throw Exhausted.
Proof.
  unfold createDomElement, createElement.
  destruct (valid_element_name _); simpl; [|done].
  unfold object_keys. destruct (nullish _); simpl; [done|].
  apply foldM_not_exhausted. intros el key _.
  destruct (String.eqb _ _); [done|].
  unfold setAttribute. by destruct (valid_attribute_name key).
Qed.

Lemma render_not_exhausted node : render node ≠ Throw Exhausted.
Proof.
  remember (height node) as n eqn:Hn. revert node Hn.
  induction n as [n IH] using lt_wf_ind. intros node ->.
  rewrite render_unfold.
  destruct (nullish node); [done|].
  destruct (_ || _); [done|].
  pose proof (createDomElement_not_exhausted (prop node "tagName") (prop node "attributes")).
  destruct (createDomElement _ _) as [el|e]; simpl; [|congruence].
  destruct (forEach_items _) as [items|e] eqn:Hi; simpl;
    [|destruct (prop node "children"); simpl in Hi; congruence].
  apply foldM_not_exhausted. intros acc c Hc.
  pose proof (child_height _ _ _ Hi Hc).
  pose proof (IH (height c) ltac:(lia) c eq_refl).
  destruct (render c) as [r|e]; simpl; [by destruct acc|congruence].
Qed.

Lemma diff_not_exhausted parent oldNode newNode index :
  diff parent oldNode newNode index ≠ Throw Exhausted.
Proof.
  remember (height newNode) as n eqn:Hn. revert parent oldNode newNode index Hn.
  induction n as [n IH] using lt_wf_ind. intros parent oldNode newNode index ->.
  rewrite diff_unfold.
  pose proof (render_not_exhausted newNode) as Hrender.
  destruct (nullish oldNode).
  { unfold diff_append. destruct parent as [p|]; simpl; [|done].
    destruct (render newNode) as [new|e]; simpl; [by destruct p|congruence]. }
  destruct (nullish newNode).
  { unfold diff_remove, removeChildAt. destruct parent as [p|]; simpl; [|done].
    by destruct (childNodes p !! index). }
  assert (changed oldNode newNode ≠ Throw Exhausted) as Hchanged.
  { unfold changed, nodeChanged, attributesChanged, get.
    repeat (match goal with |- context [if ?b then _ else _] => destruct b end; simpl; try done). }
  destruct (changed oldNode newNode) as [[]|e]; simpl; [| |congruence].
  { unfold diff_replace, replaceChildAt. destruct parent as [p|]; simpl; [|done].
    destruct (render newNode) as [new|e]; simpl; [|congruence].
    by destruct (childNodes p !! index). }
  destruct (truthy _); [|done].
  destruct (forEach_items _) as [items|e] eqn:Hi; simpl;
    [|destruct (prop newNode "children"); simpl in Hi; congruence].
  assert (foldM (diff_child diff oldNode index) (parent, ([], 0)) items ≠ Throw Exhausted) as Hf.
  { apply foldM_not_exhausted. intros [parent' [log i]] c Hc.
    pose proof (child_height _ _ _ Hi Hc).
    unfold diff_child, get. destruct parent' as [p|]; simpl; [|done].
    destruct (nullish oldNode); simpl; [done|].
    destruct (nullish (prop oldNode "children")); simpl; [done|].
    pose proof (IH (height c) ltac:(lia) (childNodes p !! index)
                  (prop (prop oldNode "children") (pretty i)) c i eq_refl).
    destruct (diff _ _ c i) as [[child ms]|e]; simpl; [done|congruence]. }
  destruct (foldM _ _ _) as [[parent' [log n]]|e]; simpl; [done|congruence].
Qed.

End budget.

(** ** Materializing nodes *)

Lemma set_attr_fresh name val attrs :
  name ∉ attrs.*1 → set_attr name val attrs = attrs ++ [(name, val)].
Proof.
  induction attrs as [|[n v] attrs IH]; simpl; [done|].
  intros Hn. apply not_elem_of_cons in Hn as [Hne Hn].
  destruct (String.eqb_spec n name) as [->|_]; [done|]. by rewrite IH.
Qed.

Lemma field_NoDup k v (fields : list (string * value)) :
  NoDup fields.*1 → (k, v) ∈ fields → field k fields = Some v.
Proof.
  unfold field. induction fields as [|[k' v'] fields IH]; simpl; [by intros _ ?%elem_of_nil|].
  intros [Hk' Hnd]%NoDup_cons [[= -> ->]|Hin]%elem_of_cons.
  - by rewrite String.eqb_refl.
  - destruct (String.eqb_spec k k') as [->|_]; [|by apply IH].
    exfalso. apply Hk'. apply list_elem_of_fmap. by exists (k', v).
Qed.

Section materialize.
Context `{Document}.

Lemma foldM_attributes attributes kvs tag attrs ls :
  (∀ k v, (k, v) ∈ kvs → prop attributes k = v) →
  NoDup kvs.*1 →
  (∀ k, k ∈ kvs.*1 → k ∉ attrs.*1) →
  (∀ kv, kv ∈ kvs → plain_attribute kv → valid_attribute_name kv.1 = true) →
  foldM (λ el key,
           if String.eqb (typeof (prop attributes key)) "function"
           then Ok (addEventListener el key (prop attributes key))
           else setAttribute el key (prop attributes key))
        (Element tag attrs ls [])
        (filter (λ key, nullish (prop attributes key) = false) kvs.*1)
  = Ok (Element tag
          (attrs ++ ((λ kv, (kv.1, toString kv.2)) <$> filter plain_attribute kvs))
          (ls ++ filter listener_attribute kvs) []).
Proof.
  revert attrs ls. induction kvs as [|[k v] kvs IH]; intros attrs ls Hprop Hnd Hfresh Hvalid.
  - simpl. by rewrite !app_nil_r.
  - simpl in Hnd. apply NoDup_cons in Hnd as [Hk Hnd].
    assert (prop attributes k = v) as Hv by (apply Hprop; left).
    assert (∀ k' v', (k', v') ∈ kvs → prop attributes k' = v') as Hprop'
      by (intros; apply Hprop; by right).
    assert (∀ kv, kv ∈ kvs → plain_attribute kv → valid_attribute_name kv.1 = true) as Hvalid'
      by (intros; apply Hvalid; [by right|done]).
    assert (∀ k', k' ∈ kvs.*1 → k' ∉ attrs.*1) as Hfresh'
      by (intros; apply Hfresh; by right).
    rewrite fmap_cons, !filter_cons. simpl. rewrite Hv.
    destruct (decide (nullish v = false)) as [Hnull|Hnull];
      destruct (decide (plain_attribute (k, v))) as [Hplain|Hplain];
      destruct (decide (listener_attribute (k, v))) as [Hfn|Hfn];
      unfold plain_attribute, listener_attribute in Hplain, Hfn; simpl in Hplain, Hfn;
      try (exfalso; by destruct Hplain);
      try (exfalso; apply Hplain; split; [done|]; destruct v; done);
      try (exfalso; destruct v; done).
    + (* a plain attribute *)
      simpl. rewrite Hv. apply String.eqb_neq in Hfn. rewrite Hfn.
      unfold setAttribute.
      assert (valid_attribute_name k = true) as -> by (apply (Hvalid (k, v)); [left|done]).
      simpl. rewrite set_attr_fresh by (apply Hfresh; left).
      rewrite IH; try done.
      * by rewrite <- !app_assoc.
      * intros k' Hk'. rewrite fmap_app. simpl.
        intros [Hin|Hin%list_elem_of_singleton]%elem_of_app.
        -- revert Hin. by apply Hfresh'.
        -- by subst.
    + (* a listener *)
      simpl. rewrite Hv. apply String.eqb_eq in Hfn. rewrite Hfn. simpl.
      rewrite IH; try done. by rewrite <- !app_assoc.
    + (* a null or undefined value *)
      by apply IH.
Qed.

Lemma createDomElement_object tagName ref attrs :
  valid_element_name (toString tagName) = true →
  NoDup attrs.*1 →
  (∀ kv, kv ∈ attrs → plain_attribute kv → valid_attribute_name kv.1 = true) →
  createDomElement tagName (VObj ref attrs)
  = Ok (Element (toString tagName)
          ((λ kv, (kv.1, toString kv.2)) <$> filter plain_attribute attrs)
          (filter listener_attribute attrs) []).
Proof.
  intros Htag Hnd Hvalid. unfold createDomElement, createElement. rewrite Htag. simpl.
  unfold own_keys. simpl.
  apply (foldM_attributes (VObj ref attrs) attrs _ [] []); try done.
  - intros k v Hin. unfold prop. simpl. by rewrite (field_NoDup k v).
  - intros k _. apply not_elem_of_nil.
Qed.

Lemma foldM_appendChild tag attrs ls children cs ds :
  Forall2 (λ c d, render c = Ok d) cs ds →
  foldM (λ el c, r ← render c; appendChild el r) (Element tag attrs ls children) cs
  = Ok (Element tag attrs ls (children ++ ds)).
Proof.
  intros Hall. revert children. induction Hall as [|c d cs ds Hc _ IH]; intros children; simpl.
  - by rewrite app_nil_r.
  - rewrite Hc. simpl. rewrite IH. by rewrite <- app_assoc.
Qed.

(** C5: [render] follows its rules in order.  A null or undefined node
    gives an empty text node; a string or a number gives a text node
    holding it as a string; any other node whose tag the document accepts,
    whose attribute mapping (an empty one when the node has none) has
    acceptable names for the attributes that are set and whose children
    all render, gives the element of that tag
    with one listener per callable attribute value, one attribute
    (stringified) per other value that is not null or undefined, and the
    rendered children in order.  The values turned into strings have a
    plain string form, and the names of the element and of the attributes
    set have no upper-case letter, so that the document takes them as they
    are; the same holds of the children. *)
Theorem render_rules :
  (∀ node, nullish node = true → render node = Ok (Text ""))
  ∧ (∀ node, typeof node = "string" ∨ typeof node = "number" →
       plain_string node = true →
       render node = Ok (Text (toString node)))
  ∧ (∀ node ra attrs rc children rendered,
       nullish node = false →
       typeof node ≠ "string" → typeof node ≠ "number" →
       valid_element_name (toString (prop node "tagName")) = true →
       plain_string (prop node "tagName") = true →
       lower_case (toString (prop node "tagName")) = true →
       prop node "attributes" = VObj ra attrs
       ∨ prop node "attributes" = VUndefined ∧ attrs = [] →
       NoDup attrs.*1 →
       (∀ kv, kv ∈ attrs → plain_attribute kv →
              valid_attribute_name kv.1 = true
              ∧ lower_case kv.1 = true
              ∧ plain_string kv.2 = true) →
       prop node "children" = VArr rc children →
       (∀ c, c ∈ children → plain_node c) →
       Forall2 (λ c d, render c = Ok d) children rendered →
       render node
       = Ok (Element (toString (prop node "tagName"))
               ((λ kv, (kv.1, toString kv.2)) <$> filter plain_attribute attrs)
               (filter listener_attribute attrs)
               rendered)).
Proof.
  split; [|split].
  - intros node Hn. rewrite render_unfold. by rewrite Hn.
  - intros node Ht _. rewrite render_unfold.
    destruct (nullish node) eqn:Hn; [by destruct node, Ht|].
    destruct Ht as [-> | ->]; done.
  - intros node ra attrs rc children rendered Hn Hs Hnum Htag _ _ Hattrs Hnd Hvalid Hch _ Hall.
    rewrite render_unfold, Hn.
    apply String.eqb_neq in Hs, Hnum. rewrite Hs, Hnum. simpl.
    assert (createDomElement (prop node "tagName") (prop node "attributes")
            = createDomElement (prop node "tagName") (VObj ra attrs)) as ->.
    { destruct Hattrs as [->|[-> ->]]; [done|]. unfold createDomElement. simpl.
      by destruct (createElement _). }
    rewrite createDomElement_object; [|done|done|by intros kv Hin Hp; apply Hvalid]. simpl.
    rewrite Hch. simpl. by rewrite (foldM_appendChild _ _ _ _ _ rendered).
Qed.

End materialize.

Lemma render_rules_witness :
  render (H := html)
    (h 0 (VStr "ul")
       (VObj 9 [("class", VStr "list"); ("click", VFun 7 "e => add()"); ("title", VNull); ("tabindex", VNum 3)])
       [VStr "a"; VArr 8 [VNum 2; VNull]])
  = Ok (Element "ul" [("class", "list"); ("tabindex", "3")] [("click", VFun 7 "e => add()")]
          [Text "a"; Text "2"; Text ""]).
Proof.
  refine (proj2 (proj2 (render_rules (H := html)))
            (h 0 (VStr "ul")
               (VObj 9 [("class", VStr "list"); ("click", VFun 7 "e => add()");
                        ("title", VNull); ("tabindex", VNum 3)])
               [VStr "a"; VArr 8 [VNum 2; VNull]])
            9 [("class", VStr "list"); ("click", VFun 7 "e => add()");
               ("title", VNull); ("tabindex", VNum 3)]
            1 [VStr "a"; VNum 2; VNull] [Text "a"; Text "2"; Text ""]
            _ _ _ _ _ _ _ _ _ _ _ _);
    try reflexivity; try discriminate.
  - by left.
  - apply (bool_decide_unpack _). vm_compute. reflexivity.
  - intros kv Hin _.
    repeat (apply elem_of_cons in Hin as [->|Hin]; [repeat split; reflexivity|]).
    by apply elem_of_nil in Hin.
  - intros c Hin.
    apply elem_of_cons in Hin as [->|Hin]; [by apply plain_node_text; [left|]|].
    apply elem_of_cons in Hin as [->|Hin]; [by apply plain_node_text; [right|]|].
    apply elem_of_cons in Hin as [->|Hin]; [by apply plain_node_absent|].
    by apply elem_of_nil in Hin.
  - repeat constructor.
Defined.

(** ** Patching *)

Lemma changed_same node :
  nullish node = false → node ≠ VNaN → prop node "type" ≠ VNaN →
  changed node node = Ok false.
Proof.
  intros Hn Hnan Htype. unfold changed, nodeChanged, attributesChanged, get.
  rewrite Hn, String.eqb_refl. simpl.
  unfold strict_neq. rewrite !strict_eq_refl by done. rewrite andb_false_r. simpl.
  destruct (truthy (prop node "attributes")); simpl; [|done].
  rewrite Nat.eqb_refl. simpl. f_equal.
  apply not_true_iff_false. rewrite existsb_attributeDiffers. by intros (k & _ & Hk).
Qed.

Lemma field_imap_index (f : nat → value → string * value) o (items : list value) i c :
  (∀ j a, f j a = (pretty (o + j), a)) →
  items !! i = Some c → field (pretty (o + i)) (imap f items) = Some c.
Proof.
  unfold field. revert f o i. induction items as [|a items IH]; intros f o i Hf; [done|].
  simpl. rewrite Hf. simpl. destruct i as [|i]; simpl.
  - intros [= ->]. by rewrite String.eqb_refl.
  - intros Hi. destruct (String.eqb_spec (pretty (o + S i)) (pretty (o + 0))) as [Heq|_].
    + apply (inj pretty) in Heq. lia.
    + replace (o + S i) with (S o + i) by lia. apply IH; [|done].
      intros j b. simpl. rewrite Hf. do 2 f_equal. lia.
Qed.

(** Reading an array at an index in range. *)
Lemma prop_array_index ref (items : list value) i c :
  items !! i = Some c → prop (VArr ref items) (pretty i) = c.
Proof.
  intros Hi. unfold prop. simpl.
  by rewrite (field_imap_index _ 0 items i c).
Qed.

Lemma field_imap_value {A} (f : nat → A → string * value) k (xs : list A) x :
  field k (imap f xs) = Some x → ∃ i a, (f i a).2 = x.
Proof.
  unfold field. revert f. induction xs as [|a xs IH]; intros f; simpl; [done|].
  destruct (String.eqb k (f 0 a).1); simpl.
  - intros [= <-]. eauto.
  - intros (i & b & Hx)%IH. eauto.
Qed.

(** Only objects and arrays hold arrays. *)
Lemma prop_array_holder node k ref items :
  prop node k = VArr ref items → typeof node = "object".
Proof.
  unfold prop. destruct node; simpl; try done;
    try (destruct (String.eqb k "length"); done).
  destruct (field _ _) eqn:Hf.
  - apply field_imap_value in Hf as (i & a & Hx). simpl in Hx. by intros ->.
  - by destruct (String.eqb k "length").
Qed.

Lemma with_childNodes_id p index d :
  childNodes p !! index = Some d → with_childNodes p (<[index := d]> (childNodes p)) = p.
Proof.
  intros Hd. rewrite list_insert_id by done. by destruct p.
Qed.

Lemma childNodes_with_childNodes p index d cs :
  childNodes p !! index = Some d → childNodes (with_childNodes p cs) = cs.
Proof. destruct p; [done|]. done. Qed.

Section patching.
Context `{Document}.

Lemma foldM_cons {A B} (f : A → B → result A) acc x xs :
  foldM f acc (x :: xs) = f acc x ≫= λ acc', foldM f acc' xs.
Proof. done. Qed.

(** One round of the loop of the fourth case, on a live parent and with
    the old children in an array. *)
Lemma diff_child_array recur oldNode ref children index p log i oldChild newNode :
  nullish oldNode = false →
  prop oldNode "children" = VArr ref children →
  children !! i = Some oldChild →
  diff_child recur oldNode index (Some p, (log, i)) newNode
  = recur (childNodes p !! index) oldChild newNode i ≫= λ '(child, ms),
      Ok (Some match child with
               | Some c => with_childNodes p (<[index := c]> (childNodes p))
               | None => p
               end,
          (log ++ (Within index <$> ms), S i)).
Proof.
  intros Hn Hch Hi. unfold diff_child, get. rewrite Hn, Hch. simpl.
  by rewrite (prop_array_index _ _ _ _ Hi).
Qed.

(** The loop of the fourth case when each round leaves the live tree as
    it is. *)
Lemma foldM_diff_child_same oldNode ref children index parent :
  prop oldNode "children" = VArr ref children →
  nullish oldNode = false →
  (∀ c, c ∈ children → ∀ parent' i r, diff parent' c c i = Ok r → r = (parent', [])) →
  ∀ suffix i log st,
    drop i children = suffix →
    foldM (diff_child diff oldNode index) (parent, (log, i)) suffix = Ok st →
    st = (parent, (log, i + length suffix)).
Proof.
  intros Hch Hn IH suffix. induction suffix as [|c suffix IHs]; intros i log st Hdrop.
  - simpl. intros [= <-]. do 2 f_equal. lia.
  - assert (children !! i = Some c) as Hi.
    { rewrite <- (Nat.add_0_r i), <- lookup_drop, Hdrop. done. }
    rewrite foldM_cons.
    destruct parent as [p|]; [|done].
    rewrite (diff_child_array _ _ _ _ _ _ _ _ c c Hn Hch Hi).
    destruct (diff (childNodes p !! index) c c i) as [[child ms]|] eqn:Hd; simpl; [|done].
    apply IH in Hd; [|by eapply list_elem_of_lookup_2].
    injection Hd as -> ->. rewrite app_nil_r.
    replace (match childNodes p !! index with
             | Some c0 => with_childNodes p (<[index:=c0]> (childNodes p))
             | None => p
             end) with p.
    2:{ destruct (childNodes p !! index) eqn:Hp; [|done]. by rewrite with_childNodes_id. }
    intros Hf. apply IHs in Hf.
    + subst st. do 2 f_equal. simpl. lia.
    + rewrite (drop_S _ _ _ Hi) in Hdrop. by injection Hdrop.
Qed.

Lemma diff_same_returns_same T :
  settled T → ∀ parent index r, diff parent T T index = Ok r → r = (parent, []).
Proof.
  induction 1 as [node Hn Hnan Htype Htag | node ref children Hn Htype Htag Hch _ IH];
    intros parent index r; rewrite diff_unfold, Hn.
  - rewrite changed_same by done. simpl. rewrite Htag. by intros [= <-].
  - rewrite changed_same; [|done| |done].
    2:{ intros ->. done. }
    simpl. rewrite Htag, Hch. simpl.
    destruct (foldM _ _ _) as [st|] eqn:Hf; simpl; [|done].
    apply (foldM_diff_child_same node ref children index parent Hch Hn IH children 0 []) in Hf;
      [|done].
    subst st. by intros [= <-].
Qed.

Lemma foldM_invariant {A B} (P : A → Prop) (f : A → B → result A) acc xs r :
  (∀ acc x acc', P acc → f acc x = Ok acc' → P acc') →
  P acc → foldM f acc xs = Ok r → P r.
Proof.
  intros Hstep. revert acc. induction xs as [|x xs IH]; intros acc Hacc; simpl.
  - by intros [= <-].
  - destruct (f acc x) as [acc'|] eqn:Hf; simpl; [|done]. apply IH. by eapply Hstep.
Qed.

Lemma createDomElement_childNodes tagName attributes el :
  createDomElement tagName attributes = Ok el → childNodes el = [].
Proof.
  unfold createDomElement, createElement.
  destruct (valid_element_name _); simpl; [|done].
  destruct (object_keys _) as [keys|]; simpl; [|done].
  apply (foldM_invariant (λ el, childNodes el = [])); [|done].
  intros acc key acc' Hacc. destruct (String.eqb _ _).
  - intros [= <-]. by destruct acc.
  - unfold setAttribute. destruct (valid_attribute_name key); [|done].
    intros [= <-]. by destruct acc.
Qed.

Lemma foldM_appendChild_inv el cs d :
  foldM (λ el c, r ← render c; appendChild el r) el cs = Ok d →
  ∃ ds, Forall2 (λ c d, render c = Ok d) cs ds ∧ childNodes d = childNodes el ++ ds.
Proof.
  revert el. induction cs as [|c cs IH]; intros el; simpl.
  - intros [= <-]. exists []. by rewrite app_nil_r.
  - destruct (render c) as [r|] eqn:Hr; simpl; [|done].
    destruct el as [|tag attrs ls children]; simpl; [done|].
    intros (ds & Hall & Hd)%IH. exists (r :: ds). split; [by constructor|].
    rewrite Hd. simpl. by rewrite <- app_assoc.
Qed.

(** The children of a rendered element are the renderings of the
    children of its node, one for one. *)
Lemma render_childNodes node ref children d :
  truthy (prop node "tagName") = true →
  prop node "children" = VArr ref children →
  render node = Ok d →
  Forall2 (λ c d, render c = Ok d) children (childNodes d).
Proof.
  intros Htag Hch. rewrite render_unfold.
  pose proof (prop_array_holder _ _ _ _ Hch) as Hobj. rewrite Hobj. simpl.
  destruct (nullish node) eqn:Hn; [exfalso; by destruct node|].
  destruct (createDomElement _ _) as [el|] eqn:Hel; simpl; [|done].
  rewrite Hch. simpl. intros (ds & Hall & Hd)%foldM_appendChild_inv.
  apply createDomElement_childNodes in Hel. by rewrite Hd, Hel.
Qed.

Lemma foldM_diff_child_rendered oldNode ref children index p d :
  prop oldNode "children" = VArr ref children →
  nullish oldNode = false →
  childNodes p !! index = Some d →
  Forall2 (λ c d, render c = Ok d) children (childNodes d) →
  (∀ c, c ∈ children → ∀ p' i d', childNodes p' !! i = Some d' → render c = Ok d' →
        diff (Some p') c c i = Ok (Some p', [])) →
  ∀ suffix i log,
    drop i children = suffix →
    foldM (diff_child diff oldNode index) (Some p, (log, i)) suffix
    = Ok (Some p, (log, i + length suffix)).
Proof.
  intros Hch Hn Hd Hall IH suffix. induction suffix as [|c suffix IHs]; intros i log Hdrop.
  - simpl. do 3 f_equal. lia.
  - assert (children !! i = Some c) as Hi.
    { rewrite <- (Nat.add_0_r i), <- lookup_drop, Hdrop. done. }
    destruct (Forall2_lookup_l _ _ _ _ _ Hall Hi) as (di & Hdi & Hrender).
    rewrite foldM_cons, (diff_child_array _ _ _ _ _ _ _ _ c c Hn Hch Hi), Hd.
    rewrite (IH c (list_elem_of_lookup_2 _ _ _ Hi) d i di Hdi Hrender). simpl.
    rewrite app_nil_r, with_childNodes_id by done.
    rewrite IHs.
    + do 3 f_equal. simpl. lia.
    + rewrite (drop_S _ _ _ Hi) in Hdrop. by injection Hdrop.
Qed.

Lemma diff_same_rendered T :
  settled T →
  ∀ p index d, childNodes p !! index = Some d → render T = Ok d →
               diff (Some p) T T index = Ok (Some p, []).
Proof.
  induction 1 as [node Hn Hnan Htype Htag | node ref children Hn Htype Htag Hch _ IH];
    intros p index d Hd Hrender; rewrite diff_unfold, Hn.
  - rewrite changed_same by done. simpl. by rewrite Htag.
  - rewrite changed_same; [|done| |done].
    2:{ intros ->. done. }
    simpl. rewrite Htag, Hch. simpl.
    pose proof (render_childNodes _ _ _ _ Htag Hch Hrender) as Hall.
    by rewrite (foldM_diff_child_rendered node ref children index p d Hch Hn Hd Hall IH children 0 []).
Qed.

(** C4 (amended): patching from a settled Node Model [T] (one that holds
    no null, undefined or NaN where [diff] walks) to the same [T] makes no
    mutation: whatever the live tree, a call that returns leaves it as it
    was with an empty log, and on a live tree that holds the rendering of
    [T] at the index the call does return. *)
Theorem diff_same_no_mutation T :
  settled T →
  (∀ parent index r, diff parent T T index = Ok r → r = (parent, []))
  ∧ (∀ p index d, childNodes p !! index = Some d → render T = Ok d →
                  diff (Some p) T T index = Ok (Some p, [])).
Proof.
  intros HT. split; [by apply diff_same_returns_same | by apply diff_same_rendered].
Qed.

End patching.

Lemma diff_same_no_mutation_witness :
  settled (h 0 (VStr "ul") (VObj 9 [("class", VStr "list")])
             [h 10 (VStr "li") VUndefined [VStr "a"]; VNum 2])
  ∧ diff (H := html)
      (Some (Element "div" [] []
               [Element "ul" [("class", "list")] [] [Element "li" [] [] [Text "a"]; Text "2"]]))
      (h 0 (VStr "ul") (VObj 9 [("class", VStr "list")])
         [h 10 (VStr "li") VUndefined [VStr "a"]; VNum 2])
      (h 0 (VStr "ul") (VObj 9 [("class", VStr "list")])
         [h 10 (VStr "li") VUndefined [VStr "a"]; VNum 2])
      0
    = Ok (Some (Element "div" [] []
                  [Element "ul" [("class", "list")] [] [Element "li" [] [] [Text "a"]; Text "2"]]),
          []).
Proof.
  assert (∀ v, nullish v = false → v ≠ VNaN → prop v "type" ≠ VNaN →
               truthy (prop v "tagName") = false → settled v) as Hleaf
    by (intros; by apply settled_leaf).
  assert (settled (h 0 (VStr "ul") (VObj 9 [("class", VStr "list")])
                     [h 10 (VStr "li") VUndefined [VStr "a"]; VNum 2])) as HT.
  { eapply settled_element; [reflexivity|discriminate|reflexivity|reflexivity|].
    intros c [->|[->|[]%elem_of_nil]%elem_of_cons]%elem_of_cons.
    - eapply settled_element; [reflexivity|discriminate|reflexivity|reflexivity|].
      intros c [->|[]%elem_of_nil]%elem_of_cons. by apply Hleaf.
    - by apply Hleaf. }
  split; [exact HT|].
  apply (proj2 (diff_same_no_mutation (H := html) _ HT) _ 0
           (Element "ul" [("class", "list")] [] [Element "li" [] [] [Text "a"]; Text "2"]));
    reflexivity.
Defined.

(** C4, as stated, fails: a Node Model with a null child is patched to
    itself by appending an empty text node to the live element, once per
    null child. *)
Lemma diff_same_appends_for_null_child :
  render (H := html) (h 0 (VStr "p") (VObj 9 []) [VNull]) = Ok (Element "p" [] [] [Text ""])
  ∧ diff (H := html) (Some (Element "div" [] [] [Element "p" [] [] [Text ""]]))
      (h 0 (VStr "p") (VObj 9 []) [VNull]) (h 0 (VStr "p") (VObj 9 []) [VNull]) 0
    = Ok (Some (Element "div" [] [] [Element "p" [] [] [Text ""; Text ""]]),
          [Within 0 (AppendChild (Text ""))]).
Proof. split; vm_compute; reflexivity. Qed.

(** C3, as stated, fails: for an unchanged pair whose new node has no
    truthy [tagName], [diff] does not recurse into the child pairs; here
    the recursion would replace the text ["a"] by ["b"], and [diff] leaves
    the live tree as it is. *)
Lemma diff_skips_children_without_tagName :
  nullish (h 0 VUndefined VUndefined [VStr "a"]) = false
  ∧ nullish (h 10 VUndefined VUndefined [VStr "b"]) = false
  ∧ changed (h 0 VUndefined VUndefined [VStr "a"]) (h 10 VUndefined VUndefined [VStr "b"]) = Ok false
  ∧ render (H := html) (h 0 VUndefined VUndefined [VStr "a"])
    = Ok (Element "undefined" [] [] [Text "a"])
  ∧ diff (H := html) (Some (Element "div" [] [] [Element "undefined" [] [] [Text "a"]]))
      (h 0 VUndefined VUndefined [VStr "a"]) (h 10 VUndefined VUndefined [VStr "b"]) 0
    = Ok (Some (Element "div" [] [] [Element "undefined" [] [] [Text "a"]]), [])
  ∧ foldM (diff_child (diff (H := html)) (h 0 VUndefined VUndefined [VStr "a"]) 0)
      (Some (Element "div" [] [] [Element "undefined" [] [] [Text "a"]]), ([], 0)) [VStr "b"]
    = Ok (Some (Element "div" [] [] [Element "undefined" [] [] [Text "b"]]),
          ([Within 0 (ReplaceChild (Text "b") 0)], 1)).
Proof. repeat split; vm_compute; reflexivity. Qed.

(** ** What patching leaves alone *)

Lemma kept_except_refl i q : kept_except i q q.
Proof. by split. Qed.

Lemma kept_except_set i q q' c :
  kept_except i q q' → kept_except i q (with_childNodes q' (<[i := c]> (childNodes q'))).
Proof.
  intros [Hlen Hk]. destruct q' as [|tag attrs ls children]; [by split|].
  split; cbn [with_childNodes childNodes] in *; [by rewrite length_insert|].
  intros k Hne Hlt. rewrite list_lookup_insert_ne by done. by apply Hk.
Qed.

Section frame.
Context `{Document}.

#[local] Arguments diff_child : simpl never.

Lemma diff_child_live recur oldNode index p log i newNode :
  diff_child recur oldNode index (Some p, (log, i)) newNode
  = get oldNode "children" ≫= λ oldChildren,
    get oldChildren (pretty i) ≫= λ oldChild,
    recur (childNodes p !! index) oldChild newNode i ≫= λ '(child, ms),
    Ok (Some match child with
             | Some c => with_childNodes p (<[index := c]> (childNodes p))
             | None => p
             end,
        (log ++ (Within index <$> ms), S i)).
Proof. done. Qed.

(** The loop of the fourth case touches its parent at [index] only,
    whatever the recursive calls do. *)
Lemma foldM_diff_child_frame recur oldNode index q children :
  ∀ q0 log i r log' n,
    kept_except index q q0 →
    (∀ m j, m ∈ log → m ≠ RemoveChild j) →
    foldM (diff_child recur oldNode index) (Some q0, (log, i)) children = Ok (r, (log', n)) →
    ∃ q', r = Some q' ∧ kept_except index q q' ∧ ∀ m j, m ∈ log' → m ≠ RemoveChild j.
Proof.
  induction children as [|c children IH]; intros q0 log i r log' n Hq0 Hlog.
  - simpl. intros [= <- <- <-]. eauto.
  - rewrite foldM_cons, diff_child_live.
    destruct (get oldNode "children") as [oldChildren|]; simpl; [|done].
    destruct (get oldChildren (pretty i)) as [oldChild|]; simpl; [|done].
    destruct (recur _ _ _ _) as [[child ms]|]; simpl; [|done].
    apply IH.
    + destruct child; [by apply kept_except_set|done].
    + intros m j [Hm|Hm]%elem_of_app; [by apply Hlog|].
      apply list_elem_of_fmap in Hm as (m' & -> & _). done.
Qed.

(** A call of [diff] with a new node that is present touches its parent
    at [index] only, apart from appending, and removes nothing from it. *)
Lemma diff_frame q oldNode newNode index r log :
  nullish newNode = false →
  diff (Some q) oldNode newNode index = Ok (r, log) →
  ∃ q', r = Some q' ∧ kept_except index q q' ∧ ∀ m j, m ∈ log → m ≠ RemoveChild j.
Proof.
  intros Hnew. rewrite diff_unfold, Hnew.
  destruct (nullish oldNode).
  - unfold diff_append. simpl.
    destruct (render newNode) as [new|]; simpl; [|done].
    destruct q as [|tag attrs ls children]; simpl; [done|].
    intros [= <- <-]. eexists. split; [done|]. split.
    + split; simpl; [rewrite length_app; lia|].
      intros k _ Hk. by rewrite lookup_app_l.
    + by intros m j ->%list_elem_of_singleton.
  - destruct (changed oldNode newNode) as [[]|]; simpl; [| |done].
    + unfold diff_replace, replaceChildAt. simpl.
      destruct (render newNode) as [new|]; simpl; [|done].
      destruct (childNodes q !! index); simpl; [|done].
      intros [= <- <-]. eexists. split; [done|]. split.
      * apply kept_except_set, kept_except_refl.
      * by intros m j ->%list_elem_of_singleton.
    + destruct (truthy _).
      * destruct (forEach_items _) as [children|]; simpl; [|done].
        destruct (foldM _ _ _) as [[r' [log' n]]|] eqn:Hf; simpl; [|done].
        intros [= <- <-].
        apply (foldM_diff_child_frame _ _ _ q) in Hf; [done|apply kept_except_refl|].
        by intros m j ?%elem_of_nil.
      * intros [= <- <-]. eexists. split; [done|]. split; [apply kept_except_refl|].
        by intros m j ?%elem_of_nil.
Qed.

(** The loop of the fourth case over new children that are all present:
    the live child at [index] keeps every child it has beyond the
    positions the loop visits. *)
Lemma foldM_diff_child_surplus oldNode index children :
  (∀ c, c ∈ children → nullish c = false) →
  ∀ p child log i r log' n,
    childNodes p !! index = Some child →
    foldM (diff_child diff oldNode index) (Some p, (log, i)) children = Ok (r, (log', n)) →
    ∃ child',
      r = Some (with_childNodes p (<[index := child']> (childNodes p)))
      ∧ length (childNodes child) ≤ length (childNodes child')
      ∧ (∀ k, i + length children ≤ k → k < length (childNodes child) →
              childNodes child' !! k = childNodes child !! k)
      ∧ (∀ m, m ∈ log' → m ∈ log ∨ ∃ m', m = Within index m' ∧ ∀ j, m' ≠ RemoveChild j).
Proof.
  induction children as [|c children IH]; intros Hpresent p child log i r log' n Hchild.
  - simpl. intros [= <- <- <-]. exists child.
    rewrite with_childNodes_id by done. eauto.
  - rewrite foldM_cons, diff_child_live.
    destruct (get oldNode "children") as [oldChildren|]; simpl; [|done].
    destruct (get oldChildren (pretty i)) as [oldChild|]; simpl; [|done].
    rewrite Hchild.
    destruct (diff (Some child) oldChild c i) as [[child1 ms]|] eqn:Hd; simpl; [|done].
    apply diff_frame in Hd as (child1' & -> & [Hlen Hkept] & Hms); [|apply Hpresent; left].
    intros Hf.
    assert (index < length (childNodes p)) as Hindex by (by eapply lookup_lt_Some).
    apply (IH (λ c' Hc', Hpresent c' (list_elem_of_further _ _ _ Hc')) _ child1') in Hf.
    2:{ rewrite (childNodes_with_childNodes _ _ _ _ Hchild). by apply list_lookup_insert_eq. }
    destruct Hf as (child' & -> & Hlen' & Hkept' & Hlog').
    exists child'. split; [|split; [|split]].
    + rewrite (childNodes_with_childNodes _ _ _ _ Hchild), list_insert_insert_eq.
      f_equal. by destruct p.
    + lia.
    + intros k Hk Hlt. simpl in Hk.
      rewrite Hkept' by lia. apply Hkept; lia.
    + intros m [[Hm|Hm]%elem_of_app|Hm]%Hlog'; [by left| |by right].
      right. apply list_elem_of_fmap in Hm as (m' & -> & Hm'). exists m'. split; [done|].
      intros j. by apply Hms.
Qed.

(** C10 (amended): when [diff] recurses into an unchanged pair and none
    of the new node's children is null or undefined, every live child at a
    position from the new child count on is left in place unchanged, and
    no live child is removed; the loop visits the positions of the new
    node's children only. *)
Theorem diff_keeps_surplus p oldNode newNode index child ref children r log :
  nullish oldNode = false →
  nullish newNode = false →
  changed oldNode newNode = Ok false →
  truthy (prop newNode "tagName") = true →
  prop newNode "children" = VArr ref children →
  (∀ c, c ∈ children → nullish c = false) →
  childNodes p !! index = Some child →
  diff (Some p) oldNode newNode index = Ok (r, log) →
  ∃ child',
    r = Some (with_childNodes p (<[index := child']> (childNodes p)))
    ∧ (∀ k d, length children ≤ k → childNodes child !! k = Some d →
              childNodes child' !! k = Some d)
    ∧ (∀ m j, m ∈ log → m ≠ RemoveChild j ∧ m ≠ Within index (RemoveChild j)).
Proof.
  intros Hold Hnew Hchanged Htag Hch Hpresent Hchild.
  rewrite diff_unfold, Hold, Hnew, Hchanged. simpl. rewrite Htag, Hch. simpl.
  destruct (foldM _ _ _) as [[r' [log' n]]|] eqn:Hf; simpl; [|done].
  intros [= <- <-].
  apply (foldM_diff_child_surplus _ _ _ Hpresent _ child) in Hf; [|done].
  destruct Hf as (child' & -> & _ & Hkept & Hlog).
  exists child'. split; [done|]. split.
  - intros k d Hk Hd. rewrite Hkept; [done|done|by eapply lookup_lt_Some].
  - intros m j [[]%elem_of_nil|(m' & -> & Hm')]%Hlog. split; [done|].
    intros [= ->]. by eapply Hm'.
Qed.

End frame.

Lemma diff_keeps_surplus_witness :
  ∃ child',
    Some (Element "div" [] [] [Element "ul" [] [] [Text "x"; Text "b"; Text "c"]])
    = Some (with_childNodes (Element "div" [] [] [Element "ul" [] [] [Text "a"; Text "b"; Text "c"]])
              (<[0 := child']> [Element "ul" [] [] [Text "a"; Text "b"; Text "c"]]))
    ∧ (∀ k d, length [VStr "x"] ≤ k →
              childNodes (Element "ul" [] [] [Text "a"; Text "b"; Text "c"]) !! k = Some d →
              childNodes child' !! k = Some d)
    ∧ (∀ m j, m ∈ [Within 0 (ReplaceChild (Text "x") 0)] →
              m ≠ RemoveChild j ∧ m ≠ Within 0 (RemoveChild j)).
Proof.
  apply (diff_keeps_surplus (H := html)
           (Element "div" [] [] [Element "ul" [] [] [Text "a"; Text "b"; Text "c"]])
           (h 0 (VStr "ul") VUndefined [VStr "a"; VStr "b"; VStr "c"])
           (h 10 (VStr "ul") VUndefined [VStr "x"])
           0 (Element "ul" [] [] [Text "a"; Text "b"; Text "c"]) 11 [VStr "x"]);
    try reflexivity.
  intros c ->%list_elem_of_singleton. reflexivity.
Defined.

(** C10, as stated, fails: with old children [a, b, c] and new children
    [null, null] the pair is unchanged, the new node has two children, and
    the live child at position 2 is removed while the one at position 1
    stays. *)
Lemma diff_removes_surplus_child :
  changed (h 0 (VStr "ul") VUndefined [VStr "a"; VStr "b"; VStr "c"])
          (h 10 (VStr "ul") VUndefined [VNull; VNull]) = Ok false
  ∧ diff (H := html)
      (Some (Element "div" [] [] [Element "ul" [] [] [Text "a"; Text "b"; Text "c"]]))
      (h 0 (VStr "ul") VUndefined [VStr "a"; VStr "b"; VStr "c"])
      (h 10 (VStr "ul") VUndefined [VNull; VNull]) 0
    = Ok (Some (Element "div" [] [] [Element "ul" [] [] [Text "b"]]),
          [Within 0 (RemoveChild 0); Within 0 (RemoveChild 1)]).
Proof. split; vm_compute; reflexivity. Qed.

(** ** The render scheduler *)

(** C9 (amended): [enqueueRender] on an instance whose dirty flag is set
    changes nothing: no push, no deferred flush.  It keeps the dirty queue
    in order: while every queued instance has its flag set, no instance
    is queued twice. *)
Theorem enqueueRender_dirty c w :
  (∀ component, components w !! c = Some component → _dirty component = true →
                enqueueRender c w = w)
  ∧ (queue_ok w → queue_ok (enqueueRender c w)).
Proof.
  split.
  - intros component Hc Hd. unfold enqueueRender. by rewrite Hc, Hd.
  - intros [Hnd Hq]. unfold enqueueRender.
    destruct (components w !! c) as [component|] eqn:Hc; [|done].
    destruct (_dirty component) eqn:Hd; [done|].
    assert (c ∉ items w) as Hfresh.
    { intros (component' & Hc' & Hd')%Hq. congruence. }
    assert (queue_ok (with_items (λ items, items ++ [c]) (with_component c (set_dirty true) w)))
      as Hok.
    { split; simpl.
      - apply NoDup_app. split; [done|]. split; [|apply NoDup_singleton].
        intros x Hx ->%list_elem_of_singleton. done.
      - intros x [Hx|Hx%list_elem_of_singleton]%elem_of_app; [|subst x].
        + destruct (Hq x Hx) as (component' & Hx' & Hd').
          exists component'. split; [|done].
          rewrite lookup_alter_ne; [done|]. by intros ->.
        + exists (set_dirty true component). by rewrite lookup_alter_eq, Hc. }
    by destruct (Nat.eqb _ 1).
Qed.

Lemma enqueueRender_dirty_witness :
  enqueueRender 0
    (with_items (λ _, [0])
       (quiet {[ 0 := set_dirty true (mounted_instance (plain_class 7) 100 (VObj 1 []) []) ]} 2 []))
  = with_items (λ _, [0])
      (quiet {[ 0 := set_dirty true (mounted_instance (plain_class 7) 100 (VObj 1 []) []) ]} 2 [])
  ∧ queue_ok (enqueueRender 0 (quiet {[ 0 := mounted_instance (plain_class 7) 100 (VObj 1 []) [] ]} 2 [])).
Proof.
  split.
  - apply (proj1 (enqueueRender_dirty 0 _)
             (set_dirty true (mounted_instance (plain_class 7) 100 (VObj 1 []) []))); reflexivity.
  - apply (proj2 (enqueueRender_dirty 0 _)). split; simpl.
    + apply NoDup_nil_2.
    + by intros c ?%elem_of_nil.
Defined.

Lemma flushMounts_frame w :
  items (flushMounts w) = items w ∧ components (flushMounts w) = components w.
Proof.
  unfold flushMounts. simpl. generalize (mounts w). intros cs. revert w.
  induction cs as [|c cs IH]; intros w; simpl; [done|].
  destruct (components w !! c) as [component|]; [|apply IH].
  destruct (has_method componentDidMount component); [|apply IH].
  destruct (IH (emit (ComponentDidMount c) w)) as [-> ->]. done.
Qed.

Lemma runRenderCallbacks_frame c w :
  items (runRenderCallbacks c w) = items w
  ∧ _dirty <$> (components (runRenderCallbacks c w) !! c) = _dirty <$> (components w !! c).
Proof.
  unfold runRenderCallbacks. destruct (components w !! c) as [component|] eqn:Hc; [|by rewrite Hc].
  generalize (reverse (_renderCallbacks component)). intros callbacks.
  assert (∀ w0, items (foldl (λ w callback, emit (RenderCallback c callback) w) w0 callbacks)
                = items w0
                ∧ components (foldl (λ w callback, emit (RenderCallback c callback) w) w0 callbacks)
                  = components w0) as Hfold.
  { induction callbacks as [|callback callbacks IH]; intros w0; simpl; [done|].
    destruct (IH (emit (RenderCallback c callback) w0)) as [-> ->]. done. }
  destruct (Hfold (with_component c (set_renderCallbacks []) w)) as [-> ->]. simpl.
  by rewrite lookup_alter_eq, Hc.
Qed.

(** A render of an instance clears its dirty flag and leaves the dirty
    queue as it is, for every reconciliation step that touches neither. *)
Lemma renderComponent_clears_dirty `{Reconciler} c component renderMode mountAll isChild w :
  (∀ rendered context mode mountAll isChild initialBase initialChildComponent w0,
     items (reconcile c rendered context mode mountAll isChild initialBase
              initialChildComponent w0) = items w0
     ∧ _dirty <$> (components (reconcile c rendered context mode mountAll isChild initialBase
                                 initialChildComponent w0) !! c)
       = _dirty <$> (components w0 !! c)) →
  components w !! c = Some component →
  _disable component = false →
  items (renderComponent c renderMode mountAll isChild w) = items w
  ∧ _dirty <$> (components (renderComponent c renderMode mountAll isChild w) !! c) = Some false.
Proof.
  intros Hrec Hc Hdisable. unfold renderComponent. rewrite Hc, Hdisable.
  destruct (derive_state c component w) as [s w1] eqn:Hderive.
  assert (items w1 = items w ∧ components w1 = components w) as [Hi1 Hc1].
  { unfold derive_state in Hderive.
    destruct (getDerivedStateFromProps (constructor component)); by injection Hderive as <- <-. }
  destruct (should_skip c component renderMode s w1) as [skip w2] eqn:Hskip.
  assert (items w2 = items w1 ∧ components w2 = components w1) as [Hi2 Hc2].
  { unfold should_skip in Hskip.
    repeat (match type of Hskip with
            | context [match ?x with _ => _ end] => destruct x
            end; simpl in Hskip);
      by injection Hskip as <- <-. }
  set (w3 := with_component c (settle s) w2).
  assert (items w3 = items w ∧ _dirty <$> (components w3 !! c) = Some false) as [Hi3 Hd3].
  { subst w3. simpl. by rewrite lookup_alter_eq, Hc2, Hc1, Hc, Hi2, Hi1. }
  set (w4 := if skip then w3 else render_and_reconcile c component renderMode s mountAll isChild w3).
  assert (items w4 = items w ∧ _dirty <$> (components w4 !! c) = Some false) as [Hi4 Hd4].
  { subst w4. destruct skip; [done|]. unfold render_and_reconcile.
    destruct (method getChildContext component);
      destruct (base component); destruct (method getSnapshotBeforeUpdate component);
      simpl;
      match goal with
      | |- context [reconcile c ?a ?b ?d ?e ?f ?g ?h ?w0] =>
          destruct (Hrec a b d e f g h w0) as [-> ->]
      end; done. }
  set (w5 := if negb (bool_decide (is_Some (base component))) || mountAll
             then with_mounts (λ mounts, mounts ++ [c]) w4
             else if negb skip && has_method componentDidUpdate component
                  then emit (ComponentDidUpdate c) w4 else w4).
  assert (items w5 = items w ∧ _dirty <$> (components w5 !! c) = Some false) as [Hi5 Hd5].
  { subst w5. destruct (_ || _); [done|]. by destruct (_ && _). }
  destruct (runRenderCallbacks_frame c w5) as [Hi6 Hd6].
  destruct (flushMounts_frame (runRenderCallbacks c w5)) as [Hi7 Hc7].
  match goal with |- context [if ?b then flushMounts _ else _] => destruct b end.
  - by rewrite Hi7, Hc7, Hi6, Hd6.
  - by rewrite Hi6, Hd6.
Qed.

Lemma setState_queues c component partial callback w :
  components w !! c = Some component →
  _dirty component = false →
  items (setState c partial callback w) = items w ++ [c]
  ∧ ∃ component', components (setState c partial callback w) !! c = Some component'
                  ∧ _disable component' = _disable component.
Proof.
  intros Hc Hd.
  pose (update := λ this : instance,
          let this := if truthy (prevState this) then this
                      else set_prevState (state this) this in
          push_callback callback
            (set_state (extend_copy (next_ref w) (state this) partial) this)).
  assert (_dirty (update component) = false ∧ _disable (update component) = _disable component)
    as [Hd' Hdis'].
  { subst update. unfold push_callback. simpl.
    by destruct (truthy callback), (truthy (prevState component)). }
  change (setState c partial callback w)
    with (enqueueRender c (with_component c update (fresh w).2)).
  set (w1 := with_component c update (fresh w).2).
  assert (components w1 !! c = Some (update component)) as Hc1.
  { subst w1. simpl. by rewrite lookup_alter_eq, Hc. }
  unfold enqueueRender. rewrite Hc1, Hd'.
  match goal with |- context [if ?b then _ else _] => destruct b end;
    (split; [done|]); exists (set_dirty true (update component));
    (split; [simpl; by rewrite !lookup_alter_eq, Hc|done]).
Qed.

(** For every reconciliation step that leaves the dirty queue and the
    dirty flag alone, a forced update between two [setState]s puts the
    instance into the queue twice. *)
Lemma forceUpdate_requeues `{Reconciler} c component p1 cb1 cb2 p3 cb3 w :
  (∀ rendered context mode mountAll isChild initialBase initialChildComponent w0,
     items (reconcile c rendered context mode mountAll isChild initialBase
              initialChildComponent w0) = items w0
     ∧ _dirty <$> (components (reconcile c rendered context mode mountAll isChild initialBase
                                 initialChildComponent w0) !! c)
       = _dirty <$> (components w0 !! c)) →
  components w !! c = Some component →
  _dirty component = false →
  _disable component = false →
  items (setState c p3 cb3 (forceUpdate c cb2 (setState c p1 cb1 w))) = items w ++ [c; c].
Proof.
  intros Hrec Hc Hd Hdisable.
  destruct (setState_queues c component p1 cb1 w Hc Hd) as (Hi1 & component1 & Hc1 & Hdis1).
  set (w1 := setState c p1 cb1 w) in *.
  assert (components (with_component c (push_callback cb2) w1) !! c
          = Some (push_callback cb2 component1)) as Hc2.
  { simpl. by rewrite lookup_alter_eq, Hc1. }
  assert (_disable (push_callback cb2 component1) = false) as Hdis2.
  { unfold push_callback. destruct (truthy cb2); simpl; congruence. }
  destruct (renderComponent_clears_dirty c _ (VNum 2) false false _ Hrec Hc2 Hdis2) as [Hi2 Hd2].
  fold (forceUpdate c cb2 w1) in Hi2, Hd2. simpl in Hi2.
  destruct (components (forceUpdate c cb2 w1) !! c) as [component2|] eqn:Hc3; [|done].
  injection Hd2 as Hd2.
  destruct (setState_queues c component2 p3 cb3 _ Hc3 Hd2) as (-> & _).
  rewrite Hi2, Hi1. by rewrite <- app_assoc.
Qed.

(** C9, as stated, fails: a forced update clears the dirty flag of an
    instance that is still queued, and the next [setState] queues it a
    second time. *)
Lemma dirty_queue_holds_instance_twice :
  items (setState 0 (VObj 50 []) VNull
           (forceUpdate (H := in_place) 0 VNull
              (setState 0 (VObj 50 []) VNull
                 (quiet {[ 0 := mounted_instance (plain_class 7) 100 (VObj 1 []) [] ]} 2 []))))
  = [0; 0].
Proof. vm_compute. reflexivity. Qed.

(** ** Rendering a component *)

Lemma trace_callbacks c callbacks w :
  trace (foldl (λ w callback, emit (RenderCallback c callback) w) w callbacks)
  = trace w ++ (RenderCallback c <$> callbacks)
  ∧ components (foldl (λ w callback, emit (RenderCallback c callback) w) w callbacks)
    = components w
  ∧ mounts (foldl (λ w callback, emit (RenderCallback c callback) w) w callbacks) = mounts w
  ∧ diffLevel (foldl (λ w callback, emit (RenderCallback c callback) w) w callbacks)
    = diffLevel w.
Proof.
  revert w. induction callbacks as [|callback callbacks IH]; intros w; simpl.
  - by rewrite app_nil_r.
  - destruct (IH (emit (RenderCallback c callback) w)) as (-> & -> & -> & ->).
    simpl. by rewrite <- app_assoc.
Qed.

Lemma trace_flushMounts w :
  ∃ mounted, trace (flushMounts w) = trace w ++ (ComponentDidMount <$> mounted)
             ∧ components (flushMounts w) = components w.
Proof.
  unfold flushMounts. simpl. generalize (mounts w). intros cs. revert w.
  induction cs as [|c cs IH]; intros w; simpl.
  - exists []. by rewrite app_nil_r.
  - destruct (components w !! c) as [component|]; [|apply IH].
    destruct (has_method componentDidMount component); [|apply IH].
    destruct (IH (emit (ComponentDidMount c) w)) as (mounted & -> & ->).
    exists (c :: mounted). simpl. by rewrite <- app_assoc.
Qed.

Section rendering.
Context `{Reconciler}.

(** C8: on an update that is not forced, when [shouldComponentUpdate]
    returns false, [renderComponent] calls that hook, then every queued
    render callback (last queued first), then at most mount hooks: the
    render function and [componentDidUpdate] are not called, every queued
    callback is, and the queue of callbacks is left empty. *)
Theorem renderComponent_skip c component renderMode mountAll isChild should w :
  components w !! c = Some component →
  _disable component = false →
  is_Some (base component) →
  strict_neq renderMode (VNum 2) = true →
  method shouldComponentUpdate component = Some should →
  should (props component) (derive_state c component w).1 (context component) = VBool false →
  ∃ mounted events,
    events
    = (match getDerivedStateFromProps (constructor component) with
       | Some _ => [GetDerivedStateFromProps c]
       | None => []
       end)
      ++ [ShouldComponentUpdate c]
      ++ (RenderCallback c <$> reverse (_renderCallbacks component))
      ++ (ComponentDidMount <$> mounted)
    ∧ trace (renderComponent c renderMode mountAll isChild w) = trace w ++ events
    ∧ (∀ c', (Render c' ∉ events) ∧ (ComponentDidUpdate c' ∉ events))
    ∧ (∀ callback, callback ∈ _renderCallbacks component → RenderCallback c callback ∈ events)
    ∧ _renderCallbacks <$> (components (renderComponent c renderMode mountAll isChild w) !! c)
      = Some [].
Proof.
  intros Hc Hdisable [node Hbase] Hmode Hmethod Hshould.
  unfold renderComponent. rewrite Hc, Hdisable.
  destruct (derive_state c component w) as [s w1] eqn:Hderive. simpl in Hshould.
  assert (components w1 = components w
          ∧ trace w1 = trace w ++ (match getDerivedStateFromProps (constructor component) with
                                   | Some _ => [GetDerivedStateFromProps c]
                                   | None => []
                                   end)) as [Hcs1 Htr1].
  { unfold derive_state in Hderive.
    destruct (getDerivedStateFromProps (constructor component)).
    - by injection Hderive as <- <-.
    - injection Hderive as <- <-. by rewrite app_nil_r. }
  unfold should_skip. rewrite Hbase, Hmode, Hmethod, Hshould. simpl.
  set (w2 := with_component c (settle s) (emit (ShouldComponentUpdate c) w1)).
  set (w3 := if mountAll then with_mounts (λ mounts, mounts ++ [c]) w2 else w2).
  assert (components w3 !! c = Some (settle s component)) as Hc3.
  { subst w3 w2. destruct mountAll; simpl; by rewrite lookup_alter_eq, Hcs1, Hc. }
  assert (trace w3 = trace w1 ++ [ShouldComponentUpdate c]) as Htr3.
  { subst w3 w2. by destruct mountAll. }
  unfold runRenderCallbacks. rewrite Hc3. simpl.
  set (w4 := foldl _ _ _).
  destruct (trace_callbacks c (reverse (_renderCallbacks component))
              (with_component c (set_renderCallbacks []) w3)) as (Htr4 & Hcs4 & _ & _).
  fold w4 in Htr4, Hcs4. simpl in Htr4, Hcs4.
  assert (components w4 !! c = Some (set_renderCallbacks [] (settle s component))) as Hc4.
  { by rewrite Hcs4, lookup_alter_eq, Hc3. }
  assert (∃ mounted,
            trace (if Nat.eqb (diffLevel w4) 0 && negb isChild then flushMounts w4 else w4)
            = trace w4 ++ (ComponentDidMount <$> mounted)
            ∧ components (if Nat.eqb (diffLevel w4) 0 && negb isChild
                          then flushMounts w4 else w4) = components w4)
    as (mounted & Htr5 & Hcs5).
  { destruct (_ && _); [apply trace_flushMounts|]. exists []. by rewrite app_nil_r. }
  exists mounted. eexists. split; [reflexivity|]. split; [|split; [|split]].
  - rewrite Htr5, Htr4, Htr3, Htr1. by rewrite <- !app_assoc.
  - intros c'. split; intros Hin;
      (apply elem_of_app in Hin as [Hin|Hin];
       [ destruct (getDerivedStateFromProps _);
         [ by apply list_elem_of_singleton in Hin | by apply elem_of_nil in Hin ]
       | apply elem_of_cons in Hin as [Hin|Hin]; [done|];
         apply elem_of_app in Hin as [Hin|Hin];
         by apply list_elem_of_fmap in Hin as (x & Hx & _) ]).
  - intros callback Hin. apply elem_of_app. right. apply elem_of_cons. right.
    apply elem_of_app. left.
    apply list_elem_of_fmap. exists callback. split; [done|]. by apply elem_of_reverse.
  - by rewrite Hcs5, Hc4.
Qed.

End rendering.

Lemma renderComponent_skip_witness :
  ∃ mounted events,
    events
    = [] ++ [ShouldComponentUpdate 0]
      ++ (RenderCallback 0 <$> reverse [VFun 5 "a"; VFun 6 "b"])
      ++ (ComponentDidMount <$> mounted)
    ∧ trace (renderComponent (H := in_place) 0 VUndefined false false
               (quiet {[ 0 := mounted_instance (frozen_class 7) 100 (VObj 1 []) [VFun 5 "a"; VFun 6 "b"] ]} 2 []))
      = [] ++ events
    ∧ (∀ c', (Render c' ∉ events) ∧ (ComponentDidUpdate c' ∉ events))
    ∧ (∀ callback, callback ∈ [VFun 5 "a"; VFun 6 "b"] → RenderCallback 0 callback ∈ events)
    ∧ _renderCallbacks <$>
        (components (renderComponent (H := in_place) 0 VUndefined false false
           (quiet {[ 0 := mounted_instance (frozen_class 7) 100 (VObj 1 []) [VFun 5 "a"; VFun 6 "b"] ]} 2 []))
         !! 0)
      = Some [].
Proof.
  apply (renderComponent_skip (H := in_place) 0
           (mounted_instance (frozen_class 7) 100 (VObj 1 []) [VFun 5 "a"; VFun 6 "b"])
           VUndefined false false (λ _ _ _, VBool false)
           (quiet {[ 0 := mounted_instance (frozen_class 7) 100 (VObj 1 []) [VFun 5 "a"; VFun 6 "b"] ]} 2 []));
    try reflexivity.
  by exists 100.
Defined.

(** ** Instantiating a component *)

Lemma scan_pool_ext Ctor w1 w2 n :
  recyclerComponents w1 = recyclerComponents w2 →
  (∀ c, c ∈ recyclerComponents w2 → components w1 !! c = components w2 !! c) →
  scan_pool Ctor w1 n = scan_pool Ctor w2 n.
Proof.
  intros Hpool Hcs. induction n as [|n IH]; simpl; [done|].
  rewrite Hpool, IH.
  destruct (recyclerComponents w2 !! n) as [c|] eqn:Hn; simpl; [|done].
  by rewrite Hcs by (by eapply list_elem_of_lookup_2).
Qed.

(** What the [while (i--)] loop finds: the last pooled instance of the
    constructor below [n]. *)
Lemma scan_pool_spec Ctor w n :
  match scan_pool Ctor w n with
  | Some i =>
      i < n
      ∧ same_constructor Ctor (recyclerComponents w !! i ≫= λ c, components w !! c) = true
      ∧ ∀ j, i < j → j < n →
             same_constructor Ctor (recyclerComponents w !! j ≫= λ c, components w !! c) = false
  | None =>
      ∀ j, j < n →
           same_constructor Ctor (recyclerComponents w !! j ≫= λ c, components w !! c) = false
  end.
Proof.
  induction n as [|n IH]; simpl; [intros j; lia|].
  destruct (same_constructor Ctor (recyclerComponents w !! n ≫= _)) eqn:Hn.
  - split; [lia|]. split; [done|]. intros j; lia.
  - destruct (scan_pool Ctor w n) as [i|].
    + destruct IH as (Hi & Hsame & Hlast). split; [lia|]. split; [done|].
      intros j Hij Hj. destruct (decide (j = n)) as [->|]; [done|]. apply Hlast; lia.
    + intros j Hj. destruct (decide (j = n)) as [->|]; [done|]. apply IH; lia.
Qed.

(** C2 (amended): [createComponent] always constructs a new instance, at
    an address that was not in use and is not in the recycle pool; its
    state is what the constructor assigned, or a fresh empty object.  When
    the pool holds instances of the constructor, the last of them is taken
    out of the pool and only its [nextBase] is handed to the new instance;
    otherwise the pool is untouched and the new instance has no
    [nextBase].  No other instance is changed. *)
Theorem createComponent_fresh Ctor props context w :
  store_ok w →
  components w !! (createComponent Ctor props context w).1 = None
  ∧ ((createComponent Ctor props context w).1 ∉ recyclerComponents w)
  ∧ (∃ component,
       components (createComponent Ctor props context w).2
         !! (createComponent Ctor props context w).1 = Some component
       ∧ constructor component = Ctor
       ∧ _dirty component = true
       ∧ base component = None
       ∧ _renderCallbacks component = []
       ∧ state component
         = (if prototype_render Ctor
            then or_else (construct_state Ctor props context) (VObj (next_ref w) [])
            else VObj (next_ref w) [])
       ∧ nextBase component
         = (scan_pool Ctor w (length (recyclerComponents w)) ≫= λ i,
            recyclerComponents w !! i ≫= λ c, components w !! c ≫= nextBase))
  ∧ recyclerComponents (createComponent Ctor props context w).2
    = match scan_pool Ctor w (length (recyclerComponents w)) with
      | Some i => delete i (recyclerComponents w)
      | None => recyclerComponents w
      end
  ∧ (∀ c, c ≠ (createComponent Ctor props context w).1 →
          components (createComponent Ctor props context w).2 !! c = components w !! c)
  ∧ match scan_pool Ctor w (length (recyclerComponents w)) with
    | Some i =>
        i < length (recyclerComponents w)
        ∧ same_constructor Ctor (recyclerComponents w !! i ≫= λ c, components w !! c) = true
        ∧ ∀ j, i < j → j < length (recyclerComponents w) →
               same_constructor Ctor (recyclerComponents w !! j ≫= λ c, components w !! c) = false
    | None =>
        ∀ j, j < length (recyclerComponents w) →
             same_constructor Ctor (recyclerComponents w !! j ≫= λ c, components w !! c) = false
    end.
Proof.
  intros [Hstore Hpool].
  set (inst := S (next_ref w)).
  set (new := if prototype_render Ctor
              then Component Ctor (next_ref w) (construct_state Ctor props context) props context
              else Component Ctor (next_ref w) VUndefined props context).
  set (w1 := (allocate new (fresh w).2).2).
  assert (components w !! inst = None) as Hnew.
  { destruct (components w !! inst) eqn:Hc; [|done].
    assert (inst < next_ref w) by (apply Hstore; eauto). subst inst. lia. }
  assert (inst ∉ recyclerComponents w) as Hnotin.
  { intros Hin%Hpool. subst inst. lia. }
  assert (∀ c, c ≠ inst → components w1 !! c = components w !! c) as Hother.
  { intros c Hc. subst w1 inst. simpl. by rewrite lookup_insert_ne. }
  assert (scan_pool Ctor w1 (length (recyclerComponents w))
          = scan_pool Ctor w (length (recyclerComponents w))) as Hscan.
  { apply scan_pool_ext; [done|]. intros c Hc. apply Hother. by intros ->. }
  assert (createComponent Ctor props context w
          = match scan_pool Ctor w (length (recyclerComponents w)) with
            | Some i =>
                (inst,
                 with_recyclerComponents (delete i)
                   (with_component inst
                      (set_nextBase ((recyclerComponents w1 !! i ≫= λ c, components w1 !! c)
                                     ≫= nextBase)) w1))
            | None => (inst, w1)
            end) as ->.
  { rewrite <- Hscan. reflexivity. }
  pose proof (scan_pool_spec Ctor w (length (recyclerComponents w))) as Hspec.
  destruct (scan_pool Ctor w (length (recyclerComponents w))) as [i|]; simpl.
  - split; [done|]. split; [done|]. split; [|split; [done|split; [|done]]].
    + eexists. split; [by rewrite lookup_alter_eq, lookup_insert_eq|].
      subst new. repeat split; try (by destruct (prototype_render Ctor)).
      simpl. destruct (recyclerComponents w !! i) as [c|] eqn:Hi; simpl; [|done].
      rewrite lookup_insert_ne; [by destruct (components w !! c)|].
      intros <-. apply Hnotin. by eapply list_elem_of_lookup_2.
    + intros c Hc. rewrite lookup_alter_ne by done. by apply Hother.
  - split; [done|]. split; [done|]. split; [|split; [done|split; [|done]]].
    + eexists. split; [by rewrite lookup_insert_eq|].
      subst new. repeat split; by destruct (prototype_render Ctor).
    + done.
Qed.

Lemma createComponent_fresh_witness :
  (createComponent (plain_class 7) (VObj 3 []) (VObj 4 [])
     (quiet {[ 0 := pooled_instance (plain_class 7) 100 (VObj 1 [("count", VNum 5)]) ]} 2 [0])).1 = 3
  ∧ components (quiet {[ 0 := pooled_instance (plain_class 7) 100 (VObj 1 [("count", VNum 5)]) ]} 2 [0])
      !! (createComponent (plain_class 7) (VObj 3 []) (VObj 4 [])
            (quiet {[ 0 := pooled_instance (plain_class 7) 100 (VObj 1 [("count", VNum 5)]) ]} 2 [0])).1
    = None.
Proof.
  split; [reflexivity|].
  apply (createComponent_fresh (plain_class 7) (VObj 3 []) (VObj 4 [])
           (quiet {[ 0 := pooled_instance (plain_class 7) 100 (VObj 1 [("count", VNum 5)]) ]} 2 [0])).
  split; simpl.
  - intros c [component Hc]. destruct (decide (c = 0)) as [->|Hne]; [lia|].
    by rewrite lookup_singleton_ne in Hc.
  - intros c ->%list_elem_of_singleton. lia.
Defined.

(** C2, as stated, fails: with an unmounted instance of the constructor
    in the pool, the instance returned is a new one with a fresh empty
    state; the pooled instance leaves the pool, keeps its own state and
    gives only its [nextBase]. *)
Lemma createComponent_does_not_reuse_instance :
  recyclerComponents (quiet {[ 0 := pooled_instance (plain_class 7) 100 (VObj 1 [("count", VNum 5)]) ]} 2 [0])
  = [0]
  ∧ (createComponent (plain_class 7) (VObj 3 []) (VObj 4 [])
       (quiet {[ 0 := pooled_instance (plain_class 7) 100 (VObj 1 [("count", VNum 5)]) ]} 2 [0])).1
    ≠ 0
  ∧ state <$>
      (components
         (createComponent (plain_class 7) (VObj 3 []) (VObj 4 [])
            (quiet {[ 0 := pooled_instance (plain_class 7) 100 (VObj 1 [("count", VNum 5)]) ]} 2 [0])).2
       !! (createComponent (plain_class 7) (VObj 3 []) (VObj 4 [])
             (quiet {[ 0 := pooled_instance (plain_class 7) 100 (VObj 1 [("count", VNum 5)]) ]} 2 [0])).1)
    = Some (VObj 2 [])
  ∧ nextBase <$>
      (components
         (createComponent (plain_class 7) (VObj 3 []) (VObj 4 [])
            (quiet {[ 0 := pooled_instance (plain_class 7) 100 (VObj 1 [("count", VNum 5)]) ]} 2 [0])).2
       !! (createComponent (plain_class 7) (VObj 3 []) (VObj 4 [])
             (quiet {[ 0 := pooled_instance (plain_class 7) 100 (VObj 1 [("count", VNum 5)]) ]} 2 [0])).1)
    = Some (Some 100)
  ∧ recyclerComponents
      (createComponent (plain_class 7) (VObj 3 []) (VObj 4 [])
         (quiet {[ 0 := pooled_instance (plain_class 7) 100 (VObj 1 [("count", VNum 5)]) ]} 2 [0])).2
    = [].
Proof. repeat split; vm_compute; try reflexivity. discriminate. Qed.

(** * Further properties *)

(** ** Merging objects *)

Lemma field_set_field k k' v fields :
  field k (set_field k' v fields) = if String.eqb k k' then Some v else field k fields.
Proof.
  unfold field. induction fields as [|[k0 v0] fields IH]; simpl.
  - by destruct (String.eqb k k').
  - destruct (String.eqb_spec k0 k') as [->|Hne]; simpl.
    + by destruct (String.eqb k k').
    + destruct (String.eqb_spec k k0) as [->|Hk]; simpl.
      * destruct (String.eqb_spec k0 k'); [done|]. done.
      * apply IH.
Qed.

Lemma field_absent k (fields : list (string * value)) :
  k ∉ fields.*1 → field k fields = None.
Proof.
  unfold field. induction fields as [|[k0 v0] fields IH]; simpl; [done|].
  intros [Hne Hk]%not_elem_of_cons. destruct (String.eqb_spec k k0); [done|]. by apply IH.
Qed.

Lemma field_present k (fields : list (string * value)) :
  k ∈ fields.*1 → is_Some (field k fields).
Proof.
  unfold field. induction fields as [|[k0 v0] fields IH]; simpl; [by intros ?%elem_of_nil|].
  intros [->|Hk]%elem_of_cons.
  - rewrite String.eqb_refl. by eexists.
  - destruct (String.eqb k k0); [by eexists|]. by apply IH.
Qed.

Lemma field_foldl_set_field k acc (l : list (string * value)) :
  NoDup l.*1 →
  field k (foldl (λ fields kv, set_field kv.1 kv.2 fields) acc l)
  = match field k l with Some v => Some v | None => field k acc end.
Proof.
  revert acc. induction l as [|[k0 v0] l IH]; intros acc; simpl; [done|].
  intros [Hk0 Hnd]%NoDup_cons. rewrite IH by done. rewrite field_set_field.
  unfold field at 3. simpl. destruct (String.eqb_spec k k0) as [->|Hne]; simpl.
  - by rewrite field_absent.
  - done.
Qed.

Lemma set_field_keys k v (fields : list (string * value)) :
  (set_field k v fields).*1 = if decide (k ∈ fields.*1) then fields.*1 else fields.*1 ++ [k].
Proof.
  induction fields as [|[k0 v0] fields IH].
  - destruct (decide (k ∈ ([] : list (string * value)).*1)) as [Hin|_]; [|done].
    by apply elem_of_nil in Hin.
  - change (((k0, v0) :: fields).*1) with (k0 :: fields.*1).
    change (set_field k v ((k0, v0) :: fields))
      with (if String.eqb k0 k then (k0, v) :: fields else (k0, v0) :: set_field k v fields).
    destruct (String.eqb_spec k0 k) as [->|Hne].
    + destruct (decide (k ∈ k :: fields.*1)) as [_|Hnin]; [done|]. destruct Hnin. left.
    + change (((k0, v0) :: set_field k v fields).*1) with (k0 :: (set_field k v fields).*1).
      rewrite IH. destruct (decide (k ∈ fields.*1)) as [Hin|Hnin];
        destruct (decide (k ∈ k0 :: fields.*1)) as [Hin'|Hnin']; try done.
      * destruct Hnin'. by right.
      * apply elem_of_cons in Hin' as [->|?]; done.
Qed.

Lemma filter_agree {A} (P Q : A → Prop) `{!∀ x, Decision (P x), !∀ x, Decision (Q x)} (l : list A) :
  (∀ x, x ∈ l → P x ↔ Q x) → filter P l = filter Q l.
Proof.
  induction l as [|x l IH]; intros Hall; [done|].
  rewrite !filter_cons. rewrite IH by (intros y Hy; apply Hall; by right).
  destruct (decide (P x)) as [HP|HP], (decide (Q x)) as [HQ|HQ]; try done.
  - destruct HQ. apply Hall; [left|done].
  - destruct HP. apply Hall; [left|done].
Qed.

Lemma foldl_set_field_keys acc (l : list (string * value)) :
  NoDup l.*1 →
  (foldl (λ fields kv, set_field kv.1 kv.2 fields) acc l).*1
  = acc.*1 ++ filter (λ k, k ∉ acc.*1) l.*1.
Proof.
  revert acc. induction l as [|[k0 v0] l IH]; intros acc; simpl.
  - intros _. by rewrite app_nil_r.
  - intros [Hk0 Hnd]%NoDup_cons. rewrite IH by done. rewrite set_field_keys, filter_cons.
    destruct (decide (k0 ∈ acc.*1)) as [Hin|Hnin].
    + by rewrite decide_False by (by intros ?).
    + rewrite decide_True by done. rewrite <- app_assoc. simpl. do 2 f_equal.
      apply filter_agree. intros k Hk. rewrite elem_of_app, list_elem_of_singleton.
      split; [tauto|]. intros Hk' [?| ->]; done.
Qed.

Lemma filter_not_in_nil (ks : list string) : filter (λ k, k ∉ ([] : list string)) ks = ks.
Proof.
  induction ks as [|k ks IH]; [done|]. rewrite filter_cons.
  destruct (decide (k ∉ [])) as [_|Hn]; [by f_equal|]. destruct Hn. apply not_elem_of_nil.
Qed.

Lemma own_keys_extend_copy a ro o rp p :
  NoDup o.*1 → NoDup p.*1 →
  own_keys (extend_copy a (VObj ro o) (VObj rp p)) = o.*1 ++ filter (λ k, k ∉ o.*1) p.*1.
Proof.
  intros Ho Hp. unfold extend_copy, own_keys. cbn [entries].
  rewrite foldl_app.
  rewrite foldl_set_field_keys by done. rewrite foldl_set_field_keys by done.
  change (([] : list (string * value)).*1) with ([] : list string).
  by rewrite filter_not_in_nil.
Qed.

Lemma prop_extend_copy a ro o rp p k :
  NoDup o.*1 → NoDup p.*1 →
  prop (extend_copy a (VObj ro o) (VObj rp p)) k
  = if decide (k ∈ p.*1) then prop (VObj rp p) k else prop (VObj ro o) k.
Proof.
  intros Ho Hp. unfold extend_copy, prop. cbn [entries].
  rewrite foldl_app, !field_foldl_set_field by done.
  cbn [field List.find fmap option_fmap option_map].
  destruct (decide (k ∈ p.*1)) as [Hin|Hnin].
  - by destruct (field_present _ _ Hin) as [v ->].
  - rewrite (field_absent _ _ Hnin). by destruct (field k o).
Qed.

(** X1 ([extend], and the object spread of [mount]'s [setState]).  Copying
    [obj] and then [props] into a fresh object is a right-biased merge: a
    key of [props] reads as in [props], any other key as in [obj]; the
    keys of [obj] come first and in their order, followed by the keys
    that only [props] has, and no key occurs twice.  This is so for keys
    that are neither integer-like, which JavaScript would sort to the
    front, nor names of members of [Object.prototype]. *)
Theorem extend_copy_merge a ro o rp p :
  NoDup o.*1 → NoDup p.*1 →
  (∀ k, k ∈ o.*1 ++ p.*1 → ordinary_key k = true) →
  (∀ k, prop (extend_copy a (VObj ro o) (VObj rp p)) k
        = if decide (k ∈ p.*1) then prop (VObj rp p) k else prop (VObj ro o) k)
  ∧ own_keys (extend_copy a (VObj ro o) (VObj rp p)) = o.*1 ++ filter (λ k, k ∉ o.*1) p.*1
  ∧ NoDup (own_keys (extend_copy a (VObj ro o) (VObj rp p))).
Proof.
  intros Ho Hp _. split; [|split].
  - intros k. by apply prop_extend_copy.
  - by apply own_keys_extend_copy.
  - rewrite own_keys_extend_copy by done. apply NoDup_app. split; [done|]. split.
    + intros k Hk [Hnk _]%list_elem_of_filter. done.
    + by apply NoDup_filter.
Qed.

Lemma extend_copy_merge_witness :
  NoDup [("count", VNum 1); ("name", VStr "a")].*1
  ∧ NoDup [("name", VStr "b"); ("done", VBool true)].*1
  ∧ prop (extend_copy 5 (VObj 0 [("count", VNum 1); ("name", VStr "a")])
                        (VObj 1 [("name", VStr "b"); ("done", VBool true)])) "name"
    = VStr "b"
  ∧ own_keys (extend_copy 5 (VObj 0 [("count", VNum 1); ("name", VStr "a")])
                            (VObj 1 [("name", VStr "b"); ("done", VBool true)]))
    = ["count"; "name"; "done"].
Proof.
  assert (Ho : NoDup [("count", VNum 1); ("name", VStr "a")].*1)
    by (apply (bool_decide_unpack _); vm_compute; reflexivity).
  assert (Hp : NoDup [("name", VStr "b"); ("done", VBool true)].*1)
    by (apply (bool_decide_unpack _); vm_compute; reflexivity).
  assert (Hkeys' : ∀ k, k ∈ [("count", VNum 1); ("name", VStr "a")].*1
                          ++ [("name", VStr "b"); ("done", VBool true)].*1 →
                        ordinary_key k = true).
  { intros k Hk. simpl in Hk.
    repeat (apply elem_of_cons in Hk as [->|Hk]; [reflexivity|]).
    by apply elem_of_nil in Hk. }
  destruct (extend_copy_merge 5 0 [("count", VNum 1); ("name", VStr "a")]
              1 [("name", VStr "b"); ("done", VBool true)] Ho Hp Hkeys') as (Hprop & Hkeys & _).
  split; [exact Ho|]. split; [exact Hp|]. split.
  - rewrite Hprop. reflexivity.
  - rewrite Hkeys. reflexivity.
Defined.

(** ** Indexed properties *)

Lemma pretty_N_go_digits x s : all_digits s = true → all_digits (pretty_N_go x s) = true.
Proof.
  revert s. induction (N.lt_wf_0 x) as [x _ IH]; intros s Hs.
  assert (x = 0 ∨ 0 < x)%N as [->|Hpos] by lia.
  - by rewrite pretty_N_go_0.
  - rewrite pretty_N_go_step by done. apply IH; [by apply N.div_lt|].
    unfold all_digits in *. simpl. rewrite Hs, andb_true_r.
    unfold pretty_N_char. by repeat case_match.
Qed.

Lemma pretty_nat_digits (n : nat) : all_digits (pretty n) = true.
Proof.
  unfold pretty, pretty_nat, pretty, pretty_N. case_decide; [done|].
  by apply pretty_N_go_digits.
Qed.

Lemma field_imap_name {A} (f : A → value) k (xs : list A) :
  all_digits k = false → field k (imap (λ i x, (pretty i, f x)) xs) = None.
Proof.
  intros Hk. apply field_absent. intros (kv & -> & Hin)%list_elem_of_fmap.
  apply list_elem_of_lookup_1 in Hin as [i Hi]. rewrite list_lookup_imap in Hi.
  destruct (xs !! i); [|done]. simpl in Hi. injection Hi as <-. simpl in Hk.
  by rewrite pretty_nat_digits in Hk.
Qed.

Lemma field_imap_beyond {A} (f : A → value) (xs : list A) i :
  length xs ≤ i → field (pretty i) (imap (λ i x, (pretty i, f x)) xs) = None.
Proof.
  intros Hi. apply field_absent. intros (kv & Hk & Hin)%list_elem_of_fmap.
  apply list_elem_of_lookup_1 in Hin as [j Hj]. rewrite list_lookup_imap in Hj.
  destruct (xs !! j) eqn:Hx; [|done]. simpl in Hj. injection Hj as <-. simpl in Hk.
  apply (inj pretty) in Hk as ->. apply lookup_lt_Some in Hx. lia.
Qed.

(** A text node has no property with a name that is not an index, but
    for the [length] of a string. *)
Lemma prop_text v k :
  typeof v = "string" ∨ typeof v = "number" →
  all_digits k = false → k ≠ "length" →
  prop v k = VUndefined.
Proof.
  intros Htext Hk Hlen. unfold prop.
  assert (Hfield : field k (entries v) = None).
  { destruct v; simpl; try done; try (by destruct Htext).
    by apply (field_imap_name (λ c, VStr (String c ""))). }
  rewrite Hfield. apply String.eqb_neq in Hlen. by rewrite Hlen.
Qed.

(** Reading an array past its end gives [undefined]. *)
Lemma prop_array_beyond ref (items : list value) i :
  length items ≤ i → prop (VArr ref items) (pretty i) = VUndefined.
Proof.
  intros Hi. unfold prop. simpl.
  rewrite (field_imap_beyond (λ x, x)) by done.
  destruct (String.eqb_spec (pretty i) "length") as [Heq|_]; [|done].
  pose proof (pretty_nat_digits i) as Hd. by rewrite Heq in Hd.
Qed.

(** ** Nodes *)

Lemma concat_spread_flat cs :
  (∀ c ref items, c ∈ cs → c ≠ VArr ref items) → concat_spread cs = cs.
Proof.
  unfold concat_spread. induction cs as [|c cs IH]; intros Hflat; [done|].
  simpl. rewrite IH by (intros ????; eapply Hflat; by right).
  destruct c as [| | | | | | |r xs|]; try done. by destruct (Hflat (VArr r xs) r xs); [left|].
Qed.

(** X2 ([vNode], alias [h]).  Children handed over as one array are the
    children handed over one by one: an array argument none of whose
    elements is an array may be replaced by its elements, whatever
    arguments follow.  The arrays inside it would stay arrays, since only
    one level is collapsed. *)
Theorem h_array_argument a tagName attributes ref cs rest :
  (∀ c r items, c ∈ cs → c ≠ VArr r items) →
  h a tagName attributes (VArr ref cs :: rest) = h a tagName attributes (cs ++ rest)
  ∧ prop (h a tagName attributes (VArr ref cs :: rest)) "children"
    = VArr (a + 1) (cs ++ concat_spread rest).
Proof.
  intros Hflat.
  assert (Hspread : concat_spread (VArr ref cs :: rest) = concat_spread (cs ++ rest)).
  { unfold concat_spread. rewrite map_app, join_app. simpl. f_equal.
    symmetry. by apply concat_spread_flat. }
  split.
  - unfold h, vNode. simpl. by rewrite Hspread.
  - reflexivity.
Qed.

Lemma h_array_argument_witness :
  h 0 (VStr "ul") VUndefined [VArr 7 [VStr "a"; VNull]; VNum 2]
  = h 0 (VStr "ul") VUndefined [VStr "a"; VNull; VNum 2].
Proof.
  refine (proj1 (h_array_argument 0 (VStr "ul") VUndefined 7 [VStr "a"; VNull] [VNum 2] _)).
  intros c r items Hc ->. repeat (apply elem_of_cons in Hc as [Hc|Hc]; [discriminate Hc|]).
  by apply elem_of_nil in Hc.
Defined.

(** ** Comparing nodes *)

Lemma typeof_text_not_nullish v :
  typeof v = "string" ∨ typeof v = "number" → nullish v = false.
Proof. by destruct v; intros [?|?]. Qed.

Lemma strict_neq_typeof a b : typeof a ≠ typeof b → strict_neq a b = true.
Proof.
  intros Hty. unfold strict_neq, strict_eq.
  destruct (bool_decide_reflect (a = b)) as [->|_]; [done|]. by destruct a, b.
Qed.

Lemma changed_primitives node1 node2 :
  typeof node1 = "string" ∨ typeof node1 = "number" →
  typeof node2 = "string" ∨ typeof node2 = "number" →
  changed node1 node2 = Ok (strict_neq node1 node2).
Proof.
  intros Hty1 Hty2.
  unfold changed, nodeChanged, attributesChanged, get.
  rewrite (typeof_text_not_nullish _ Hty1), (typeof_text_not_nullish _ Hty2).
  rewrite !(prop_text node1), !(prop_text node2) by done. simpl.
  destruct (String.eqb_spec (typeof node1) (typeof node2)) as [Heq|Hne]; simpl.
  - assert (Htext : String.eqb (typeof node1) "string" || String.eqb (typeof node1) "number" = true).
    { destruct Hty1 as [-> | ->]; done. }
    rewrite Htext. simpl. by destruct (strict_neq node1 node2).
  - by rewrite strict_neq_typeof.
Qed.

(** X3 ([changed]).  Two text nodes (strings or numbers) are reported
    changed exactly when they are not strictly equal; so a [NaN] is
    changed against every text node, itself included, and two text
    nodes reported unchanged are the same text. *)
Theorem changed_text node1 node2 :
  typeof node1 = "string" ∨ typeof node1 = "number" →
  typeof node2 = "string" ∨ typeof node2 = "number" →
  changed node1 node2 = Ok (strict_neq node1 node2)
  ∧ (node1 = VNaN → changed node1 node2 = Ok true)
  ∧ (changed node1 node2 = Ok false → node1 = node2).
Proof.
  intros Hty1 Hty2. rewrite changed_primitives by done.
  split; [done|]. split.
  - by intros ->.
  - intros [= Hneq]. apply strict_eq_eq. unfold strict_neq in Hneq.
    by destruct (strict_eq node1 node2).
Qed.

Lemma changed_text_witness :
  changed (VStr "a") (VNum 1) = Ok true ∧ changed (VNum 1) (VNum 1) = Ok false.
Proof.
  split.
  - exact (proj1 (changed_text (VStr "a") (VNum 1) (or_introl eq_refl) (or_intror eq_refl))).
  - exact (proj1 (changed_text (VNum 1) (VNum 1) (or_intror eq_refl) (or_intror eq_refl))).
Defined.



(** ** Patching towards a new tree *)

Section reflecting.
Context `{Document}.

#[local] Arguments diff_child : simpl never.

Lemma createDomElement_element tagName attributes el :
  createDomElement tagName attributes = Ok el →
  ∃ tag attrs ls, el = Element tag attrs ls [].
Proof.
  unfold createDomElement, createElement.
  destruct (valid_element_name _); simpl; [|done].
  destruct (object_keys _) as [keys|]; simpl; [|done].
  apply (foldM_invariant (λ el, ∃ tag attrs ls, el = Element tag attrs ls [])); [|by eauto].
  intros acc key acc' (tag & attrs & ls & ->). destruct (String.eqb _ _).
  - intros [= <-]. simpl. eauto.
  - unfold setAttribute. destruct (valid_attribute_name key); [|done].
    intros [= <-]. eauto.
Qed.

(** A rendered element is the element created for its tag and attributes
    holding the renderings of the children. *)
Lemma render_element node d :
  nullish node = false →
  typeof node ≠ "string" → typeof node ≠ "number" →
  render node = Ok d →
  ∃ tag attrs ls ref children ds,
    createDomElement (prop node "tagName") (prop node "attributes") = Ok (Element tag attrs ls [])
    ∧ prop node "children" = VArr ref children
    ∧ Forall2 (λ c d, render c = Ok d) children ds
    ∧ d = Element tag attrs ls ds.
Proof.
  intros Hn Hs Hnum. rewrite render_unfold, Hn.
  apply String.eqb_neq in Hs, Hnum. rewrite Hs, Hnum. simpl.
  destruct (createDomElement _ _) as [el|] eqn:Hel; simpl; [|done].
  destruct (createDomElement_element _ _ _ Hel) as (tag & attrs & ls & ->).
  destruct (prop node "children") as [| | | | | | |ref children|] eqn:Hch; simpl; try done.
  intros Hfold. destruct (foldM_appendChild_inv _ _ _ Hfold) as (ds & Hall & _).
  rewrite (foldM_appendChild tag attrs ls [] children ds Hall) in Hfold.
  injection Hfold as <-. by exists tag, attrs, ls, ref, children, ds.
Qed.

Lemma changed_false_typeof old new : changed old new = Ok false → typeof old = typeof new.
Proof.
  unfold changed, nodeChanged.
  destruct (String.eqb_spec (typeof old) (typeof new)) as [|Hne]; [done|]. simpl.
  by destruct (attributesChanged old new).
Qed.

Lemma changed_false_text old new :
  typeof new = "string" ∨ typeof new = "number" → changed old new = Ok false → old = new.
Proof.
  intros Hty Hch. pose proof (changed_false_typeof _ _ Hch) as Heq.
  assert (Hty' : typeof old = "string" ∨ typeof old = "number") by (by rewrite Heq).
  rewrite (changed_primitives old new Hty' Hty) in Hch. injection Hch as Hneq. apply strict_eq_eq.
  unfold strict_neq in Hneq. by destruct (strict_eq old new).
Qed.

Lemma with_childNodes_twice p cs cs' :
  with_childNodes (with_childNodes p cs) cs' = with_childNodes p cs'.
Proof. by destruct p. Qed.

Lemma insert_take_drop {A} (l l' : list A) k x :
  l' !! k = Some x →
  <[k := x]> (take k l' ++ drop k l) = take (S k) l' ++ drop (S k) l
  ∨ length l ≤ k.
Proof.
  intros Hx. destruct (decide (k < length l)) as [Hk|Hk]; [left|right; lia].
  pose proof (lookup_lt_Some _ _ _ Hx) as Hk'.
  destruct (lookup_lt_is_Some_2 l k Hk) as [y Hy].
  rewrite (drop_S l y k Hy). rewrite (take_S_r l' k x Hx).
  rewrite <- app_assoc. simpl.
  rewrite insert_app_r_alt by (rewrite length_take; lia).
  rewrite length_take, Nat.min_l by lia. by rewrite Nat.sub_diag.
Qed.

Lemma get_children old ro olds i :
  nullish old = false →
  prop old "children" = VArr ro olds →
  (get old "children" ≫= λ oldChildren, get oldChildren (pretty i))
  = Ok (default VUndefined (olds !! i)).
Proof.
  intros Hn Hch. unfold get. rewrite Hn, Hch. simpl. f_equal.
  destruct (olds !! i) as [o|] eqn:Ho; simpl.
  - by apply prop_array_index.
  - apply prop_array_beyond. by apply lookup_ge_None.
Qed.

(** The rounds of the fourth case, told without the loop state of the
    model: the round for the [i]-th new child patches it against the
    [i]-th old child, with the live child at [index] as its parent and
    [i] as its index. *)
Lemma foldM_diff_child_rounds old ro olds index children :
  nullish old = false →
  prop old "children" = VArr ro olds →
  ∀ p log i,
    foldM (diff_child diff old index) (Some p, (log, i)) children
      ≫= (λ '(parent', (log', _)), Ok (parent', log'))
    = foldM (λ (st : dom * list mutation) (round : nat * value),
               '(child, ms) ← diff (childNodes st.1 !! index)
                                   (default VUndefined (olds !! round.1)) round.2 round.1;
               Ok (match child with
                   | Some c => with_childNodes st.1 (<[index := c]> (childNodes st.1))
                   | None => st.1
                   end,
                   st.2 ++ (Within index <$> ms)))
            (p, log) (imap (λ j c, (i + j, c)) children)
        ≫= (λ st, Ok (Some st.1, st.2)).
Proof.
  intros Hn Hch. induction children as [|c children IH]; intros p log i; [done|].
  rewrite foldM_cons, diff_child_live.
  pose proof (get_children old ro olds i Hn Hch) as Hget.
  destruct (get old "children") as [oldChildren|] eqn:Holdc; simpl in Hget; [|done].
  simpl. rewrite Hget. simpl. rewrite Nat.add_0_r.
  destruct (diff (childNodes p !! index) (default VUndefined (olds !! i)) c i)
    as [[child ms]|e]; simpl; [|done].
  rewrite IH. f_equal. f_equal. apply imap_ext. intros j x _. simpl. f_equal. lia.
Qed.

(** C3 (amended): [diff] takes the first of its cases that applies.  An
    absent old node: the new node is rendered and appended to the parent.
    Otherwise an absent new node: the live child at the index is removed.
    Otherwise, when [changed] reports true: the new node is rendered and
    replaces the live child at the index, whatever that child holds.
    Otherwise, when the new node has a truthy [tagName]: one round per
    child of the new node, in order; the round for the [i]-th new child
    calls [diff] with the live child at the index (as it is by then) as
    parent, the [i]-th child of the old node (undefined past its last
    child) as old node, that new child as new node and [i] as index, puts
    the parent so patched back at the index and adds the mutations made
    below it to the record.  And when the [tagName] is not truthy nothing
    is done. *)
Theorem diff_cases parent oldNode newNode index :
  (nullish oldNode = true →
     ∀ tag attrs ls children new,
       parent = Some (Element tag attrs ls children) → render newNode = Ok new →
       diff parent oldNode newNode index
       = Ok (Some (Element tag attrs ls (children ++ [new])), [AppendChild new]))
  ∧ (nullish oldNode = false → nullish newNode = true →
     ∀ p old,
       parent = Some p → childNodes p !! index = Some old →
       diff parent oldNode newNode index
       = Ok (Some (with_childNodes p (delete index (childNodes p))), [RemoveChild index]))
  ∧ (nullish oldNode = false → nullish newNode = false → changed oldNode newNode = Ok true →
     ∀ p old new,
       parent = Some p → childNodes p !! index = Some old → render newNode = Ok new →
       diff parent oldNode newNode index
       = Ok (Some (with_childNodes p (<[index := new]> (childNodes p))), [ReplaceChild new index]))
  ∧ (nullish oldNode = false → nullish newNode = false → changed oldNode newNode = Ok false →
     truthy (prop newNode "tagName") = true →
     ∀ p ro olds ref children,
       parent = Some p →
       prop oldNode "children" = VArr ro olds →
       prop newNode "children" = VArr ref children →
       diff parent oldNode newNode index
       = foldM (λ (st : dom * list mutation) (round : nat * value),
                  '(child, ms) ← diff (childNodes st.1 !! index)
                                      (default VUndefined (olds !! round.1)) round.2 round.1;
                  Ok (match child with
                      | Some c => with_childNodes st.1 (<[index := c]> (childNodes st.1))
                      | None => st.1
                      end,
                      st.2 ++ (Within index <$> ms)))
               (p, []) (imap (λ i c, (i, c)) children)
           ≫= (λ st, Ok (Some st.1, st.2)))
  ∧ (nullish oldNode = false → nullish newNode = false → changed oldNode newNode = Ok false →
     truthy (prop newNode "tagName") = false →
     diff parent oldNode newNode index = Ok (parent, [])).
Proof.
  split; [|split; [|split; [|split]]].
  - rewrite diff_unfold. intros -> tag attrs ls children new -> Hnew.
    unfold diff_append. simpl. by rewrite Hnew.
  - rewrite diff_unfold. intros -> -> p old -> Hold.
    unfold diff_remove, removeChildAt. simpl. by rewrite Hold.
  - rewrite diff_unfold. intros -> -> -> p old new -> Hold Hnew. simpl.
    unfold diff_replace, replaceChildAt. simpl. by rewrite Hnew, Hold.
  - intros Hno Hnn Hch Htag p ro olds ref children -> Holds Hnews.
    rewrite diff_unfold, Hno, Hnn, Hch. simpl. rewrite Htag, Hnews. simpl.
    apply (foldM_diff_child_rounds oldNode ro olds index children Hno Holds p [] 0).
  - rewrite diff_unfold. intros -> -> -> ->. done.
Qed.

Lemma foldM_diff_child_patch old ro olds index ptag pattrs pls pcs tag attrs ls ds ds' news :
  nullish old = false →
  prop old "children" = VArr ro olds →
  length olds ≤ length news →
  Forall2 (λ c d, render c = Ok d) olds ds →
  Forall2 (λ c d, render c = Ok d) news ds' →
  (∀ i o n, olds !! i = Some o → news !! i = Some n →
     ∀ p index d d', childNodes p !! index = Some d → render o = Ok d → render n = Ok d' →
       ∃ log, diff (Some p) o n index
              = Ok (Some (with_childNodes p (<[index := d']> (childNodes p))), log)) →
  index < length pcs →
  ∀ m k log, k + m = length news →
    ∃ log',
      foldM (diff_child diff old index)
        (Some (Element ptag pattrs pls
                 (<[index := Element tag attrs ls (take k ds' ++ drop k ds)]> pcs)), (log, k))
        (drop k news)
      = Ok (Some (Element ptag pattrs pls (<[index := Element tag attrs ls ds']> pcs)),
            (log', length news)).
Proof.
  intros Hn Hch Hlen Holds Hnews Hpairs Hindex.
  pose proof (Forall2_length _ _ _ Holds) as Hlds.
  pose proof (Forall2_length _ _ _ Hnews) as Hlds'.
  induction m as [|m IH]; intros k log Hk.
  - rewrite Nat.add_0_r in Hk. subst k. rewrite drop_all. simpl.
    rewrite take_ge, drop_ge, app_nil_r by lia. by eexists.
  - assert (Hlt : k < length news) by lia.
    destruct (lookup_lt_is_Some_2 news k Hlt) as [n Hnk].
    rewrite (drop_S news n k Hnk), foldM_cons, diff_child_live.
    pose proof (get_children old ro olds k Hn Hch) as Hget.
    destruct (get old "children") as [oldChildren|] eqn:Holdc; simpl in Hget; [|done].
    simpl. rewrite Hget. simpl.
    rewrite list_lookup_insert_eq by done.
    destruct (Forall2_lookup_l _ _ _ _ _ Hnews Hnk) as (d' & Hd' & Hrn).
    set (Ek := Element tag attrs ls (take k ds' ++ drop k ds)).
    assert (Hnext :
      ∃ ms, diff (Some Ek) (default VUndefined (olds !! k)) n k
            = Ok (Some (Element tag attrs ls (take (S k) ds' ++ drop (S k) ds)), ms)).
    { destruct (olds !! k) as [o|] eqn:Ho; simpl.
      - destruct (Forall2_lookup_l _ _ _ _ _ Holds Ho) as (d & Hd & Hro).
        assert (HEk : childNodes Ek !! k = Some d).
        { simpl. rewrite lookup_app_r by (rewrite length_take; lia).
          rewrite length_take, Nat.min_l by lia. rewrite Nat.sub_diag, lookup_drop.
          by rewrite Nat.add_0_r. }
        destruct (Hpairs k o n Ho Hnk Ek k d d' HEk Hro Hrn) as [ms Hms].
        exists ms. rewrite Hms. simpl.
        destruct (insert_take_drop ds ds' k d' Hd') as [->|Hge]; [done|].
        apply lookup_lt_Some in Hd. lia.
      - apply lookup_ge_None in Ho.
        exists [AppendChild d']. rewrite diff_unfold. simpl.
        unfold diff_append. simpl. rewrite Hrn. simpl.
        rewrite !drop_ge, !app_nil_r by lia. by rewrite (take_S_r ds' k d' Hd'). }
    destruct Hnext as [ms Hms]. rewrite Hms. simpl.
    rewrite list_insert_insert_eq. apply IH. lia.
Qed.

Lemma diff_patchable old new :
  patchable old new →
  ∀ p index d d',
    childNodes p !! index = Some d →
    render old = Ok d →
    render new = Ok d' →
    ∃ log, diff (Some p) old new index
           = Ok (Some (with_childNodes p (<[index := d']> (childNodes p))), log).
Proof.
  induction 1 as [old new Hno Hnn Hch
                 |old new Hno Hty Hch
                 |old new ro olds rn news Hno Hnn Hch Htag Hshell Holds Hnews Hlen _ IH];
    intros p index d d' Hd Hro Hrn; rewrite diff_unfold, Hno.
  - rewrite Hnn, Hch. simpl. unfold diff_replace, replaceChildAt. simpl.
    rewrite Hrn. simpl. rewrite Hd. by eexists.
  - rewrite (typeof_text_not_nullish _ Hty), Hch. simpl.
    rewrite (prop_text new "tagName") by done. simpl.
    pose proof (changed_false_text _ _ Hty Hch) as ->.
    assert (d' = d) as -> by congruence.
    rewrite with_childNodes_id by done. by eexists.
  - rewrite Hnn, Hch. simpl. rewrite Htag, Hnews. simpl.
    assert (Hnt : typeof new ≠ "string" ∧ typeof new ≠ "number").
    { split; intros Hty; rewrite (prop_text new "tagName") in Htag; auto; discriminate Htag. }
    destruct Hnt as [Hns Hnnum].
    pose proof (changed_false_typeof _ _ Hch) as Hty.
    destruct (render_element new d' Hnn Hns Hnnum Hrn)
      as (tag & attrs & ls & rn' & news' & ds' & Hel' & Hnews' & Hall' & ->).
    destruct (render_element old d Hno ltac:(by rewrite Hty) ltac:(by rewrite Hty) Hro)
      as (tag0 & attrs0 & ls0 & ro' & olds' & ds & Hel & Holds' & Hall & ->).
    rewrite Hnews in Hnews'. injection Hnews' as <- <-.
    rewrite Holds in Holds'. injection Holds' as <- <-.
    rewrite Hshell, Hel' in Hel. injection Hel as <- <- <-.
    destruct p as [|ptag pattrs pls pcs]; [done|]. simpl in Hd. simpl.
    destruct (foldM_diff_child_patch old ro olds index ptag pattrs pls pcs tag attrs ls ds ds' news
                Hno Holds Hlen Hall Hall' IH (lookup_lt_Some _ _ _ Hd)
                (length news) 0 [] eq_refl) as [log' Hfold].
    rewrite take_0, !drop_0 in Hfold. simpl in Hfold.
    rewrite (list_insert_id pcs index _ Hd) in Hfold.
    rewrite Hfold. simpl. by eexists.
Qed.

(** X5 ([diff]).  On a pair of trees that [diff] can follow, patching
    the rendering of the old tree gives the rendering of the new one:
    the call returns, the child of [$parent] at [index] is then the
    rendering of the new tree, and [$parent] has as many children as
    before, the others being the ones it had. *)
Theorem diff_reflects_new old new p index d d' :
  patchable old new →
  childNodes p !! index = Some d →
  render old = Ok d →
  render new = Ok d' →
  ∃ p' log,
    diff (Some p) old new index = Ok (Some p', log)
    ∧ childNodes p' !! index = Some d'
    ∧ length (childNodes p') = length (childNodes p)
    ∧ ∀ k, k ≠ index → childNodes p' !! k = childNodes p !! k.
Proof.
  intros Hp Hd Hro Hrn.
  destruct (diff_patchable old new Hp p index d d' Hd Hro Hrn) as [log Hdiff].
  exists (with_childNodes p (<[index := d']> (childNodes p))), log.
  split; [done|]. rewrite (childNodes_with_childNodes p index d _ Hd).
  split; [|split].
  - apply list_lookup_insert_eq. by apply lookup_lt_Some in Hd.
  - by rewrite length_insert.
  - intros k Hk. by apply list_lookup_insert_ne.
Qed.

End reflecting.

Lemma diff_cases_witness :
  diff (H := html) (Some (Element "p" [] [] [Text "a"])) VNull (VStr "b") 0
  = Ok (Some (Element "p" [] [] [Text "a"; Text "b"]), [AppendChild (Text "b")])
  ∧ diff (H := html) (Some (Element "p" [] [] [Text "a"; Text "b"])) (VStr "b") VNull 1
    = Ok (Some (Element "p" [] [] [Text "a"]), [RemoveChild 1])
  ∧ diff (H := html) (Some (Element "p" [] [] [Text "a"])) (VStr "a") (VStr "b") 0
    = Ok (Some (Element "p" [] [] [Text "b"]), [ReplaceChild (Text "b") 0])
  ∧ diff (H := html) (Some (Element "p" [] [] [Text "a"])) (VStr "a") (VStr "a") 0
    = Ok (Some (Element "p" [] [] [Text "a"]), [])
  ∧ diff (H := html)
      (Some (Element "div" [] []
               [Element "ul" [] [] [Text "x"; Element "li" [] [] [Text "a"; Text "b"]]]))
      (h 0 (VStr "ul") VUndefined [VStr "x"; h 10 (VStr "li") VUndefined [VStr "a"; VStr "b"]])
      (h 20 (VStr "ul") VUndefined [VStr "x"; h 30 (VStr "li") VUndefined [VStr "a"; VStr "c"]])
      0
    = Ok (Some (Element "div" [] []
                  [Element "ul" [] [] [Text "x"; Element "li" [] [] [Text "a"; Text "c"]]]),
          [Within 0 (Within 1 (ReplaceChild (Text "c") 1))]).
Proof.
  pose proof (diff_cases (H := html)) as Hc.
  split; [|split; [|split; [|split]]].
  - apply (proj1 (Hc (Some (Element "p" [] [] [Text "a"])) VNull (VStr "b") 0)
             eq_refl "p" [] [] [Text "a"] (Text "b")); reflexivity.
  - apply (proj1 (proj2 (Hc (Some (Element "p" [] [] [Text "a"; Text "b"])) (VStr "b") VNull 1))
             eq_refl eq_refl (Element "p" [] [] [Text "a"; Text "b"]) (Text "b")); reflexivity.
  - apply (proj1 (proj2 (proj2 (Hc (Some (Element "p" [] [] [Text "a"])) (VStr "a") (VStr "b") 0)))
             eq_refl eq_refl eq_refl (Element "p" [] [] [Text "a"]) (Text "a") (Text "b"));
      reflexivity.
  - apply (proj2 (proj2 (proj2 (proj2
             (Hc (Some (Element "p" [] [] [Text "a"])) (VStr "a") (VStr "a") 0)))));
      reflexivity.
  - etrans.
    + apply (proj1 (proj2 (proj2 (proj2
               (Hc (Some (Element "div" [] []
                            [Element "ul" [] [] [Text "x"; Element "li" [] [] [Text "a"; Text "b"]]]))
                   (h 0 (VStr "ul") VUndefined
                      [VStr "x"; h 10 (VStr "li") VUndefined [VStr "a"; VStr "b"]])
                   (h 20 (VStr "ul") VUndefined
                      [VStr "x"; h 30 (VStr "li") VUndefined [VStr "a"; VStr "c"]])
                   0))))
               eq_refl eq_refl eq_refl eq_refl
               (Element "div" [] []
                  [Element "ul" [] [] [Text "x"; Element "li" [] [] [Text "a"; Text "b"]]])
               1 [VStr "x"; h 10 (VStr "li") VUndefined [VStr "a"; VStr "b"]]
               21 [VStr "x"; h 30 (VStr "li") VUndefined [VStr "a"; VStr "c"]]
               eq_refl eq_refl eq_refl).
    + vm_compute. reflexivity.
Defined.

Lemma diff_reflects_new_witness :
  patchable (H := html)
    (h 0 (VStr "ul") VUndefined [VStr "a"; h 10 (VStr "li") VUndefined [VStr "x"]])
    (h 20 (VStr "ul") VUndefined
       [VStr "b"; h 30 (VStr "li") VUndefined [VStr "x"; VStr "y"]; VNum 3])
  ∧ ∃ p' log,
      diff (H := html)
        (Some (Element "div" [] []
                 [Element "ul" [] [] [Text "a"; Element "li" [] [] [Text "x"]]; Text "footer"]))
        (h 0 (VStr "ul") VUndefined [VStr "a"; h 10 (VStr "li") VUndefined [VStr "x"]])
        (h 20 (VStr "ul") VUndefined
           [VStr "b"; h 30 (VStr "li") VUndefined [VStr "x"; VStr "y"]; VNum 3])
        0
      = Ok (Some p', log)
      ∧ childNodes p' !! 0
        = Some (Element "ul" [] [] [Text "b"; Element "li" [] [] [Text "x"; Text "y"]; Text "3"]).
Proof.
  assert (Hp : patchable (H := html)
    (h 0 (VStr "ul") VUndefined [VStr "a"; h 10 (VStr "li") VUndefined [VStr "x"]])
    (h 20 (VStr "ul") VUndefined
       [VStr "b"; h 30 (VStr "li") VUndefined [VStr "x"; VStr "y"]; VNum 3])).
  { eapply (patchable_element (H := html) _ _ 1
              [VStr "a"; h 10 (VStr "li") VUndefined [VStr "x"]] 21
              [VStr "b"; h 30 (VStr "li") VUndefined [VStr "x"; VStr "y"]; VNum 3]);
      try (vm_compute; reflexivity).
    - simpl. lia.
    - intros [|[|i]] o n Ho Hn; simpl in Ho, Hn; [| |discriminate Ho].
      + injection Ho as <-. injection Hn as <-.
        apply patchable_changed; vm_compute; reflexivity.
      + injection Ho as <-. injection Hn as <-.
        eapply (patchable_element (H := html) _ _ 11 [VStr "x"] 31 [VStr "x"; VStr "y"]);
          try (vm_compute; reflexivity).
        * simpl. lia.
        * intros [|i] o n Ho Hn; simpl in Ho, Hn; [|discriminate Ho].
          injection Ho as <-. injection Hn as <-.
          apply patchable_text; [reflexivity|by left|vm_compute; reflexivity]. }
  split; [exact Hp|].
  destruct (diff_reflects_new (H := html) _ _
              (Element "div" [] []
                 [Element "ul" [] [] [Text "a"; Element "li" [] [] [Text "x"]]; Text "footer"])
              0
              (Element "ul" [] [] [Text "a"; Element "li" [] [] [Text "x"]])
              (Element "ul" [] [] [Text "b"; Element "li" [] [] [Text "x"; Text "y"]; Text "3"])
              Hp eq_refl eq_refl eq_refl) as (p' & log & Hdiff & Hchild & _).
  exists p', log. split; [exact Hdiff|exact Hchild].
Defined.

(** ** Rendering *)

Section rejecting.
Context `{Document}.



End rejecting.


(** ** Mounted views *)

Section mounted.
Context `{Document}.
Variable view : value → value.

(** X7 ([mount], and the [mount] of the bundled demo).  Mounting into an
    element puts the rendering of the view first among the children: an
    existing first child is replaced by it, while the bundled [mount]
    keeps every child behind it.  The state and the tree are the ones
    handed in and rendered.  Mounting into a text node fails, since a
    text node takes no child. *)
Theorem mount_first_child s d :
  render (view s) = Ok d →
  (∀ tag attrs ls cs,
     mount view (Element tag attrs ls cs) s
     = Ok {| app_root := Element tag attrs ls (d :: tail cs); app_state := s;
             app_vDom := view s |}
     ∧ mount_prepend view (Element tag attrs ls cs) s
       = Ok {| app_root := Element tag attrs ls (d :: cs); app_state := s;
               app_vDom := view s |})
  ∧ (∀ data, mount view (Text data) s = Throw HierarchyRequestError
             ∧ mount_prepend view (Text data) s = Throw TypeError)
  ∧ (∀ root this, mount view root s = Ok this ∨ mount_prepend view root s = Ok this →
                  shows this).
Proof.
  intros Hd.
  assert (Hel : ∀ tag attrs ls cs,
     mount view (Element tag attrs ls cs) s
     = Ok {| app_root := Element tag attrs ls (d :: tail cs); app_state := s;
             app_vDom := view s |}
     ∧ mount_prepend view (Element tag attrs ls cs) s
       = Ok {| app_root := Element tag attrs ls (d :: cs); app_state := s;
               app_vDom := view s |}).
  { intros tag attrs ls cs. unfold mount, mount_prepend. rewrite Hd.
    by destruct cs. }
  assert (Htext : ∀ data, mount view (Text data) s = Throw HierarchyRequestError
                          ∧ mount_prepend view (Text data) s = Throw TypeError).
  { intros data. unfold mount, mount_prepend. by rewrite Hd. }
  split; [done|]. split; [done|].
  intros [data|tag attrs ls cs] this Hthis.
  - destruct (Htext data) as [H1 H2]. rewrite H1, H2 in Hthis. by destruct Hthis.
  - destruct (Hel tag attrs ls cs) as [H1 H2]. rewrite H1, H2 in Hthis.
    exists d. by destruct Hthis as [[= <-]|[= <-]].
Qed.

(** X8 ([setState] of [mount]).  Where the old and the new tree are a
    pair that [diff] can follow, patching and rendering anew end in the
    same live tree: the first child of the root is the rendering of the
    view on the merged state, the other children are untouched, and the
    new tree is remembered. *)
Theorem setState_diffing_agrees a partial this d' :
  shows this →
  patchable (app_vDom this) (view (extend_copy a (app_state this) partial)) →
  render (view (extend_copy a (app_state this) partial)) = Ok d' →
  mount_setState view true a partial this = mount_setState view false a partial this
  ∧ mount_setState view true a partial this
    = Ok {| app_root := with_childNodes (app_root this) (<[0 := d']> (childNodes (app_root this)));
            app_state := extend_copy a (app_state this) partial;
            app_vDom := view (extend_copy a (app_state this) partial) |}
  ∧ ∀ this', mount_setState view true a partial this = Ok this' → shows this'.
Proof.
  intros (d & Hd & Hfirst) Hp Hd'.
  destruct (diff_patchable _ _ Hp (app_root this) 0 d d' Hfirst Hd Hd') as [log Hdiff].
  assert (Hpatch : mount_setState view true a partial this
    = Ok {| app_root := with_childNodes (app_root this) (<[0 := d']> (childNodes (app_root this)));
            app_state := extend_copy a (app_state this) partial;
            app_vDom := view (extend_copy a (app_state this) partial) |}).
  { unfold mount_setState. simpl. by rewrite Hdiff. }
  split; [|split].
  - rewrite Hpatch. unfold mount_setState, replaceChildAt. simpl. by rewrite Hd', Hfirst.
  - done.
  - intros this'. rewrite Hpatch. intros [= <-]. exists d'. split; [done|]. simpl.
    destruct (app_root this) as [|tag attrs ls cs]; [done|]. simpl in *.
    apply list_lookup_insert_eq. by apply lookup_lt_Some in Hfirst.
Qed.

(** X9 ([act] of [mountWithActions]).  An action that returns nothing
    (or any falsy value) leaves the application as it is: the state is
    kept, and since the view gives the tree it gave before, on a settled
    tree that the live tree shows no node is touched. *)
Theorem act_without_effect event action this :
  app_vDom this = view (app_state this) →
  settled (app_vDom this) →
  shows this →
  truthy (action (app_state this) event) = false →
  act view event action this = Ok this.
Proof.
  intros Hview Hsettled (d & Hd & Hfirst) Hfalsy. unfold act, or_else. rewrite Hfalsy.
  rewrite <- Hview. rewrite (diff_same_rendered _ Hsettled _ 0 d Hfirst Hd). simpl.
  by destruct this.
Qed.

End mounted.

Lemma mount_first_child_witness :
  mount (H := html) counter_view (Element "div" [] [] [Text "loading"; Text "footer"])
    (VObj 1 [("count", VNum 1)])
  = Ok {| app_root := Element "div" [] [] [Element "p" [] [] [Text "1"]; Text "footer"];
          app_state := VObj 1 [("count", VNum 1)];
          app_vDom := counter_view (VObj 1 [("count", VNum 1)]) |}.
Proof.
  refine (proj1 (proj1 (mount_first_child (H := html) counter_view (VObj 1 [("count", VNum 1)])
                          (Element "p" [] [] [Text "1"]) _)
                   "div" [] [] [Text "loading"; Text "footer"])).
  vm_compute; reflexivity.
Defined.

Lemma setState_diffing_agrees_witness :
  mount_setState (H := html) counter_view true 5 (VObj 2 [("count", VNum 2)])
    {| app_root := Element "div" [] [] [Element "p" [] [] [Text "1"]; Text "footer"];
       app_state := VObj 1 [("count", VNum 1)];
       app_vDom := counter_view (VObj 1 [("count", VNum 1)]) |}
  = Ok {| app_root := Element "div" [] [] [Element "p" [] [] [Text "2"]; Text "footer"];
          app_state := VObj 5 [("count", VNum 2)];
          app_vDom := counter_view (VObj 5 [("count", VNum 2)]) |}.
Proof.
  refine (proj1 (proj2 (setState_diffing_agrees (H := html) counter_view 5
                          (VObj 2 [("count", VNum 2)])
                          {| app_root := Element "div" [] [] [Element "p" [] [] [Text "1"]; Text "footer"];
                             app_state := VObj 1 [("count", VNum 1)];
                             app_vDom := counter_view (VObj 1 [("count", VNum 1)]) |}
                          (Element "p" [] [] [Text "2"]) _ _ _))).
  - exists (Element "p" [] [] [Text "1"]). split; vm_compute; reflexivity.
  - eapply (patchable_element (H := html) _ _ 11 [VNum 1] 51 [VNum 2]);
      try (vm_compute; reflexivity).
    intros [|i] o n Ho Hn; simpl in Ho, Hn; [|discriminate Ho].
    injection Ho as <-. injection Hn as <-.
    apply patchable_changed; vm_compute; reflexivity.
  - vm_compute; reflexivity.
Defined.

Lemma act_without_effect_witness :
  act (H := html) counter_view (VObj 9 []) (λ _ _, VUndefined)
    {| app_root := Element "div" [] [] [Element "p" [] [] [Text "1"]];
       app_state := VObj 1 [("count", VNum 1)];
       app_vDom := counter_view (VObj 1 [("count", VNum 1)]) |}
  = Ok {| app_root := Element "div" [] [] [Element "p" [] [] [Text "1"]];
          app_state := VObj 1 [("count", VNum 1)];
          app_vDom := counter_view (VObj 1 [("count", VNum 1)]) |}.
Proof.
  refine (act_without_effect (H := html) counter_view (VObj 9 []) (λ _ _, VUndefined)
            {| app_root := Element "div" [] [] [Element "p" [] [] [Text "1"]];
               app_state := VObj 1 [("count", VNum 1)];
               app_vDom := counter_view (VObj 1 [("count", VNum 1)]) |} _ _ _ _).
  - reflexivity.
  - eapply (settled_element _ 11 [VNum 1]); [reflexivity|discriminate|reflexivity|reflexivity|].
    intros c [->|[]%elem_of_nil]%elem_of_cons.
    apply settled_leaf; [reflexivity|discriminate|discriminate|reflexivity].
  - exists (Element "p" [] [] [Text "1"]). split; vm_compute; reflexivity.
  - reflexivity.
Defined.

(** ** Observables *)

Lemma calls_of_app callback calls1 calls2 :
  calls_of callback (calls1 ++ calls2) = calls_of callback calls1 ++ calls_of callback calls2.
Proof. unfold calls_of. by rewrite filter_app, fmap_app. Qed.

Lemma calls_of_nil callback : calls_of callback [] = [].
Proof. reflexivity. Qed.

Lemma calls_of_cons callback l args calls :
  calls_of callback ((l, args) :: calls)
  = if decide (l = callback) then args :: calls_of callback calls else calls_of callback calls.
Proof.
  unfold calls_of. rewrite filter_cons. simpl. by destruct (decide (l = callback)).
Qed.

Lemma calls_of_others callback (f : nat → list value) (listeners : list nat) :
  callback ∉ listeners →
  calls_of callback ((λ notify, (notify, f notify)) <$> listeners) = [].
Proof.
  induction listeners as [|l listeners IH]; [done|].
  intros [Hne Hnin]%not_elem_of_cons.
  rewrite fmap_cons, calls_of_cons, decide_False by done. by apply IH.
Qed.

Lemma calls_of_notified callback args (listeners : list nat) :
  callback ∈ listeners →
  last (calls_of callback ((λ notify, (notify, args)) <$> listeners)) = Some args.
Proof.
  induction listeners as [|l listeners IH]; [by intros ?%elem_of_nil|].
  intros Hin. rewrite fmap_cons, calls_of_cons.
  destruct (decide (l = callback)) as [->|Hne].
  - rewrite last_cons. destruct (decide (callback ∈ listeners)) as [Hin'|Hnin].
    + by rewrite IH.
    + by rewrite (calls_of_others callback (λ _, args)).
  - apply elem_of_cons in Hin as [->|Hin]; [done|]. by apply IH.
Qed.

(** X10 ([Observable]).  However values were set and callbacks
    registered, every registered callback is up to date: the last call it
    received carried the current value as the new one. *)
Theorem Observable_listeners_current item steps callback :
  callback ∈ obs_listeners (foldl Observable_step (Observable item) steps) →
  ∃ old,
    last (calls_of callback (obs_calls (foldl Observable_step (Observable item) steps)))
    = Some [Observable_get (foldl Observable_step (Observable item) steps); old].
Proof.
  set (current o := ∀ cb, cb ∈ obs_listeners o →
                          ∃ old, last (calls_of cb (obs_calls o)) = Some [obs_item o; old]).
  assert (Hstep : ∀ o s, current o → current (Observable_step o s)).
  { intros o [newItem|cb0] Ho cb; simpl.
    - unfold Observable_set. destruct (strict_eq (obs_item o) newItem); [by apply Ho|].
      simpl. intros Hcb. exists (obs_item o).
      by rewrite calls_of_app, last_app, calls_of_notified.
    - unfold Observable_onChange. simpl. intros Hcb. rewrite calls_of_app.
      destruct (decide (cb = cb0)) as [->|Hne].
      + exists (obs_item o). rewrite calls_of_cons, decide_True, calls_of_nil by done.
        by rewrite last_snoc.
      + apply elem_of_app in Hcb as [Hcb|Hcb%list_elem_of_singleton]; [|done].
        destruct (Ho cb Hcb) as [old Hold]. exists old.
        rewrite calls_of_cons, decide_False, calls_of_nil by (by intros ?).
        by rewrite app_nil_r. }
  assert (Hrun : ∀ o, current o → current (foldl Observable_step o steps)).
  { induction steps as [|s steps IH]; intros o Ho; [done|]. simpl. by apply IH, Hstep. }
  apply Hrun. by intros cb ?%elem_of_nil.
Qed.

Lemma Observable_listeners_current_witness :
  ∃ old,
    last (calls_of 7 (obs_calls (foldl Observable_step (Observable (VStr ""))
                                   [OnChange 7; SetItem (VStr "a"); OnChange 8; SetItem (VStr "a");
                                    SetItem (VNum 2)])))
    = Some [Observable_get (foldl Observable_step (Observable (VStr ""))
                              [OnChange 7; SetItem (VStr "a"); OnChange 8; SetItem (VStr "a");
                               SetItem (VNum 2)]);
            old].
Proof.
  refine (Observable_listeners_current (VStr "")
            [OnChange 7; SetItem (VStr "a"); OnChange 8; SetItem (VStr "a"); SetItem (VNum 2)]
            7 _).
  vm_compute. apply list_elem_of_here.
Defined.

(** ** Observable lists *)

Lemma indexOf_from_absent i item (list : list value) :
  (∀ y, y ∈ list → strict_eq y item = false) → indexOf_from i item list = (-1)%Z.
Proof.
  revert i. induction list as [|x list IH]; intros i Hall; [done|]. simpl.
  rewrite (Hall x) by left. apply IH. intros y Hy. apply Hall. by right.
Qed.

Lemma indexOf_from_found i item (pre : list value) x post :
  (∀ y, y ∈ pre → strict_eq y item = false) →
  strict_eq x item = true →
  indexOf_from i item (pre ++ x :: post) = Z.of_nat (i + length pre).
Proof.
  revert i. induction pre as [|y pre IH]; intros i Hpre Hx; simpl.
  - rewrite Hx. f_equal. lia.
  - rewrite (Hpre y) by left. rewrite IH; [f_equal; lia| |done].
    intros z Hz. apply Hpre. by right.
Qed.

Lemma indexOf_from_cases i item (list : list value) :
  (indexOf_from i item list = (-1)%Z ∧ ∀ y, y ∈ list → strict_eq y item = false)
  ∨ ∃ pre x post,
      list = pre ++ x :: post
      ∧ (∀ y, y ∈ pre → strict_eq y item = false)
      ∧ strict_eq x item = true
      ∧ indexOf_from i item list = Z.of_nat (i + length pre).
Proof.
  revert i. induction list as [|x list IH]; intros i.
  - left. split; [done|]. by intros y ?%elem_of_nil.
  - simpl. destruct (strict_eq x item) eqn:Hx.
    + right. exists [], x, list. split; [done|]. split; [by intros y ?%elem_of_nil|].
      split; [done|]. f_equal. simpl. lia.
    + destruct (IH (S i)) as [[Hnone Hall]|(pre & x' & post & -> & Hpre & Hx' & Hi)].
      * left. split; [done|]. by intros y [->|Hy]%elem_of_cons; [|apply Hall].
      * right. exists (x :: pre), x', post. split; [done|].
        split; [by intros y [->|Hy]%elem_of_cons; [|apply Hpre]|].
        split; [done|]. rewrite Hi. f_equal. simpl. lia.
Qed.

(** X11 ([ObservableList]: [indexOf], [get], [count]).  [indexOf] gives
    [-1] exactly when no element is strictly equal to the item, so always
    for [NaN]; otherwise it gives the least index whose element is
    strictly equal to the item, which is below [count]. *)
Theorem ObservableList_indexOf_least item o :
  (ObservableList_indexOf item o = (-1)%Z
   ↔ ∀ y, y ∈ ObservableList_getAll o → strict_eq y item = false)
  ∧ (∀ i, ObservableList_indexOf item o = Z.of_nat i →
          i < ObservableList_count o
          ∧ strict_eq (ObservableList_get i o) item = true
          ∧ ∀ j, j < i → strict_eq (ObservableList_get j o) item = false)
  ∧ (-1 <= ObservableList_indexOf item o)%Z
  ∧ ObservableList_indexOf VNaN o = (-1)%Z.
Proof.
  unfold ObservableList_indexOf, ObservableList_getAll, ObservableList_count, ObservableList_get,
    indexOf.
  destruct (indexOf_from_cases 0 item (ol_list o))
    as [[Hnone Hall]|(pre & x & post & Hlist & Hpre & Hx & Hi)].
  - split; [done|]. split; [intros i; rewrite Hnone; lia|]. split; [lia|].
    apply indexOf_from_absent. intros y _. by destruct y.
  - split; [|split; [|split]].
    + split; [rewrite Hi; lia|]. intros Hall. rewrite Hlist in Hall.
      rewrite (Hall x) in Hx; [done|]. apply elem_of_app. right. left.
    + intros i. rewrite Hi. intros Heq. assert (i = length pre) as -> by lia.
      rewrite Hlist. split; [|split].
      * rewrite length_app. simpl. lia.
      * by rewrite list_lookup_middle.
      * intros j Hj. rewrite lookup_app_l by done.
        destruct (lookup_lt_is_Some_2 pre j Hj) as [y Hy]. rewrite Hy. simpl.
        apply Hpre. by eapply list_elem_of_lookup_2.
    + rewrite Hi. lia.
    + apply indexOf_from_absent. intros y _. by destruct y.
Qed.

Lemma ObservableList_indexOf_least_witness :
  ObservableList_indexOf (VStr "b") (ObservableList [VStr "a"; VStr "b"; VStr "b"]) = 1%Z
  ∧ 1 < ObservableList_count (ObservableList [VStr "a"; VStr "b"; VStr "b"])
  ∧ strict_eq (ObservableList_get 1 (ObservableList [VStr "a"; VStr "b"; VStr "b"])) (VStr "b") = true.
Proof.
  split; [reflexivity|].
  destruct (proj1 (proj2 (ObservableList_indexOf_least (VStr "b")
                            (ObservableList [VStr "a"; VStr "b"; VStr "b"]))) 1 eq_refl)
    as (Hlt & Heq & _).
  split; [exact Hlt|exact Heq].
Defined.

(** X12 ([ObservableList]: [remove], [replace]).  [remove] takes out the
    first element strictly equal to the item and [replace] overwrites
    it, and both leave every other element where it is; with no such
    element the list stays as it is.  Either way every listener
    registered for the operation is called once, in the order of
    registration, also when nothing was removed or replaced. *)
Theorem ObservableList_first_occurrence item newItem o :
  (∀ pre x post,
     ol_list o = pre ++ x :: post →
     (∀ y, y ∈ pre → strict_eq y item = false) →
     strict_eq x item = true →
     ObservableList_getAll (ObservableList_remove item o) = pre ++ post
     ∧ ObservableList_getAll (ObservableList_replace item newItem o) = pre ++ newItem :: post)
  ∧ ((∀ y, y ∈ ol_list o → strict_eq y item = false) →
     ObservableList_getAll (ObservableList_remove item o) = ol_list o
     ∧ ObservableList_getAll (ObservableList_replace item newItem o) = ol_list o)
  ∧ ol_calls (ObservableList_remove item o)
    = ol_calls o ++ ((λ listener, (listener, [item])) <$> ol_removeListeners o)
  ∧ ol_calls (ObservableList_replace item newItem o)
    = ol_calls o ++ ((λ listener, (listener, [newItem; item])) <$> ol_replaceListeners o)
  ∧ ObservableList_count (ObservableList_replace item newItem o) = ObservableList_count o.
Proof.
  unfold ObservableList_getAll, ObservableList_remove, ObservableList_replace,
    ObservableList_count, indexOf. simpl.
  split; [|split; [|split; [|split]]]; try done.
  - intros pre x post Hlist Hpre Hx.
    rewrite Hlist, (indexOf_from_found 0 item pre x post Hpre Hx). simpl.
    destruct (Z.leb_spec 0 (Z.of_nat (length pre))) as [_|]; [|lia].
    rewrite Nat2Z.id. split.
    + rewrite delete_middle. done.
    + by rewrite insert_app_r_alt, Nat.sub_diag by lia.
  - intros Hall. by rewrite (indexOf_from_absent 0 item _ Hall).
  - destruct (0 <=? _)%Z; [|done]. by rewrite length_insert.
Qed.

Lemma ObservableList_first_occurrence_witness :
  ObservableList_getAll
    (ObservableList_remove (VNum 2) (ObservableList [VNum 1; VNum 2; VNum 3; VNum 2]))
  = [VNum 1; VNum 3; VNum 2]
  ∧ ObservableList_getAll
      (ObservableList_replace (VNum 2) (VStr "two") (ObservableList [VNum 1; VNum 2; VNum 3; VNum 2]))
    = [VNum 1; VStr "two"; VNum 3; VNum 2].
Proof.
  refine (proj1 (ObservableList_first_occurrence (VNum 2) (VStr "two")
                   (ObservableList [VNum 1; VNum 2; VNum 3; VNum 2]))
            [VNum 1] (VNum 2) [VNum 3; VNum 2] eq_refl _ eq_refl).
  intros y [->|[]%elem_of_nil]%elem_of_cons. reflexivity.
Defined.

(** X13 ([ObservableList]: [add] then [remove]).  Removing an item just
    added gives back the list as it was, if the list held no element
    strictly equal to the item and the item is not [NaN]; a [NaN] once
    added is never removed. *)
Theorem ObservableList_add_remove item o :
  ((∀ y, y ∈ ol_list o → strict_eq y item = false) →
   item ≠ VNaN →
   ObservableList_getAll (ObservableList_remove item (ObservableList_add item o))
   = ObservableList_getAll o)
  ∧ (item = VNaN →
     ObservableList_getAll (ObservableList_remove item (ObservableList_add item o))
     = ObservableList_getAll o ++ [item]).
Proof.
  unfold ObservableList_getAll, ObservableList_remove, ObservableList_add, indexOf. simpl.
  split.
  - intros Hall Hnan.
    rewrite (indexOf_from_found 0 item (ol_list o) item [] Hall (strict_eq_refl _ Hnan)). simpl.
    destruct (Z.leb_spec 0 (Z.of_nat (length (ol_list o)))) as [_|]; [|lia].
    rewrite Nat2Z.id, delete_middle. by rewrite app_nil_r.
  - intros ->. rewrite indexOf_from_absent; [done|]. intros y _. by destruct y.
Qed.

Lemma ObservableList_add_remove_witness :
  ObservableList_getAll
    (ObservableList_remove (VStr "c") (ObservableList_add (VStr "c") (ObservableList [VStr "a"; VStr "b"])))
  = [VStr "a"; VStr "b"]
  ∧ ObservableList_getAll
      (ObservableList_remove VNaN (ObservableList_add VNaN (ObservableList [VStr "a"])))
    = [VStr "a"; VNaN].
Proof.
  split.
  - refine (proj1 (ObservableList_add_remove (VStr "c") (ObservableList [VStr "a"; VStr "b"])) _ _).
    + intros y [->|[->|[]%elem_of_nil]%elem_of_cons]%elem_of_cons; reflexivity.
    + discriminate.
  - exact (proj2 (ObservableList_add_remove VNaN (ObservableList [VStr "a"])) eq_refl).
Defined.

Lemma countIf_from pred (list : list value) n :
  foldl (λ sum item, if truthy (pred item) then sum + 1 else sum) n list
  = n + length (filter (λ item, truthy (pred item) = true) list).
Proof.
  revert n. induction list as [|x list IH]; intros n; simpl; [lia|].
  rewrite IH, filter_cons.
  destruct (decide (truthy (pred x) = true)) as [Ht|Hf].
  - rewrite Ht. simpl. lia.
  - apply not_true_is_false in Hf. by rewrite Hf.
Qed.

(** X14 ([ObservableList]: [countIf]).  [countIf] counts the elements on
    which the predicate gives a truthy value: never more than [count],
    all of them exactly when the predicate holds of every element, and
    one more after adding an item of which it holds. *)
Theorem ObservableList_countIf_counts pred o :
  ObservableList_countIf pred o
  = length (filter (λ item, truthy (pred item) = true) (ObservableList_getAll o))
  ∧ ObservableList_countIf pred o ≤ ObservableList_count o
  ∧ (ObservableList_countIf pred o = ObservableList_count o
     ↔ ∀ item, item ∈ ObservableList_getAll o → truthy (pred item) = true)
  ∧ ∀ item, ObservableList_countIf pred (ObservableList_add item o)
            = ObservableList_countIf pred o + (if truthy (pred item) then 1 else 0).
Proof.
  unfold ObservableList_countIf, ObservableList_count, ObservableList_getAll.
  rewrite countIf_from. simpl. split; [done|]. split; [apply length_filter|]. split.
  - split.
    + intros Hlen item Hitem.
      assert (Hall : filter (λ item, truthy (pred item) = true) (ol_list o) = ol_list o).
      { clear Hitem. induction (ol_list o) as [|x l IH]; [done|].
        rewrite filter_cons in Hlen |- *. destruct (decide (truthy (pred x) = true)).
        - simpl in Hlen. f_equal. apply IH. lia.
        - pose proof (length_filter (λ item, truthy (pred item) = true) l). simpl in Hlen. lia. }
      rewrite <- Hall in Hitem. by apply list_elem_of_filter in Hitem as [? _].
    + intros Hall. f_equal. induction (ol_list o) as [|x l IH]; [done|].
      rewrite filter_cons, decide_True by (apply Hall; left).
      f_equal. apply IH. intros item Hitem. apply Hall. by right.
  - intros item. simpl. rewrite countIf_from, filter_app, length_app. simpl.
    rewrite filter_cons.
    destruct (decide (truthy (pred item) = true)) as [Ht|Hf].
    + by rewrite Ht.
    + apply not_true_is_false in Hf. by rewrite Hf.
Qed.

Lemma ObservableList_countIf_counts_witness :
  ObservableList_countIf (λ item, VBool (strict_eq item (VNum 1)))
    (ObservableList_add (VNum 1) (ObservableList [VNum 1; VNum 2]))
  = ObservableList_countIf (λ item, VBool (strict_eq item (VNum 1))) (ObservableList [VNum 1; VNum 2])
    + 1.
Proof.
  exact (proj2 (proj2 (proj2 (ObservableList_countIf_counts
                                (λ item, VBool (strict_eq item (VNum 1)))
                                (ObservableList [VNum 1; VNum 2])))) (VNum 1)).
Defined.

(** ** Observable objects *)

Lemma set_field_fresh k v (fields : list (string * value)) :
  k ∉ fields.*1 → set_field k v fields = fields ++ [(k, v)].
Proof.
  induction fields as [|[k0 v0] fields IH]; [done|].
  intros [Hne Hk]%not_elem_of_cons. simpl.
  destruct (String.eqb_spec k0 k) as [->|_]; [done|]. by rewrite IH.
Qed.

Lemma foldl_set_field_fresh acc (l : list (string * value)) :
  NoDup (acc.*1 ++ l.*1) →
  foldl (λ fields kv, set_field kv.1 kv.2 fields) acc l = acc ++ l.
Proof.
  revert acc. induction l as [|[k v] l IH]; intros acc Hnd; simpl.
  - by rewrite app_nil_r.
  - simpl in Hnd. apply NoDup_app in Hnd as (Hacc & Hdisj & [Hk Hl]%NoDup_cons).
    rewrite set_field_fresh by (intros Hin; apply (Hdisj k Hin); left).
    rewrite IH; [by rewrite <- app_assoc|].
    rewrite fmap_app. simpl. rewrite <- app_assoc. simpl.
    apply NoDup_app. split; [done|]. split; [|by apply NoDup_cons].
    intros k' Hk'. by apply Hdisj.
Qed.

Lemma elem_of_foldl_set_field_keys k acc (l : list (string * value)) :
  k ∈ (foldl (λ fields kv, set_field kv.1 kv.2 fields) acc l).*1 ↔ k ∈ acc.*1 ∨ k ∈ l.*1.
Proof.
  revert acc. induction l as [|[k0 v0] l IH]; intros acc; simpl.
  - split; [by left|]. by intros [?|?%elem_of_nil].
  - rewrite IH, set_field_keys, elem_of_cons.
    destruct (decide (k0 ∈ acc.*1)) as [Hin|Hnin].
    + split; [tauto|]. intros [?|[->|?]]; tauto.
    + rewrite elem_of_app, list_elem_of_singleton. tauto.
Qed.

Lemma elem_of_own_keys_extend_copy k a obj props :
  k ∈ own_keys (extend_copy a obj props) ↔ k ∈ own_keys obj ∨ k ∈ own_keys props.
Proof.
  unfold extend_copy, own_keys. cbn [entries].
  rewrite elem_of_foldl_set_field_keys, fmap_app, elem_of_app.
  split; [by intros [?%elem_of_nil|?]|by right].
Qed.

Lemma NoDup_own_keys_extend_copy a ro o rp p :
  NoDup o.*1 → NoDup p.*1 → NoDup (own_keys (extend_copy a (VObj ro o) (VObj rp p))).
Proof.
  intros Ho Hp. rewrite own_keys_extend_copy by done. apply NoDup_app. split; [done|]. split.
  - intros k Hk [Hnk _]%list_elem_of_filter. done.
  - by apply NoDup_filter.
Qed.

(** With an old object that is not null or undefined, the loop over the
    keys makes the calls of the subscribers of every key whose value
    differs, one key after the other. *)
Lemma notify_keys_live oldObject newObject subscribers keys calls :
  nullish oldObject = false →
  notify_keys oldObject newObject subscribers keys calls
  = (calls ++ mjoin ((λ key,
                        if strict_eq (prop oldObject key) (prop newObject key) then []
                        else (λ subscriber, (subscriber, [prop newObject key; prop oldObject key]))
                               <$> default [] (subscribers !! key)) <$> keys),
     None).
Proof.
  intros Hn. revert calls. induction keys as [|key keys IH]; intros calls; simpl.
  - by rewrite app_nil_r.
  - unfold get. rewrite Hn, IH.
    destruct (strict_eq (prop oldObject key) (prop newObject key)); [done|].
    by rewrite <- app_assoc.
Qed.

Lemma mjoin_nothing {A} (g : string → list A) (keys : list string) :
  (∀ k, k ∈ keys → g k = []) → mjoin (g <$> keys) = [].
Proof.
  induction keys as [|k keys IH]; intros Hg; [done|].
  rewrite fmap_cons. change (mjoin (g k :: (g <$> keys))) with (g k ++ mjoin (g <$> keys)). rewrite (Hg k) by left. simpl. apply IH.
  intros k' Hk'. apply Hg. by right.
Qed.

Lemma mjoin_single {A} (g : string → list A) key (keys : list string) :
  NoDup keys → key ∈ keys →
  (∀ k, k ∈ keys → k ≠ key → g k = []) →
  mjoin (g <$> keys) = g key.
Proof.
  induction keys as [|k keys IH]; [by intros _ ?%elem_of_nil|].
  intros [Hk Hnd]%NoDup_cons Hin Hg. rewrite fmap_cons. change (mjoin (g k :: (g <$> keys))) with (g k ++ mjoin (g <$> keys)).
  destruct (decide (k = key)) as [->|Hne].
  - rewrite mjoin_nothing; [by rewrite app_nil_r|].
    intros k Hin'. apply Hg; [by right|]. by intros ->.
  - rewrite (Hg k); [|left|done]. simpl.
    apply elem_of_cons in Hin as [->|Hin]; [done|].
    apply IH; [done|done|]. intros k' Hk' Hne'. apply Hg; [by right|done].
Qed.

Lemma loose_eq_object_fresh r fields a fields' :
  a ≠ r → loose_eq_object (VObj r fields) (VObj a fields') = false.
Proof.
  intros Hne. unfold loose_eq_object, strict_eq. apply bool_decide_eq_false.
  intros [= -> _]. done.
Qed.

(** X15 ([ObservableObject]: [push]).  Pushing a value under a key of an
    object that holds no [NaN] calls the subscribers of that key, with
    the new and the old value, if the value is not strictly equal to the
    one held before, and no other subscriber; after them it calls every
    listener with the new and the old object, whether or not the value
    differs.  The key and the keys of the object are neither integer-like
    nor names of members of [Object.prototype]. *)
Theorem ObservableObject_push_notifies a key v o r fields :
  oo_object o = VObj r fields →
  NoDup fields.*1 →
  a ≠ r →
  (∀ k, prop (VObj r fields) k ≠ VNaN) →
  (∀ k, k ∈ key :: fields.*1 → ordinary_key k = true) →
  ObservableObject_push a key v o
  = ({| oo_object := extend_copy a (VObj r fields) (VObj (a + 1) [(key, v)]);
        oo_listeners := oo_listeners o;
        oo_subscribers := oo_subscribers o;
        oo_calls :=
          (oo_calls o
           ++ (if strict_eq (prop (VObj r fields) key) v then []
               else (λ subscriber, (subscriber, [v; prop (VObj r fields) key]))
                      <$> default [] (oo_subscribers o !! key)))
          ++ ((λ listener,
                 (listener, [extend_copy a (VObj r fields) (VObj (a + 1) [(key, v)]);
                             VObj r fields]))
                <$> oo_listeners o) |},
     None).
Proof.
  intros Hobj Hnd Hfresh Hnan _. unfold ObservableObject_push, ObservableObject_notify.
  rewrite Hobj. unfold extend_copy at 1. rewrite loose_eq_object_fresh by done.
  rewrite notify_keys_live by done.
  assert (Hkey : NoDup [(key, v)].*1) by (apply NoDup_singleton).
  rewrite (mjoin_single _ key).
  - rewrite (prop_extend_copy a r fields (a + 1) [(key, v)] key Hnd Hkey).
    rewrite decide_True by (simpl; left).
    assert (Hv : prop (VObj (a + 1) [(key, v)]) key = v).
    { unfold prop, field. simpl. by rewrite String.eqb_refl. }
    by rewrite Hv.
  - by apply NoDup_own_keys_extend_copy.
  - apply elem_of_own_keys_extend_copy. right. simpl. left.
  - intros k _ Hne.
    rewrite (prop_extend_copy a r fields (a + 1) [(key, v)] k Hnd Hkey).
    rewrite decide_False by (simpl; by intros ?%list_elem_of_singleton).
    rewrite strict_eq_refl; [done|]. apply Hnan.
Qed.

Lemma ObservableObject_push_notifies_witness :
  oo_calls
    (ObservableObject_push 10 "name" (VStr "b")
       {| oo_object := VObj 1 [("name", VStr "a"); ("age", VNum 3)];
          oo_listeners := [7];
          oo_subscribers := {[ "name" := [8]; "age" := [9] ]};
          oo_calls := [] |}).1
  = [(8, [VStr "b"; VStr "a"]);
     (7, [VObj 10 [("name", VStr "b"); ("age", VNum 3)];
          VObj 1 [("name", VStr "a"); ("age", VNum 3)]])].
Proof.
  rewrite (ObservableObject_push_notifies 10 "name" (VStr "b")
             {| oo_object := VObj 1 [("name", VStr "a"); ("age", VNum 3)];
                oo_listeners := [7];
                oo_subscribers := {[ "name" := [8]; "age" := [9] ]};
                oo_calls := [] |}
             1 [("name", VStr "a"); ("age", VNum 3)] eq_refl).
  - vm_compute. reflexivity.
  - apply (bool_decide_unpack _). vm_compute. reflexivity.
  - lia.
  - intros k. unfold prop, field. simpl.
    destruct (String.eqb k "name"); [discriminate|].
    destruct (String.eqb k "age"); [discriminate|].
    destruct (String.eqb k "length"); discriminate.
  - intros k Hk. simpl in Hk.
    repeat (apply elem_of_cons in Hk as [->|Hk]; [reflexivity|]).
    by apply elem_of_nil in Hk.
Defined.

Lemma ObservableObject_notify_object newObject o :
  oo_object (ObservableObject_notify newObject o).1 = oo_object o
  ∨ oo_object (ObservableObject_notify newObject o).1 = newObject.
Proof.
  unfold ObservableObject_notify. destruct (loose_eq_object _ _); [by left|].
  destruct (notify_keys _ _ _ _ _) as [calls [e|]]; by right.
Qed.

Lemma ObservableObject_notify_fresh r fields a fields' o :
  oo_object o = VObj r fields → a ≠ r →
  oo_object (ObservableObject_notify (VObj a fields') o).1 = VObj a fields'
  ∧ (ObservableObject_notify (VObj a fields') o).2 = None.
Proof.
  intros Hobj Hfresh. unfold ObservableObject_notify.
  rewrite Hobj, loose_eq_object_fresh by done.
  by rewrite notify_keys_live.
Qed.

(** X16 ([ObservableObject]: [set], [push], [remove], [replace]).  No
    operation takes a key away from the object: a key the object has
    before, it has afterwards (a key that is not the name of a member of
    [Object.prototype]).  In particular [remove] of a key that,
    like the keys of the object, is neither integer-like nor the name of
    a member of [Object.prototype], leaves the key in place, holding
    [undefined], and the other keys with their values. *)
Theorem ObservableObject_keeps_keys a key v newObject o :
  (∀ k, k ∈ own_keys (ObservableObject_get o) →
        inherited k = false →
        k ∈ own_keys (ObservableObject_get (ObservableObject_set a newObject o).1)
        ∧ k ∈ own_keys (ObservableObject_get (ObservableObject_push a key v o).1)
        ∧ k ∈ own_keys (ObservableObject_get (ObservableObject_remove a key o).1)
        ∧ k ∈ own_keys (ObservableObject_get (ObservableObject_replace a newObject o).1))
  ∧ (∀ r fields,
       oo_object o = VObj r fields → NoDup fields.*1 → a ≠ r →
       (∀ k, k ∈ key :: fields.*1 → ordinary_key k = true) →
       (ObservableObject_remove a key o).2 = None
       ∧ key ∈ own_keys (ObservableObject_get (ObservableObject_remove a key o).1)
       ∧ prop (ObservableObject_get (ObservableObject_remove a key o).1) key = VUndefined
       ∧ ∀ k, k ≠ key →
              prop (ObservableObject_get (ObservableObject_remove a key o).1) k
              = prop (VObj r fields) k).
Proof.
  unfold ObservableObject_get. split.
  - intros k Hk _.
    assert (Hmerge : ∀ props,
      k ∈ own_keys (oo_object (ObservableObject_notify (extend_copy a (oo_object o) props) o).1)).
    { intros props. destruct (ObservableObject_notify_object (extend_copy a (oo_object o) props) o)
        as [-> | ->]; [done|]. apply elem_of_own_keys_extend_copy. by left. }
    split; [apply Hmerge|]. split; [apply Hmerge|]. split; [apply Hmerge|].
    unfold ObservableObject_replace.
    destruct (ObservableObject_notify_object
                (extend_copy a
                   (VObj (a + 1) ((λ kv, (kv.1, VUndefined))
                      <$> entries (extend_copy (a + 1) (VObj (a + 1) []) (oo_object o))))
                   newObject) o) as [-> | ->]; [done|].
    apply elem_of_own_keys_extend_copy. left. unfold own_keys at 1. cbn [entries].
    rewrite <- list_fmap_compose.
    change (fst ∘ (λ kv : string * value, (kv.1, VUndefined))) with (fst : string * value → string).
    apply (elem_of_own_keys_extend_copy k (a + 1) (VObj (a + 1) []) (oo_object o)). by right.
  - intros r fields Hobj Hnd Hfresh _. unfold ObservableObject_remove. rewrite Hobj.
    unfold extend_copy at 1 2 3 4.
    destruct (ObservableObject_notify_fresh r fields a
                (foldl (λ fields kv, set_field kv.1 kv.2 fields) []
                   (entries (VObj r fields) ++ entries (VObj (a + 1) [(key, VUndefined)])))
                o Hobj Hfresh) as [-> ->].
    fold (extend_copy a (VObj r fields) (VObj (a + 1) [(key, VUndefined)])).
    assert (Hkey : NoDup [(key, VUndefined)].*1) by (apply NoDup_singleton).
    split; [done|]. split; [|split].
    + apply elem_of_own_keys_extend_copy. right. simpl. left.
    + rewrite (prop_extend_copy a r fields (a + 1) [(key, VUndefined)] key Hnd Hkey).
      rewrite decide_True by (simpl; left).
      unfold prop, field. simpl. by rewrite String.eqb_refl.
    + intros k Hne.
      rewrite (prop_extend_copy a r fields (a + 1) [(key, VUndefined)] k Hnd Hkey).
      by rewrite decide_False by (simpl; by intros ?%list_elem_of_singleton).
Qed.

Lemma ObservableObject_keeps_keys_witness :
  own_keys (ObservableObject_get
              (ObservableObject_remove 10 "name"
                 (ObservableObject (VObj 1 [("name", VStr "a"); ("age", VNum 3)]))).1)
  = ["name"; "age"]
  ∧ prop (ObservableObject_get
            (ObservableObject_remove 10 "name"
               (ObservableObject (VObj 1 [("name", VStr "a"); ("age", VNum 3)]))).1) "name"
    = VUndefined.
Proof.
  split; [vm_compute; reflexivity|].
  refine (proj1 (proj2 (proj2
            (proj2 (ObservableObject_keeps_keys 10 "name" VNull VNull
                      (ObservableObject (VObj 1 [("name", VStr "a"); ("age", VNum 3)])))
               1 [("name", VStr "a"); ("age", VNum 3)] eq_refl _ _ _)))).
  - apply (bool_decide_unpack _). vm_compute. reflexivity.
  - lia.
  - intros k Hk. simpl in Hk.
    repeat (apply elem_of_cons in Hk as [->|Hk]; [reflexivity|]).
    by apply elem_of_nil in Hk.
Defined.

(** X17 ([ObservableObject]: [replace]).  After replacing, the object
    reads as the new object on the keys of the new object and as
    [undefined] on every other key that is not the name of a member of
    [Object.prototype]; the keys it had stay, in their order, before the
    keys that are new.  The keys of both objects are neither integer-like
    nor names of members of [Object.prototype]. *)
Theorem ObservableObject_replace_resets a o r fields rn news :
  oo_object o = VObj r fields →
  NoDup fields.*1 → NoDup news.*1 →
  a ≠ r →
  (∀ k, k ∈ fields.*1 ++ news.*1 → ordinary_key k = true) →
  (ObservableObject_replace a (VObj rn news) o).2 = None
  ∧ (∀ k, inherited k = false →
          prop (ObservableObject_get (ObservableObject_replace a (VObj rn news) o).1) k
          = if decide (k ∈ news.*1) then prop (VObj rn news) k else VUndefined)
  ∧ own_keys (ObservableObject_get (ObservableObject_replace a (VObj rn news) o).1)
    = fields.*1 ++ filter (λ k, k ∉ fields.*1) news.*1.
Proof.
  intros Hobj Hnd Hnews Hfresh _. unfold ObservableObject_get, ObservableObject_replace.
  rewrite Hobj.
  assert (Hcopy : entries (extend_copy (a + 1) (VObj (a + 1) []) (VObj r fields)) = fields).
  { unfold extend_copy. cbn [entries]. simpl. by apply (foldl_set_field_fresh []). }
  rewrite Hcopy.
  set (emptied := (λ kv : string * value, (kv.1, VUndefined)) <$> fields).
  assert (Hkeys : emptied.*1 = fields.*1).
  { unfold emptied. rewrite <- list_fmap_compose. done. }
  assert (Hnd' : NoDup emptied.*1) by (by rewrite Hkeys).
  unfold extend_copy at 1 2 3.
  destruct (ObservableObject_notify_fresh r fields a
              (foldl (λ fields kv, set_field kv.1 kv.2 fields) []
                 (entries (VObj (a + 1) emptied) ++ entries (VObj rn news)))
              o Hobj Hfresh) as [-> ->].
  fold (extend_copy a (VObj (a + 1) emptied) (VObj rn news)).
  split; [done|]. split.
  - intros k _. rewrite (prop_extend_copy a (a + 1) emptied rn news k Hnd' Hnews).
    destruct (decide (k ∈ news.*1)); [done|].
    unfold prop. cbn [entries].
    destruct (field k emptied) as [x|] eqn:Hx.
    + unfold field in Hx. destruct (List.find _ emptied) as [[k' x']|] eqn:Hfind; [|done].
      simpl in Hx. injection Hx as <-. apply List.find_some in Hfind as [Hin _].
      apply list_elem_of_In in Hin. unfold emptied in Hin.
      apply list_elem_of_fmap in Hin as (kv & [= _ ->] & _). done.
    + by destruct (String.eqb k "length").
  - by rewrite (own_keys_extend_copy a (a + 1) emptied rn news Hnd' Hnews), Hkeys.
Qed.

Lemma ObservableObject_replace_resets_witness :
  prop (ObservableObject_get
          (ObservableObject_replace 10 (VObj 2 [("age", VNum 4)])
             (ObservableObject (VObj 1 [("name", VStr "a"); ("age", VNum 3)]))).1) "name"
  = VUndefined
  ∧ own_keys (ObservableObject_get
                (ObservableObject_replace 10 (VObj 2 [("age", VNum 4)])
                   (ObservableObject (VObj 1 [("name", VStr "a"); ("age", VNum 3)]))).1)
    = ["name"; "age"].
Proof.
  assert (Hnd : NoDup [("name", VStr "a"); ("age", VNum 3)].*1)
    by (apply (bool_decide_unpack _); vm_compute; reflexivity).
  assert (Hnews : NoDup [("age", VNum 4)].*1)
    by (apply (bool_decide_unpack _); vm_compute; reflexivity).
  assert (Hfresh : 10 ≠ 1) by lia.
  assert (Hordinary : ∀ k, k ∈ [("name", VStr "a"); ("age", VNum 3)].*1 ++ [("age", VNum 4)].*1 →
                           ordinary_key k = true).
  { intros k Hk. simpl in Hk.
    repeat (apply elem_of_cons in Hk as [->|Hk]; [reflexivity|]).
    by apply elem_of_nil in Hk. }
  destruct (ObservableObject_replace_resets 10
              (ObservableObject (VObj 1 [("name", VStr "a"); ("age", VNum 3)]))
              1 [("name", VStr "a"); ("age", VNum 3)] 2 [("age", VNum 4)]
              eq_refl Hnd Hnews Hfresh Hordinary) as (_ & Hprop & Hkeys).
  split.
  - rewrite Hprop by reflexivity. reflexivity.
  - rewrite Hkeys. reflexivity.
Defined.

(** ** Flushing the dirty queue *)

Lemma runRenderCallbacks_flags c w :
  items (runRenderCallbacks c w) = items w
  ∧ deferred (runRenderCallbacks c w) = deferred w
  ∧ ∀ c', flags (runRenderCallbacks c w) c' = flags w c'.
Proof.
  unfold runRenderCallbacks. destruct (components w !! c) as [component|] eqn:Hc; [|done].
  generalize (reverse (_renderCallbacks component)). intros callbacks.
  assert (∀ w0, items (foldl (λ w callback, emit (RenderCallback c callback) w) w0 callbacks)
                = items w0
                ∧ deferred (foldl (λ w callback, emit (RenderCallback c callback) w) w0 callbacks)
                  = deferred w0
                ∧ components (foldl (λ w callback, emit (RenderCallback c callback) w) w0 callbacks)
                  = components w0) as Hfold.
  { induction callbacks as [|callback callbacks IH]; intros w0; simpl; [done|].
    destruct (IH (emit (RenderCallback c callback) w0)) as (-> & -> & ->). done. }
  destruct (Hfold (with_component c (set_renderCallbacks []) w)) as (Hi & Hd & Hcs).
  split; [by rewrite Hi|]. split; [by rewrite Hd|].
  intros c'. unfold flags. rewrite Hcs. simpl.
  destruct (decide (c' = c)) as [->|Hne].
  - by rewrite lookup_alter_eq, Hc.
  - by rewrite lookup_alter_ne.
Qed.

Lemma flushMounts_deferred w : deferred (flushMounts w) = deferred w.
Proof.
  unfold flushMounts. simpl. generalize (mounts w). intros cs. revert w.
  induction cs as [|c cs IH]; intros w; simpl; [done|].
  destruct (components w !! c) as [component|]; [|apply IH].
  destruct (has_method componentDidMount component); [|apply IH].
  by rewrite IH.
Qed.

Section flushing.
Context `{Reconciler}.

(** A render leaves the queue and the flags of the other instances as
    they are, and clears the dirty flag of its instance unless that is
    disabled. *)
Lemma renderComponent_flags c renderMode mountAll isChild w :
  keeps_flags →
  items (renderComponent c renderMode mountAll isChild w) = items w
  ∧ ∀ c', flags (renderComponent c renderMode mountAll isChild w) c'
          = if decide (c' = c)
            then (λ f : bool * bool, (f.1 && f.2, f.2)) <$> flags w c
            else flags w c'.
Proof.
  intros Hrec. unfold renderComponent.
  destruct (components w !! c) as [component|] eqn:Hc.
  2:{ split; [done|]. intros c'. destruct (decide (c' = c)) as [->|]; [|done].
      unfold flags. by rewrite Hc. }
  destruct (_disable component) eqn:Hdisable.
  { split; [done|]. intros c'. destruct (decide (c' = c)) as [->|]; [|done].
    unfold flags. rewrite Hc. simpl. by rewrite Hdisable, andb_true_r. }
  destruct (derive_state c component w) as [s w1] eqn:Hderive.
  assert (items w1 = items w ∧ components w1 = components w) as [Hi1 Hc1].
  { unfold derive_state in Hderive.
    destruct (getDerivedStateFromProps (constructor component)); by injection Hderive as <- <-. }
  destruct (should_skip c component renderMode s w1) as [skip w2] eqn:Hskip.
  assert (items w2 = items w1 ∧ components w2 = components w1) as [Hi2 Hc2].
  { unfold should_skip in Hskip.
    repeat (match type of Hskip with
            | context [match ?x with _ => _ end] => destruct x
            end; simpl in Hskip);
      by injection Hskip as <- <-. }
  set (target := λ c', if decide (c' = c)
                       then (λ f : bool * bool, (f.1 && f.2, f.2)) <$> flags w c
                       else flags w c').
  set (w3 := with_component c (settle s) w2).
  assert (items w3 = items w ∧ ∀ c', flags w3 c' = target c') as [Hi3 Hf3].
  { subst w3 target. split; [simpl; by rewrite Hi2, Hi1|].
    intros c'. unfold flags. simpl. rewrite Hc2, Hc1.
    destruct (decide (c' = c)) as [->|Hne].
    - rewrite lookup_alter_eq, Hc. simpl. by rewrite Hdisable, andb_false_r.
    - by rewrite lookup_alter_ne. }
  set (w4 := if skip then w3 else render_and_reconcile c component renderMode s mountAll isChild w3).
  assert (items w4 = items w ∧ ∀ c', flags w4 c' = target c') as [Hi4 Hf4].
  { subst w4. destruct skip; [done|]. unfold render_and_reconcile.
    destruct (method getChildContext component);
      destruct (base component); destruct (method getSnapshotBeforeUpdate component);
      simpl;
      match goal with
      | |- context [reconcile c ?a ?b ?d ?e ?f ?g ?h ?w0] =>
          split; [destruct (Hrec c a b d e f g h w0 0) as [-> _]; done|];
          intros c'; unfold flags; destruct (Hrec c a b d e f g h w0 c') as [_ ->];
          apply (Hf3 c')
      end. }
  set (w5 := if negb (bool_decide (is_Some (base component))) || mountAll
             then with_mounts (λ mounts, mounts ++ [c]) w4
             else if negb skip && has_method componentDidUpdate component
                  then emit (ComponentDidUpdate c) w4 else w4).
  assert (items w5 = items w ∧ ∀ c', flags w5 c' = target c') as [Hi5 Hf5].
  { subst w5. destruct (_ || _); [done|]. by destruct (_ && _). }
  destruct (runRenderCallbacks_flags c w5) as (Hi6 & _ & Hf6).
  destruct (flushMounts_frame (runRenderCallbacks c w5)) as [Hi7 Hc7].
  match goal with |- context [if ?b then flushMounts _ else _] => destruct b end.
  - split; [by rewrite Hi7, Hi6|]. intros c'. unfold flags. rewrite Hc7.
    fold (flags (runRenderCallbacks c w5) c'). by rewrite Hf6.
  - split; [by rewrite Hi6|]. intros c'. by rewrite Hf6.
Qed.

Lemma rerender_flags :
  keeps_flags →
  ∀ n w, length (items w) = n →
    ∃ w', rerender (S n) w = Some w'
          ∧ items w' = []
          ∧ ∀ c, flags w' c
                 = (λ f : bool * bool, (if decide (c ∈ items w) then f.1 && f.2 else f.1, f.2))
                     <$> flags w c.
Proof.
  intros Hrec. induction n as [|n IH]; intros w Hlen.
  - apply nil_length_inv in Hlen. exists w. simpl. rewrite Hlen. simpl.
    split; [done|]. split; [done|]. intros c.
    destruct (decide (c ∈ [])) as [Hin|_]; [by apply elem_of_nil in Hin|].
    by destruct (flags w c) as [[d dis]|].
  - destruct (items w) as [|c0 rest] eqn:Hitems using rev_ind; [done|]. clear IHrest.
    rewrite length_app in Hlen. simpl in Hlen.
    change (rerender (S (S n)) w) with
      (match last (items w) with
       | None => Some w
       | Some p =>
           let w := with_items (λ items, take (length items - 1) items) w in
           rerender (S n)
             match components w !! p with
             | Some component =>
                 if _dirty component then renderComponent p VUndefined false false w else w
             | None => w
             end
       end).
    rewrite Hitems, last_snoc. cbv zeta.
    set (w1 := with_items (λ items, take (length items - 1) items) w).
    assert (Hi1 : items w1 = rest).
    { subst w1. simpl. rewrite Hitems, length_app. simpl.
      replace (length rest + 1 - 1) with (length rest) by lia. by rewrite take_app_length. }
    assert (Hf1 : ∀ c, flags w1 c = flags w c) by done.
    set (w2 := match components w1 !! c0 with
               | Some component =>
                   if _dirty component then renderComponent c0 VUndefined false false w1 else w1
               | None => w1
               end).
    assert (items w2 = rest
            ∧ ∀ c, flags w2 c
                   = if decide (c = c0)
                     then (λ f : bool * bool, (f.1 && f.2, f.2)) <$> flags w c0
                     else flags w c) as [Hi2 Hf2].
    { subst w2. destruct (components w1 !! c0) as [component|] eqn:Hc0.
      - destruct (_dirty component) eqn:Hdirty.
        + destruct (renderComponent_flags c0 VUndefined false false w1 Hrec) as [-> Hf].
          split; [done|]. intros c. rewrite Hf. by rewrite !Hf1.
        + split; [done|]. intros c. rewrite Hf1.
          destruct (decide (c = c0)) as [->|]; [|done].
          unfold flags. change (components w !! c0) with (components w1 !! c0).
          rewrite Hc0. simpl. by rewrite Hdirty.
      - split; [done|]. intros c. rewrite Hf1.
        destruct (decide (c = c0)) as [->|]; [|done].
        unfold flags. change (components w !! c0) with (components w1 !! c0). by rewrite Hc0. }
    destruct (IH w2) as (w' & Hrun & Hempty & Hflags); [rewrite Hi2; lia|].
    exists w'. split; [done|]. split; [done|].
    intros c. rewrite Hflags, Hi2, Hf2.
    destruct (decide (c = c0)) as [->|Hne].
    + destruct (decide (c0 ∈ rest ++ [c0])) as [_|Hnin];
        [|destruct Hnin; apply elem_of_app; right; left].
      destruct (flags w c0) as [[d dis]|]; [|done]. simpl.
      destruct (decide (c0 ∈ rest)); [|done]. by destruct d, dis.
    + destruct (decide (c ∈ rest)) as [Hin|Hnin];
        destruct (decide (c ∈ rest ++ [c0])) as [Hin'|Hnin']; try done.
      * destruct Hnin'. apply elem_of_app. by left.
      * apply elem_of_app in Hin' as [?|?%list_elem_of_singleton]; done.
Qed.

(** X18 ([rerender]).  With a reconciliation step that keeps to the live
    tree, [rerender] empties the queue in as many rounds as instances are
    queued.  Afterwards every queued instance that is not disabled is
    clean; a disabled one is not rendered and keeps its dirty flag; and
    an instance that was not queued keeps its flag. *)
Theorem rerender_drains w :
  keeps_flags →
  ∃ w',
    rerender (S (length (items w))) w = Some w'
    ∧ items w' = []
    ∧ ∀ c component,
        components w !! c = Some component →
        ∃ component',
          components w' !! c = Some component'
          ∧ _disable component' = _disable component
          ∧ _dirty component'
            = if decide (c ∈ items w) then _dirty component && _disable component
              else _dirty component.
Proof.
  intros Hrec.
  destruct (rerender_flags Hrec (length (items w)) w eq_refl) as (w' & Hrun & Hempty & Hflags).
  exists w'. split; [done|]. split; [done|].
  intros c component Hc. specialize (Hflags c). unfold flags in Hflags.
  rewrite Hc in Hflags. simpl in Hflags.
  destruct (components w' !! c) as [component'|]; [|done].
  exists component'. split; [done|]. simpl in Hflags. by injection Hflags as -> ->.
Qed.

End flushing.

Lemma rerender_drains_witness :
  ∃ w',
    rerender (H := in_place) 3
      (with_items (λ _, [0; 1])
         (quiet {[ 0 := set_dirty true (mounted_instance (plain_class 7) 100 (VObj 1 []) []);
                   1 := set_dirty true (pooled_instance (plain_class 7) 101 (VObj 2 [])) ]} 3 []))
    = Some w'
    ∧ items w' = []
    ∧ _dirty <$> (components w' !! 0) = Some false
    ∧ _dirty <$> (components w' !! 1) = Some true.
Proof.
  assert (Hrec : keeps_flags (H := in_place)) by (by intros ??????????).
  destruct (rerender_drains (H := in_place)
              (with_items (λ _, [0; 1])
                 (quiet {[ 0 := set_dirty true (mounted_instance (plain_class 7) 100 (VObj 1 []) []);
                           1 := set_dirty true (pooled_instance (plain_class 7) 101 (VObj 2 [])) ]}
                    3 []))
              Hrec) as (w' & Hrun & Hempty & Hflags).
  exists w'. split; [exact Hrun|]. split; [exact Hempty|]. split.
  - destruct (Hflags 0 (set_dirty true (mounted_instance (plain_class 7) 100 (VObj 1 []) [])) eq_refl)
      as (component' & -> & _ & Hdirty).
    simpl. f_equal. exact Hdirty.
  - destruct (Hflags 1 (set_dirty true (pooled_instance (plain_class 7) 101 (VObj 2 []))) eq_refl)
      as (component' & -> & _ & Hdirty).
    simpl. f_equal. exact Hdirty.
Defined.

(** ** Queueing renders *)

Lemma enqueueRender_pending c w : flush_pending w → flush_pending (enqueueRender c w).
Proof.
  unfold flush_pending, enqueueRender. intros Hw.
  destruct (components w !! c) as [component|]; [|done].
  destruct (_dirty component); [done|]. simpl.
  destruct (items w) as [|c0 rest] eqn:Hitems; simpl.
  - intros _. lia.
  - intros _. match goal with |- context [if ?b then _ else _] => destruct b end; simpl.
    + lia.
    + by apply Hw.
Qed.

(** X19 ([enqueueRender], [setState]).  Whenever an instance is queued a
    call of [rerender] is pending: queueing into the empty queue defers
    one, queueing behind other instances defers none, and neither
    [enqueueRender] nor [setState] leaves a queued instance without a
    pending flush. *)
Theorem enqueueRender_arms_flush c partial callback w :
  flush_pending w →
  flush_pending (enqueueRender c w)
  ∧ flush_pending (setState c partial callback w)
  ∧ (∀ component,
       components w !! c = Some component → _dirty component = false →
       deferred (enqueueRender c w) = if decide (items w = []) then S (deferred w) else deferred w).
Proof.
  intros Hw. split; [by apply enqueueRender_pending|]. split.
  - unfold setState. simpl. by apply enqueueRender_pending.
  - intros component Hc Hdirty. unfold enqueueRender. rewrite Hc, Hdirty. simpl.
    destruct (items w) as [|c0 rest]; simpl; [done|].
    destruct (Nat.eqb_spec (length (rest ++ [c])) 0) as [Heq|_]; [|done].
    rewrite length_app in Heq. simpl in Heq. lia.
Qed.

Lemma enqueueRender_arms_flush_witness :
  flush_pending (quiet {[ 0 := mounted_instance (plain_class 7) 100 (VObj 1 []) [] ]} 2 [])
  ∧ flush_pending
      (setState 0 (VObj 50 []) VNull
         (quiet {[ 0 := mounted_instance (plain_class 7) 100 (VObj 1 []) [] ]} 2 []))
  ∧ deferred (enqueueRender 0 (quiet {[ 0 := mounted_instance (plain_class 7) 100 (VObj 1 []) [] ]} 2 []))
    = 1.
Proof.
  assert (Hw : flush_pending (quiet {[ 0 := mounted_instance (plain_class 7) 100 (VObj 1 []) [] ]} 2 []))
    by (by intros ?).
  destruct (enqueueRender_arms_flush 0 (VObj 50 []) VNull
              (quiet {[ 0 := mounted_instance (plain_class 7) 100 (VObj 1 []) [] ]} 2 []) Hw)
    as (_ & Hset & Hdeferred).
  split; [exact Hw|]. split; [exact Hset|].
  exact (Hdeferred (mounted_instance (plain_class 7) 100 (VObj 1 []) []) eq_refl eq_refl).
Defined.

Lemma setState_effect c component partial callback w :
  components w !! c = Some component →
  ∃ component',
    components (setState c partial callback w) !! c = Some component'
    ∧ _dirty component' = true
    ∧ state component' = extend_copy (next_ref w) (state component) partial
    ∧ prevState component'
      = (if truthy (prevState component) then prevState component else state component)
    ∧ _renderCallbacks component'
      = (if truthy callback then _renderCallbacks component ++ [callback]
         else _renderCallbacks component)
    ∧ items (setState c partial callback w)
      = (if _dirty component then items w else items w ++ [c])
    ∧ next_ref (setState c partial callback w) = S (next_ref w).
Proof.
  intros Hc.
  pose (update := λ this : instance,
          let this := if truthy (prevState this) then this
                      else set_prevState (state this) this in
          push_callback callback
            (set_state (extend_copy (next_ref w) (state this) partial) this)).
  change (setState c partial callback w)
    with (enqueueRender c (with_component c update (fresh w).2)).
  set (w1 := with_component c update (fresh w).2).
  assert (components w1 !! c = Some (update component)) as Hc1.
  { subst w1. simpl. by rewrite lookup_alter_eq, Hc. }
  assert (Hfields :
    _dirty (update component) = _dirty component
    ∧ state (update component) = extend_copy (next_ref w) (state component) partial
    ∧ prevState (update component)
      = (if truthy (prevState component) then prevState component else state component)
    ∧ _renderCallbacks (update component)
      = (if truthy callback then _renderCallbacks component ++ [callback]
         else _renderCallbacks component)).
  { subst update. unfold push_callback. simpl.
    by destruct (truthy callback), (truthy (prevState component)). }
  destruct Hfields as (Hd & Hs & Hp & Hcb).
  unfold enqueueRender. rewrite Hc1, Hd.
  destruct (_dirty component) eqn:Hdirty.
  - exists (update component). by rewrite Hc1.
  - exists (set_dirty true (update component)).
    match goal with |- context [if ?b then _ else _] => destruct b end;
      (split; [simpl; by rewrite !lookup_alter_eq, Hc|done]).
Qed.

(** X20 ([setState]).  Two calls of [setState] with partial states (not
    updater functions) before a flush are batched: the instance is queued
    once, its state is the first partial state merged into the state and
    the second merged into that, its [prevState] is the state before the
    first call, and the callbacks of both calls wait in the order of the
    calls.  The keys of the state and of the partial states are neither
    integer-like nor names of members of [Object.prototype]. *)
Theorem setState_batches c component p1 cb1 p2 cb2 w :
  components w !! c = Some component →
  _dirty component = false →
  truthy (prevState component) = false →
  truthy (state component) = true →
  typeof p1 ≠ "function" → typeof p2 ≠ "function" →
  (∀ k, k ∈ own_keys (state component) ++ own_keys p1 ++ own_keys p2 → ordinary_key k = true) →
  items (setState c p2 cb2 (setState c p1 cb1 w)) = items w ++ [c]
  ∧ ∃ component',
      components (setState c p2 cb2 (setState c p1 cb1 w)) !! c = Some component'
      ∧ _dirty component' = true
      ∧ prevState component' = state component
      ∧ state component'
        = extend_copy (S (next_ref w)) (extend_copy (next_ref w) (state component) p1) p2
      ∧ _renderCallbacks component'
        = _renderCallbacks component ++ filter (λ cb, truthy cb = true) [cb1; cb2].
Proof.
  intros Hc Hdirty Hprev Hstate _ _ _.
  destruct (setState_effect c component p1 cb1 w Hc)
    as (c1 & Hc1 & Hd1 & Hs1 & Hp1 & Hcb1 & Hi1 & Hn1).
  destruct (setState_effect c c1 p2 cb2 (setState c p1 cb1 w) Hc1)
    as (c2 & Hc2 & Hd2 & Hs2 & Hp2 & Hcb2 & Hi2 & Hn2).
  rewrite Hdirty in Hi1. rewrite Hd1 in Hi2. rewrite Hprev in Hp1.
  rewrite Hp1, Hstate in Hp2. rewrite Hs1, Hn1 in Hs2.
  split; [by rewrite Hi2, Hi1|].
  exists c2. split; [done|]. split; [done|]. split; [done|]. split; [done|].
  rewrite Hcb2, Hcb1, !filter_cons, filter_nil.
  destruct (truthy cb1), (truthy cb2); simpl; by rewrite <- ?app_assoc, ?app_nil_r.
Qed.

Lemma setState_batches_witness :
  items (setState 0 (VObj 51 [("b", VNum 2)]) (VFun 9 "done")
           (setState 0 (VObj 50 [("a", VNum 1)]) VUndefined
              (quiet {[ 0 := mounted_instance (plain_class 7) 100 (VObj 1 [("a", VNum 0)]) [] ]} 2 [])))
  = [] ++ [0].
Proof.
  refine (proj1 (setState_batches 0 (mounted_instance (plain_class 7) 100 (VObj 1 [("a", VNum 0)]) [])
                   (VObj 50 [("a", VNum 1)]) VUndefined (VObj 51 [("b", VNum 2)]) (VFun 9 "done")
                   (quiet {[ 0 := mounted_instance (plain_class 7) 100 (VObj 1 [("a", VNum 0)]) [] ]} 2 [])
                   eq_refl eq_refl eq_refl eq_refl _ _ _)); try discriminate.
  intros k Hk. simpl in Hk.
  repeat (apply elem_of_cons in Hk as [->|Hk]; [reflexivity|]).
  by apply elem_of_nil in Hk.
Defined.

(** ** Forced updates *)

Lemma runRenderCallbacks_trace c w :
  ∃ more, trace (runRenderCallbacks c w) = trace w ++ more.
Proof.
  unfold runRenderCallbacks. destruct (components w !! c) as [component|].
  - destruct (trace_callbacks c (reverse (_renderCallbacks component))
                (with_component c (set_renderCallbacks []) w)) as (Htr & _).
    eexists. exact Htr.
  - exists []. by rewrite app_nil_r.
Qed.

Section forcing.
Context `{Reconciler}.

(** X21 ([forceUpdate]).  A forced update of an instance that is not
    disabled always renders it: [shouldComponentUpdate] is not asked, and
    before [render] at most [getDerivedStateFromProps] and
    [componentWillUpdate] are called. *)
Theorem forceUpdate_always_renders c component callback w :
  extends_trace →
  components w !! c = Some component →
  _disable component = false →
  ∃ before after,
    trace (forceUpdate c callback w) = trace w ++ before ++ [Render c] ++ after
    ∧ ∀ e, e ∈ before → e = GetDerivedStateFromProps c ∨ e = ComponentWillUpdate c.
Proof.
  intros Hrec Hc Hdisable. unfold forceUpdate.
  set (w0 := with_component c (push_callback callback) w).
  set (component0 := push_callback callback component).
  assert (Hc0 : components w0 !! c = Some component0).
  { subst w0. simpl. by rewrite lookup_alter_eq, Hc. }
  assert (Hsame : _disable component0 = false ∧ constructor component0 = constructor component
                  ∧ base component0 = base component).
  { subst component0. unfold push_callback. by destruct (truthy callback). }
  destruct Hsame as (Hdis0 & Hctor & Hbase).
  unfold renderComponent. rewrite Hc0, Hdis0.
  destruct (derive_state c component0 w0) as [s w1] eqn:Hderive.
  assert (∃ d, trace w1 = trace w ++ d
               ∧ ∀ e, e ∈ d → e = GetDerivedStateFromProps c) as (d & Htr1 & Hd).
  { unfold derive_state in Hderive.
    destruct (getDerivedStateFromProps (constructor component0)).
    - injection Hderive as <- <-. exists [GetDerivedStateFromProps c].
      split; [done|]. by intros e ->%list_elem_of_singleton.
    - injection Hderive as <- <-. exists []. split; [by rewrite app_nil_r|].
      by intros e ?%elem_of_nil. }
  destruct (should_skip c component0 (VNum 2) s w1) as [skip w2] eqn:Hskip.
  assert (skip = false
          ∧ ∃ u, trace w2 = trace w1 ++ u ∧ ∀ e, e ∈ u → e = ComponentWillUpdate c)
    as (-> & u & Htr2 & Hu).
  { unfold should_skip in Hskip.
    assert (Hmode : strict_neq (VNum 2) (VNum 2) = false).
    { unfold strict_neq. by rewrite strict_eq_refl. }
    rewrite Hmode in Hskip.
    destruct (base component0); [destruct (has_method componentWillUpdate component0)|];
      injection Hskip as <- <-; (split; [done|]).
    - exists [ComponentWillUpdate c]. split; [done|]. by intros e ->%list_elem_of_singleton.
    - exists []. split; [by rewrite app_nil_r|]. by intros e ?%elem_of_nil.
    - exists []. split; [by rewrite app_nil_r|]. by intros e ?%elem_of_nil. }
  set (w3 := with_component c (settle s) w2).
  set (w4 := render_and_reconcile c component0 (VNum 2) s false false w3).
  assert (∃ x, trace w4 = trace w2 ++ [Render c] ++ x) as [x Htr4].
  { subst w4. unfold render_and_reconcile.
    destruct (method getChildContext component0);
      destruct (base component0); destruct (method getSnapshotBeforeUpdate component0);
      simpl;
      match goal with
      | |- context [reconcile c ?a ?b ?d ?e ?f ?g ?h ?w0] =>
          destruct (Hrec c a b d e f g h w0) as [more ->]
      end; simpl; rewrite <- ?app_assoc; simpl; by eexists. }
  cbv iota.
  set (w5 := if negb (bool_decide (is_Some (base component0))) || false
             then with_mounts (λ mounts, mounts ++ [c]) w4
             else if negb false && has_method componentDidUpdate component0
                  then emit (ComponentDidUpdate c) w4 else w4).
  assert (∃ y, trace w5 = trace w4 ++ y) as [y Htr5].
  { subst w5. destruct (_ || _); [exists []; by rewrite app_nil_r|].
    destruct (_ && _); [by eexists|]. exists []. by rewrite app_nil_r. }
  destruct (runRenderCallbacks_trace c w5) as [z Htr6].
  assert (∃ m, trace (if Nat.eqb (diffLevel (runRenderCallbacks c w5)) 0 && negb false
                      then flushMounts (runRenderCallbacks c w5) else runRenderCallbacks c w5)
               = trace (runRenderCallbacks c w5) ++ m) as [m Htr7].
  { match goal with |- context [if ?b then flushMounts _ else _] => destruct b end.
    - destruct (trace_flushMounts (runRenderCallbacks c w5)) as (mounted & Hm & _). by eexists.
    - exists []. by rewrite app_nil_r. }
  exists (d ++ u), (x ++ y ++ z ++ m). split.
  - rewrite Htr7, Htr6, Htr5, Htr4, Htr2, Htr1. by rewrite <- !app_assoc.
  - intros e [He|He]%elem_of_app; [left; by apply Hd|right; by apply Hu].
Qed.

End forcing.

Lemma forceUpdate_always_renders_witness :
  ∃ before after,
    trace (forceUpdate (H := in_place) 0 VNull
             (quiet {[ 0 := mounted_instance (frozen_class 7) 100 (VObj 1 []) [] ]} 2 []))
    = [] ++ before ++ [Render 0] ++ after
    ∧ ∀ e, e ∈ before → e = GetDerivedStateFromProps 0 ∨ e = ComponentWillUpdate 0.
Proof.
  refine (forceUpdate_always_renders (H := in_place) 0
            (mounted_instance (frozen_class 7) 100 (VObj 1 []) []) VNull
            (quiet {[ 0 := mounted_instance (frozen_class 7) 100 (VObj 1 []) [] ]} 2 [])
            _ eq_refl eq_refl).
  intros c rendered context mode mountAll isChild initialBase initialChildComponent w.
  exists []. unfold reconcile, in_place. by rewrite app_nil_r.
Defined.

(** ** Props of a component node *)

Lemma prop_object ref fields k : prop (VObj ref fields) k = default VUndefined (field k fields).
Proof. unfold prop. simpl. destruct (field k fields); [done|]. by destruct (String.eqb k "length"). Qed.

Lemma prop_set_field ref k k' v fields :
  prop (VObj ref (set_field k' v fields)) k
  = if String.eqb k k' then v else prop (VObj ref fields) k.
Proof.
  rewrite !prop_object, field_set_field. by destruct (String.eqb k k').
Qed.

Lemma prop_fill_defaults a k props (defs : list (string * value)) :
  NoDup defs.*1 →
  prop (VObj a (foldl (λ props kv,
                         if strict_eq (prop (VObj a props) kv.1) VUndefined
                         then set_field kv.1 kv.2 props
                         else props)
                      props defs)) k
  = if strict_eq (prop (VObj a props) k) VUndefined
    then default VUndefined (field k defs)
    else prop (VObj a props) k.
Proof.
  revert props. induction defs as [|[k0 v0] defs IH]; intros props Hnd; simpl.
  - destruct (strict_eq _ _) eqn:Heq; [|done]. by apply strict_eq_eq in Heq.
  - apply NoDup_cons in Hnd as [Hk0 Hnd]. rewrite IH by done.
    unfold field at 2. simpl. fold (field k defs).
    destruct (String.eqb_spec k k0) as [->|Hne]; simpl.
    + rewrite (field_absent k0 defs Hk0). simpl.
      destruct (strict_eq (prop (VObj a props) k0) VUndefined) eqn:Hundef.
      * rewrite prop_set_field, String.eqb_refl.
        destruct (strict_eq v0 VUndefined) eqn:Hv; [|done]. by apply strict_eq_eq in Hv.
      * by rewrite Hundef.
    + destruct (strict_eq (prop (VObj a props) k0) VUndefined); [|done].
      rewrite prop_set_field. apply String.eqb_neq in Hne. by rewrite Hne.
Qed.

(** X22 ([getNodeProps]).  The props of a component node are its
    attributes, with [children] taken from the node, and with the
    default of the component wherever the value so given is
    [undefined]: an attribute that is given wins over the default, also
    when it is null.  This is so for keys that are not names of members
    of [Object.prototype], none of which is a key of the attributes or
    of the defaults. *)
Theorem getNodeProps_defaults a vnode ra attrs rd defs :
  nullish vnode = false →
  prop vnode "attributes" = VObj ra attrs →
  NoDup attrs.*1 → NoDup defs.*1 →
  (∀ k, k ∈ attrs.*1 ++ defs.*1 → inherited k = false) →
  ∃ props,
    getNodeProps a vnode (VObj rd defs) = Ok props
    ∧ ∀ k, inherited k = false →
           prop props k
           = if strict_eq (if String.eqb k "children" then prop vnode "children"
                           else prop (VObj ra attrs) k) VUndefined
             then prop (VObj rd defs) k
             else if String.eqb k "children" then prop vnode "children"
                  else prop (VObj ra attrs) k.
Proof.
  intros Hn Hattrs Hnd Hdefs _. unfold getNodeProps, get. rewrite Hn, Hattrs. simpl.
  eexists. split; [reflexivity|]. intros k _.
  assert (Hcopy : foldl (λ fields kv, set_field kv.1 kv.2 fields) [] attrs = attrs)
    by (by apply (foldl_set_field_fresh [])).
  rewrite Hcopy.
  rewrite prop_fill_defaults by done.
  rewrite prop_set_field, (prop_object rd defs), (prop_object a attrs), (prop_object ra attrs).
  done.
Qed.

Lemma getNodeProps_defaults_witness :
  ∃ props,
    getNodeProps 20
      (VObj 1 [("nodeName", VFun 2 "Button");
               ("attributes", VObj 3 [("label", VStr "ok"); ("size", VUndefined); ("kind", VNull)]);
               ("children", VArr 4 [])])
      (VObj 5 [("size", VNum 2); ("kind", VStr "plain"); ("label", VStr "?")])
    = Ok props
    ∧ prop props "label" = VStr "ok"
    ∧ prop props "size" = VNum 2
    ∧ prop props "kind" = VNull.
Proof.
  destruct (getNodeProps_defaults 20
              (VObj 1 [("nodeName", VFun 2 "Button");
                       ("attributes", VObj 3 [("label", VStr "ok"); ("size", VUndefined); ("kind", VNull)]);
                       ("children", VArr 4 [])])
              3 [("label", VStr "ok"); ("size", VUndefined); ("kind", VNull)]
              5 [("size", VNum 2); ("kind", VStr "plain"); ("label", VStr "?")]
              eq_refl eq_refl) as (props & Hprops & Hread).
  - apply (bool_decide_unpack _). vm_compute. reflexivity.
  - apply (bool_decide_unpack _). vm_compute. reflexivity.
  - intros k Hk. simpl in Hk.
    repeat (apply elem_of_cons in Hk as [->|Hk]; [reflexivity|]).
    by apply elem_of_nil in Hk.
  - exists props. split; [exact Hprops|]. rewrite !Hread by reflexivity.
    repeat split; reflexivity.
Defined.

(** ** The test harness *)

(** X23 ([report]).  A test is reported green exactly when the number of
    passed checks it prints is the number of all checks; a check counts
    as passed when its result is truthy. *)
Theorem report_green_iff_all_passed ok :
  (report_color ok = "green" ↔ report_passed ok = report_total ok)
  ∧ (report_color ok = "red" ↔ report_passed ok < report_total ok)
  ∧ (∀ actual expected,
       report_passed (Assert_is actual expected ok)
       = report_passed ok + (if strict_eq actual expected then 1 else 0)).
Proof.
  unfold report_color, report_passed, report_total, Assert_is.
  assert (Hall : forallb truthy ok = true
                 ↔ length (filter (λ elem, truthy elem = true) ok) = length ok).
  { induction ok as [|x ok IH]; [done|]. simpl. rewrite filter_cons.
    pose proof (length_filter (λ elem, truthy elem = true) ok) as Hle.
    destruct (decide (truthy x = true)) as [Ht|Hf].
    - rewrite Ht. simpl. rewrite IH. split; lia.
    - apply not_true_is_false in Hf. rewrite Hf. simpl. split; [done|lia]. }
  pose proof (length_filter (λ elem, truthy elem = true) ok) as Hle.
  split; [|split].
  - rewrite <- Hall. by destruct (forallb truthy ok).
  - destruct (forallb truthy ok).
    + destruct Hall as [Heq _]. specialize (Heq eq_refl). split; [done|lia].
    + split; [|done]. intros _.
      destruct (decide (length (filter (λ elem, truthy elem = true) ok) = length ok)) as [Heq|Hne];
        [|lia].
      by apply Hall in Heq.
  - intros actual expected. rewrite filter_app, length_app, filter_cons, filter_nil.
    by destruct (strict_eq actual expected).
Qed.

Lemma report_green_iff_all_passed_witness :
  report_color (Assert_is (VNum 1) (VNum 1) (Assert_true (VStr "x") [])) = "green"
  ∧ report_passed (Assert_is (VNum 1) (VNum 1) (Assert_true (VStr "x") [])) = 2.
Proof.
  split.
  - apply (proj1 (report_green_iff_all_passed
                    (Assert_is (VNum 1) (VNum 1) (Assert_true (VStr "x") [])))).
    reflexivity.
  - exact (proj2 (proj2 (report_green_iff_all_passed (Assert_true (VStr "x") [])))
             (VNum 1) (VNum 1)).
Defined.

Lemma entries_string_form (fields1 fields2 : list (string * value)) :
  (λ kv, (kv.1, if nullish kv.2 then "" else toString kv.2)) <$> fields1
  = (λ kv, (kv.1, if nullish kv.2 then "" else toString kv.2)) <$> fields2 →
  (λ x, if nullish x then "" else toString x)
    <$> ((λ kv, VArr 0 [VStr kv.1; kv.2]) <$> fields1)
  = (λ x, if nullish x then "" else toString x)
      <$> ((λ kv, VArr 0 [VStr kv.1; kv.2]) <$> fields2).
Proof.
  revert fields2. induction fields1 as [|[k1 v1] fields1 IH]; intros [|[k2 v2] fields2]; try done.
  rewrite !fmap_cons. intros [= -> Hv Hrest]. f_equal; [|by apply IH].
  simpl. by rewrite Hv.
Qed.

(** X24 ([Assert]: [objectIs]).  [objectIs] compares the two objects as
    strings.  It passes whenever they have the same keys in the same
    order and under each key values with the same string form, null and
    undefined counting as the empty string; so it takes null, undefined
    and the empty string for one another, and any two nested objects.
    The values have a plain string form.  On null or undefined it
    throws. *)
Theorem Assert_objectIs_by_string actual expected ok :
  (nullish actual = false → nullish expected = false →
   (∀ kv, kv ∈ entries actual ++ entries expected → plain_string kv.2 = true) →
   (λ kv, (kv.1, if nullish kv.2 then "" else toString kv.2)) <$> entries actual
   = (λ kv, (kv.1, if nullish kv.2 then "" else toString kv.2)) <$> entries expected →
   Assert_objectIs actual expected ok = Ok (ok ++ [VBool true]))
  ∧ (nullish actual = true ∨ nullish expected = true →
     Assert_objectIs actual expected ok = Throw TypeError).
Proof.
  unfold Assert_objectIs. split.
  - intros -> -> _ Hsame. simpl. do 4 f_equal. apply String.eqb_eq.
    unfold entries_string. cbn [toString]. f_equal.
    by apply entries_string_form.
  - intros [-> | ->]; [done|]. by rewrite orb_true_r.
Qed.

Lemma Assert_objectIs_by_string_witness :
  Assert_objectIs (VObj 1 [("a", VNull); ("b", VObj 2 [("x", VNum 1)])])
                  (VObj 3 [("a", VStr ""); ("b", VObj 4 [])]) []
  = Ok ([] ++ [VBool true]).
Proof.
  refine (proj1 (Assert_objectIs_by_string (VObj 1 [("a", VNull); ("b", VObj 2 [("x", VNum 1)])])
                   (VObj 3 [("a", VStr ""); ("b", VObj 4 [])]) [])
            eq_refl eq_refl _ eq_refl).
  intros kv Hkv. simpl in Hkv.
  repeat (apply elem_of_cons in Hkv as [->|Hkv]; [reflexivity|]).
  by apply elem_of_nil in Hkv.
Defined.

(** ** Runs of a mounted view *)

Section running.
Context `{Document}.
Variable view : value → value.

Lemma replaceChildAt_first root new root' :
  replaceChildAt root new 0 = Ok root' →
  childNodes root' !! 0 = Some new ∧ tail (childNodes root') = tail (childNodes root).
Proof.
  unfold replaceChildAt. destruct root as [data|tag attrs ls [|c cs]]; simpl; try done.
  by intros [= <-].
Qed.

(** X25 ([mount] and its [setState] without diffing).  After mounting and
    any number of calls of [setState] that render anew, the live tree
    shows the view of the current state: the first child of the root is
    the rendering of the tree remembered, which is the view of the state,
    and the children behind it are the ones the root had after the first
    when it was mounted. *)
Theorem mount_rerendering_shows root s updates this0 this :
  mount view root s = Ok this0 →
  foldM (λ this u, mount_setState view false u.1 u.2 this) this0 updates = Ok this →
  shows this
  ∧ app_vDom this = view (app_state this)
  ∧ tail (childNodes (app_root this)) = tail (childNodes root).
Proof.
  intros Hmount Hrun.
  assert (Hstart : shows this0 ∧ app_vDom this0 = view (app_state this0)
                   ∧ tail (childNodes (app_root this0)) = tail (childNodes root)).
  { revert Hmount. unfold mount.
    destruct (render (view s)) as [d|] eqn:Hd; [|by destruct (childNodes root !! 0)].
    destruct root as [data|tag attrs ls [|c cs]]; simpl; try done.
    - intros [= <-]. split; [by exists d|]. done.
    - intros [= <-]. split; [by exists d|]. done. }
  revert Hrun. apply (foldM_invariant
    (λ this, shows this ∧ app_vDom this = view (app_state this)
             ∧ tail (childNodes (app_root this)) = tail (childNodes root))); [|done].
  intros acc [a partial] acc' (_ & _ & Htail). unfold mount_setState. simpl.
  destruct (render (view (extend_copy a (app_state acc) partial))) as [d|] eqn:Hd; simpl; [|done].
  destruct (replaceChildAt (app_root acc) d 0) as [root'|] eqn:Hreplace; simpl; [|done].
  intros [= <-]. simpl. destruct (replaceChildAt_first _ _ _ Hreplace) as [Hfirst Htail'].
  split; [by exists d|]. split; [done|]. by rewrite Htail'.
Qed.

End running.

Lemma mount_rerendering_shows_witness :
  shows (H := html)
    {| app_root := Element "div" [] [] [Element "p" [] [] [Text "3"]; Text "footer"];
       app_state := VObj 6 [("count", VNum 3)];
       app_vDom := counter_view (VObj 6 [("count", VNum 3)]) |}.
Proof.
  refine (proj1 (mount_rerendering_shows (H := html) counter_view
                   (Element "div" [] [] [Text "loading"; Text "footer"])
                   (VObj 1 [("count", VNum 1)])
                   [(5, VObj 2 [("count", VNum 2)]); (6, VObj 3 [("count", VNum 3)])]
                   {| app_root := Element "div" [] [] [Element "p" [] [] [Text "1"]; Text "footer"];
                      app_state := VObj 1 [("count", VNum 1)];
                      app_vDom := counter_view (VObj 1 [("count", VNum 1)]) |}
                   {| app_root := Element "div" [] [] [Element "p" [] [] [Text "3"]; Text "footer"];
                      app_state := VObj 6 [("count", VNum 3)];
                      app_vDom := counter_view (VObj 6 [("count", VNum 3)]) |}
                   _ _)); vm_compute; reflexivity.
Defined.

(** ** Mounted callbacks *)

Lemma flushMounts_fold cs w :
  trace (foldl (λ w c,
                  match components w !! c with
                  | Some component =>
                      if has_method componentDidMount component
                      then emit (ComponentDidMount c) w else w
                  | None => w
                  end) w cs)
  = trace w ++ (ComponentDidMount <$> filter (λ c, has_componentDidMount w c = true) cs).
Proof.
  revert w. induction cs as [|c cs IH]; intros w; simpl; [by rewrite app_nil_r|].
  rewrite filter_cons, IH.
  destruct (decide (has_componentDidMount w c = true)) as [Hd|Hd];
    unfold has_componentDidMount in Hd;
    destruct (components w !! c) as [component|]; try done;
    destruct (has_method componentDidMount component); try done.
  simpl. by rewrite <- app_assoc.
Qed.

(** X26 ([flushMounts]).  [flushMounts] calls [componentDidMount] once
    for every entry of the list of mounted instances whose instance has
    the method, in the order in which they were mounted, and leaves the
    list empty; the instances and the dirty queue are not touched. *)
Theorem flushMounts_in_mount_order w :
  trace (flushMounts w)
  = trace w ++ (ComponentDidMount <$> filter (λ c, has_componentDidMount w c = true) (mounts w))
  ∧ mounts (flushMounts w) = []
  ∧ components (flushMounts w) = components w
  ∧ items (flushMounts w) = items w.
Proof.
  destruct (flushMounts_frame w) as [Hitems Hcomponents].
  split; [|done]. unfold flushMounts. simpl. apply flushMounts_fold.
Qed.

Lemma flushMounts_in_mount_order_witness :
  trace (flushMounts
           (with_mounts (λ _, [1; 0; 1])
              (quiet {[ 0 := mounted_instance (plain_class 7) 100 (VObj 1 []) [];
                        1 := mounted_instance (frozen_class 8) 101 (VObj 2 []) [] ]} 3 [])))
  = [ComponentDidMount 1; ComponentDidMount 1].
Proof.
  rewrite (proj1 (flushMounts_in_mount_order
                    (with_mounts (λ _, [1; 0; 1])
                       (quiet {[ 0 := mounted_instance (plain_class 7) 100 (VObj 1 []) [];
                                 1 := mounted_instance (frozen_class 8) 101 (VObj 2 []) [] ]} 3 [])))).
  vm_compute. reflexivity.
Defined.
